(** * EHeapQ: an indexed, size-bounded binary min-heap

    A shallow embedding of the class template [EHeapQ<T, Compare>] of
    [src/fext/eheapq.hpp] and the properties its specification states.

    - The backing [std::vector<T>] is a [list T]; positions are [nat].
    - The [std::unordered_map<T, size_t>] is a [gmap T nat].
    - The capacity [long unsigned int size] is an [N].
    - [Compare::operator()] is a partial function [comp : T → T → option bool];
      [None] stands for a comparator that throws.
    - Methods are computations in a state-and-exception monad over the
      object's fields. *)

From stdpp Require Import gmap list sorting.
From Stdlib Require Import ZifyN ZifyNat ZifyBool.

(** ** Exceptions *)

Inductive exn : Type :=
  | EHeapQEmpty            (* "the heap is empty" *)
  | EHeapQNotFound         (* "the given item was not found in the heap" *)
  | EHeapQAlreadyPresent   (* "the given item is already present in the heap" *)
  | EHeapQNoLast           (* "no record for the last item" *)
  | CompareError           (* whatever Compare::operator() throws *)
  | StdOutOfRange.         (* std::out_of_range of unordered_map::at / vector::at *)

(** const long unsigned int EHEAPQ_DEFAULT_SIZE = numeric_limits<long unsigned int>::max() *)
Definition EHEAPQ_DEFAULT_SIZE : N := (2 ^ 64 - 1)%N.

Section Model.
Context {T : Type} `{Countable T}.

(** The private fields of the class. *)
Record EHeapQ : Type := mkEHeapQ {
  heap : list T;
  size : N;
  last_item : T;
  last_item_set : bool;
  max_item : T;
  max_item_set : bool;
  index_map : gmap T nat
}.

Definition with_heap (f : list T → list T) (s : EHeapQ) : EHeapQ :=
  mkEHeapQ (f (heap s)) (size s) (last_item s) (last_item_set s)
           (max_item s) (max_item_set s) (index_map s).
Definition with_index_map (f : gmap T nat → gmap T nat) (s : EHeapQ) : EHeapQ :=
  mkEHeapQ (heap s) (size s) (last_item s) (last_item_set s)
           (max_item s) (max_item_set s) (f (index_map s)).
Definition with_size (n : N) (s : EHeapQ) : EHeapQ :=
  mkEHeapQ (heap s) n (last_item s) (last_item_set s)
           (max_item s) (max_item_set s) (index_map s).
Definition with_last (x : T) (b : bool) (s : EHeapQ) : EHeapQ :=
  mkEHeapQ (heap s) (size s) x b (max_item s) (max_item_set s) (index_map s).
Definition with_max (x : T) (b : bool) (s : EHeapQ) : EHeapQ :=
  mkEHeapQ (heap s) (size s) (last_item s) (last_item_set s) x b (index_map s).

(** ** Outcomes of a method call

    [Ok a s]: returned [a], object now [s].  [Throw e s]: exception [e]
    left the call, object now [s].  [Undefined]: a raw access through
    [data()] or [pop_back] outside the vector.  [Terminate]: an exception
    reached the boundary of a [noexcept] function.  [OutOfFuel]: the
    bound given to a loop of the model was too small (shown below never
    to happen for the methods). *)
Inductive result (A : Type) : Type :=
  | Ok (a : A) (s : EHeapQ)
  | Throw (e : exn) (s : EHeapQ)
  | Undefined
  | Terminate
  | OutOfFuel.
Global Arguments Ok {A} a s.
Global Arguments Throw {A} e s.
Global Arguments Undefined {A}.
Global Arguments Terminate {A}.
Global Arguments OutOfFuel {A}.

Definition M (A : Type) : Type := EHeapQ → result A.

Definition ret {A} (a : A) : M A := fun s => Ok a s.
Definition bind {A B} (m : M A) (k : A → M B) : M B :=
  fun s => match m s with
           | Ok a s' => k a s'
           | Throw e s' => Throw e s'
           | Undefined => Undefined
           | Terminate => Terminate
           | OutOfFuel => OutOfFuel
           end.
Definition throw {A} (e : exn) : M A := fun s => Throw e s.
Definition undefined {A} : M A := fun _ => Undefined.
Definition out_of_fuel {A} : M A := fun _ => OutOfFuel.
(** try { m } catch (...) { h } *)
Definition try_catch {A} (m : M A) (h : exn → M A) : M A :=
  fun s => match m s with
           | Throw e s' => h e s'
           | r => r
           end.
(** a call made inside a [noexcept] function *)
Definition noexcept {A} (m : M A) : M A :=
  fun s => match m s with
           | Throw _ _ => Terminate
           | r => r
           end.
End Model.

Global Arguments EHeapQ T {_ _}.
Global Arguments result T {_ _} A.
Global Arguments M T {_ _} A.

Notation "x <- m ;; k" := (bind m (fun x => k))
  (at level 100, m at next level, k at level 200, right associativity).
Notation "m ;;; k" := (bind m (fun _ => k))
  (at level 100, k at level 200, right associativity).

Section Methods.
Context {T : Type} `{Countable T}.
(** The comparator object [this->comp]. *)
Variable comp : T → T → option bool.

(** ** Primitive accesses *)

(** this->heap->size() *)
Definition heap_size : M T nat := fun s => Ok (length (heap s)) s.
(** this->size *)
Definition get_size : M T N := fun s => Ok (size s) s.
(** this->heap->data()[i], read *)
Definition data_get (i : nat) : M T T :=
  fun s => match heap s !! i with
           | Some x => Ok x s
           | None => Undefined
           end.
(** this->heap->data()[i] = x *)
Definition data_set (i : nat) (x : T) : M T unit :=
  fun s => if decide (i < length (heap s))
           then Ok tt (with_heap (<[i:=x]>) s)
           else Undefined.
(** this->heap->at(i) *)
Definition heap_at (i : nat) : M T T :=
  fun s => match heap s !! i with
           | Some x => Ok x s
           | None => Throw StdOutOfRange s
           end.
(** this->heap->back() *)
Definition heap_back : M T T :=
  fun s => match last (heap s) with
           | Some x => Ok x s
           | None => Undefined
           end.
(** this->heap->push_back(x) *)
Definition push_back (x : T) : M T unit :=
  fun s => Ok tt (with_heap (fun l => l ++ [x]) s).
(** this->heap->pop_back() *)
Definition pop_back : M T unit :=
  fun s => match heap s with
           | [] => Undefined
           | _ => Ok tt (with_heap (fun l => removelast l) s)
           end.
(** this->index_map->find(x), [None] for end() *)
Definition index_find (x : T) : M T (option nat) :=
  fun s => Ok (index_map s !! x) s.
(** this->index_map->insert({x, i}): no effect when the key is present *)
Definition index_insert (x : T) (i : nat) : M T unit :=
  fun s => Ok tt (with_index_map
                    (fun m => match m !! x with
                              | Some _ => m
                              | None => <[x:=i]> m
                              end) s).
(** this->index_map->erase(x) *)
Definition index_erase (x : T) : M T unit :=
  fun s => Ok tt (with_index_map (delete x) s).
(** this->index_map->at(x) = i *)
Definition index_at_put (x : T) (i : nat) : M T unit :=
  fun s => match index_map s !! x with
           | Some _ => Ok tt (with_index_map (<[x:=i]>) s)
           | None => Throw StdOutOfRange s
           end.
(** this->comp(a, b) *)
Definition compare (a b : T) : M T bool :=
  fun s => match comp a b with
           | Some r => Ok r s
           | None => Throw CompareError s
           end.

(** ** Private helpers *)

Definition throw_on_empty : M T unit :=
  n <- heap_size ;;
  if decide (n = 0) then throw EHeapQEmpty else ret tt.

Definition set_last_item (item : T) : M T unit :=
  fun s => Ok tt (with_last item true s).
Definition set_max_item (item : T) : M T unit :=
  fun s => Ok tt (with_max item true s).

Definition maybe_del_last_item (item : T) : M T unit :=
  fun s => if last_item_set s && bool_decide (last_item s = item)
           then Ok tt (with_last (last_item s) false s)
           else Ok tt s.
Definition maybe_del_max_item (item : T) : M T unit :=
  fun s => if max_item_set s && bool_decide (max_item s = item)
           then Ok tt (with_max (max_item s) false s)
           else Ok tt s.
Definition maybe_adjust_max (item : T) : M T unit :=
  noexcept
    (fun s => if negb (max_item_set s) then Ok tt s
              else (c <- compare (max_item s) item ;;
                    if (c : bool)
                    then (fun s' => Ok tt (with_max item (max_item_set s') s'))
                    else ret tt) s).

(** ** siftdown(startpos, pos)

    [newitem] is carried from one iteration to the next as in the source;
    [pos > startpos ≥ 0] inside the loop, so [(pos - 1) >> 1] does not wrap. *)
Fixpoint siftdown_loop (fuel startpos pos : nat) (newitem : T) : M T unit :=
  if decide (startpos < pos) then
    match fuel with
    | 0 => out_of_fuel
    | S fuel' =>
      let parentpos := (pos - 1) / 2 in
      parent <- data_get parentpos ;;
      c <- compare newitem parent ;;
      if negb c then ret tt
      else
        parent <- data_get parentpos ;;
        newitem <- data_get pos ;;
        data_set parentpos newitem ;;;
        data_set pos parent ;;;
        index_at_put newitem parentpos ;;;
        index_at_put parent pos ;;;
        siftdown_loop fuel' startpos parentpos newitem
    end
  else ret tt.

Definition siftdown (startpos pos : nat) : M T unit :=
  n <- heap_size ;;
  if decide (n = 0) then ret tt
  else
    newitem <- data_get pos ;;
    siftdown_loop pos startpos pos newitem.

(** ** siftup(pos)

    [pos < limit = endpos >> 1] inside the loop, so [(pos << 1) + 1] and
    [childpos + 1] do not wrap.  The loop returns the final [pos]. *)
Fixpoint siftup_loop (fuel endpos limit pos : nat) : M T nat :=
  if decide (pos < limit) then
    match fuel with
    | 0 => out_of_fuel
    | S fuel' =>
      let childpos := 2 * pos + 1 in
      childpos <-
        (if decide (childpos + 1 < endpos) then
           a <- data_get childpos ;;
           b <- data_get (childpos + 1) ;;
           cmp <- compare a b ;;
           ret (childpos + (if (cmp : bool) then 0 else 1))
         else ret childpos) ;;
      tmp1 <- data_get childpos ;;
      tmp2 <- data_get pos ;;
      data_set childpos tmp2 ;;;
      data_set pos tmp1 ;;;
      index_at_put tmp2 childpos ;;;
      index_at_put tmp1 pos ;;;
      siftup_loop fuel' endpos limit childpos
    end
  else ret pos.

Definition siftup (pos : nat) : M T unit :=
  endpos <- heap_size ;;
  let startpos := pos in
  let limit := endpos / 2 in
  pos <- siftup_loop endpos endpos limit pos ;;
  siftdown startpos pos.

(** ** Public methods *)

Definition get_top : M T T :=
  throw_on_empty ;;; heap_at 0.

Definition get_last : M T T :=
  n <- heap_size ;;
  if decide (n = 0) then throw EHeapQEmpty
  else fun s => if last_item_set s then Ok (last_item s) s
                else Throw EHeapQNoLast s.

Definition get_length : M T nat := heap_size.

(** The [for] loop of get_max over [i = size/2 + 1 .. size - 1]. *)
Fixpoint get_max_scan (idxs : list nat) (result : T) : M T T :=
  match idxs with
  | [] => ret result
  | i :: idxs' =>
    x <- data_get i ;;
    c <- compare result x ;;
    result <- (if (c : bool) then data_get i else ret result) ;;
    get_max_scan idxs' result
  end.

Definition get_max : M T T :=
  throw_on_empty ;;;
  fun s =>
    if max_item_set s then Ok (max_item s) s
    else
      (n <- heap_size ;;
       result <- data_get (n / 2) ;;
       result <- get_max_scan (seq (n / 2 + 1) (n - (n / 2 + 1))) result ;;
       (fun s' => Ok tt (with_max result (max_item_set s') s')) ;;;
       ret result) s.

Definition pushpop (item : T) : M T T :=
  found <- index_find item ;;
  if found is Some _ then throw EHeapQAlreadyPresent
  else
    let to_return := item in
    n <- heap_size ;;
    accepted <- (if decide (0 < n)
                   then top <- heap_at 0 ;; compare top item
                   else ret false) ;;
    if (accepted : bool) then
      to_return <- data_get 0 ;;
      data_set 0 item ;;;
      index_insert item 0 ;;;
      index_erase to_return ;;;
      siftup 0 ;;;
      set_last_item item ;;;
      maybe_del_max_item item ;;;
      maybe_adjust_max item ;;;
      ret to_return
    else ret to_return.

Definition push (item : T) : M T unit :=
  found <- index_find item ;;
  if found is Some _ then throw EHeapQAlreadyPresent
  else
    n <- heap_size ;;
    cap <- get_size ;;
    if decide (N.of_nat n = cap) then
      pushpop item ;;; ret tt
    else
      index_insert item n ;;;
      push_back item ;;;
      try_catch (n' <- heap_size ;; siftdown 0 (n' - 1))
                (fun e => index_erase item ;;; pop_back ;;; throw e) ;;;
      set_last_item item ;;;
      n'' <- heap_size ;;
      if decide (n'' = 1) then set_max_item item
      else maybe_adjust_max item.

Definition pop : M T T :=
  throw_on_empty ;;;
  result <- data_get 0 ;;
  n <- heap_size ;;
  (if decide (1 < n) then
     b <- heap_back ;;
     data_set 0 b ;;;
     x <- data_get 0 ;;
     index_at_put x 0
   else ret tt) ;;;
  pop_back ;;;
  index_erase result ;;;
  siftup 0 ;;;
  maybe_del_last_item result ;;;
  maybe_del_max_item result ;;;
  ret result.

(** The [while] loop of set_size; every pop that returns shortens the
    vector, so [length (heap s)] iterations are enough. *)
Fixpoint set_size_loop (fuel : nat) : M T unit :=
  n <- heap_size ;;
  cap <- get_size ;;
  if decide (cap < N.of_nat n)%N then
    match fuel with
    | 0 => out_of_fuel
    | S fuel' => pop ;;; set_size_loop fuel'
    end
  else ret tt.

Definition set_size (sz : N) : M T unit :=
  (fun s => Ok tt (with_size sz s)) ;;;
  n <- heap_size ;;
  set_size_loop n.

Definition replace (item : T) : M T T :=
  throw_on_empty ;;;
  found <- index_find item ;;
  if found is Some _ then throw EHeapQAlreadyPresent
  else
    result <- data_get 0 ;;
    index_erase result ;;;
    data_set 0 item ;;;
    index_insert item 0 ;;;
    siftup 0 ;;;
    set_last_item result ;;;
    maybe_del_max_item result ;;;
    maybe_adjust_max result ;;;
    ret result.

(** In the non-tail branch [size() - 1] wraps to 2^64 - 1 on an empty
    vector, an access outside the vector like any other. *)
Definition remove (item : T) : M T unit :=
  n <- heap_size ;;
  idx_value <- index_find item ;;
  match idx_value with
  | None => throw EHeapQNotFound
  | Some idx =>
    is_tail <- (if decide (0 < n)
                then x <- data_get (n - 1) ;; ret (bool_decide (item = x))
                else ret false) ;;
    (if (is_tail : bool) then
       pop_back ;;;
       index_erase item
     else
       n1 <- heap_size ;;
       x <- (if decide (n1 = 0) then undefined else data_get (n1 - 1)) ;;
       data_set idx x ;;;
       pop_back ;;;
       index_erase item ;;;
       n2 <- heap_size ;;
       if decide (idx < n2) then
         siftup idx ;;;
         siftdown 0 idx
       else ret tt) ;;;
    maybe_del_max_item item ;;;
    maybe_del_last_item item
  end.
End Methods.

(** ** The properties the specification speaks about *)

Section Properties.
Context {T : Type} `{Countable T}.

(** The comparator as a total predicate [less], for the statements that
    assume a comparator that never fails. *)
Definition failure_free (comp : T → T → option bool) (less : T → T → bool) : Prop :=
  ∀ a b, comp a b = Some (less a b).

(** Strict weak order: irreflexive, transitive, and incomparability is
    transitive. *)
Record StrictWeakOrder (less : T → T → bool) : Prop := {
  swo_irrefl : ∀ a, less a a = false;
  swo_trans : ∀ a b c, less a b = true → less b c = true → less a c = true;
  swo_incomp : ∀ a b c,
    less a b = false → less b a = false →
    less b c = false → less c b = false →
    less a c = false ∧ less c a = false
}.

(** Parent of position [i] in the implicit tree: ⌊(i − 1) / 2⌋. *)
Definition parent (i : nat) : nat := (i - 1) / 2.

(** Invariant 1: no child precedes its parent. *)
Definition heap_ordered (less : T → T → bool) (l : list T) : Prop :=
  ∀ i x p, 0 < i → l !! i = Some x → l !! parent i = Some p → less x p = false.

(** Invariant 2: the index records the position of every stored element
    and has as many entries as the vector has elements. *)
Definition index_consistent (m : gmap T nat) (l : list T) : Prop :=
  (∀ i x, l !! i = Some x → m !! x = Some i) ∧ base.size m = length l.

Definition is_minimum (less : T → T → bool) (l : list T) (x : T) : Prop :=
  x ∈ l ∧ ∀ y, y ∈ l → less y x = false.
Definition is_maximum (less : T → T → bool) (l : list T) (x : T) : Prop :=
  x ∈ l ∧ ∀ y, y ∈ l → less x y = false.

(** A full linear scan for the maximum, kept in the way get_max keeps it. *)
Definition linear_scan_max (less : T → T → bool) (l : list T) : option T :=
  match l with
  | [] => None
  | x :: l' => Some (foldl (fun m y => if less m y then y else m) x l')
  end.

(** The object the constructor leaves: [last_item] and [max_item] are
    default-initialised, [l0] and [m0] stand for whatever they hold. *)
Definition EHeapQ_new (sz : N) (l0 m0 : T) : EHeapQ T :=
  mkEHeapQ [] sz l0 false m0 false ∅.

(** Calls of the public methods that change the object. *)
Inductive op : Type :=
  | OpPush (item : T)
  | OpPushpop (item : T)
  | OpPop
  | OpReplace (item : T)
  | OpRemove (item : T)
  | OpSetSize (sz : N)
  | OpGetMax.

Definition run_op (comp : T → T → option bool) (o : op) : M T unit :=
  match o with
  | OpPush item => push comp item
  | OpPushpop item => pushpop comp item ;;; ret tt
  | OpPop => pop comp ;;; ret tt
  | OpReplace item => replace comp item ;;; ret tt
  | OpRemove item => remove comp item
  | OpSetSize sz => set_size comp sz
  | OpGetMax => get_max comp ;;; ret tt
  end.

Fixpoint run_ops (comp : T → T → option bool) (os : list op) : M T unit :=
  match os with
  | [] => ret tt
  | o :: os' => run_op comp o ;;; run_ops comp os'
  end.

(** States built from a new object by calls that return. *)
Inductive reachable (comp : T → T → option bool) : EHeapQ T → Prop :=
  | reachable_new sz l0 m0 : reachable comp (EHeapQ_new sz l0 m0)
  | reachable_step s o s' :
      reachable comp s → run_op comp o s = Ok tt s' → reachable comp s'.
End Properties.

(** ** Instances used in the examples: [EHeapQ<int>] with [std::less<int>],
    and a comparator that fails on one pair of operands. *)

Definition int_less (a b : Z) : option bool := Some (a <? b)%Z.

Definition fragile_less (a b : Z) : option bool :=
  if bool_decide (a = 0%Z ∧ b = 1%Z) then None else Some (a <? b)%Z.

Definition after (comp : Z → Z → option bool) (sz : N) (os : list (op (T:=Z))) : result Z unit :=
  run_ops comp os (EHeapQ_new sz 0%Z 0%Z).

(** ** Loop invariants of the two sift passes *)

Section Invariants.
Context {T : Type}.
Variable less : T → T → bool.

(** Position [i] is in the subtree rooted at [k]. *)
Inductive desc (k : nat) : nat → Prop :=
  | desc_refl : desc k k
  | desc_child i : 0 < i → desc k (parent i) → desc k i.

(** The element at [i] does not precede the one at its parent. *)
Definition ord (l : list T) (i : nat) : Prop :=
  ∀ x p, l !! i = Some x → l !! parent i = Some p → less x p = false.

(** The element at [c] does not precede the one at its grandparent. *)
Definition gord (l : list T) (c : nat) : Prop :=
  ∀ x g, l !! c = Some x → l !! parent (parent c) = Some g → less x g = false.

(** [l'] is [l] with the elements at [a] and [b] exchanged. *)
Definition exchanged (l l' : list T) (a b : nat) : Prop :=
  length l' = length l ∧ l' !! a = l !! b ∧ l' !! b = l !! a ∧
  ∀ i, i ≠ a → i ≠ b → l' !! i = l !! i.

(** While an item travels towards the root inside the subtree of [k]
    (siftdown): the only pairs that may be out of order are the one at
    [pos] and the one at [k]; the children of [pos] respect the parent
    of [pos]. *)
Definition up_inv (l : list T) (k pos : nat) : Prop :=
  (∀ i, 0 < i → i ≠ k → i ≠ pos → ord l i) ∧
  (pos ≠ k → ∀ c, 0 < c → parent c = pos → gord l c).

(** While an item travels towards the leaves from [k] (first loop of
    siftup): the pairs around [pos] and the pair at [k] may be out of
    order. *)
Definition down_inv (l : list T) (k pos : nat) : Prop :=
  (∀ i, 0 < i → i ≠ k → i ≠ pos → parent i ≠ pos → ord l i) ∧
  (pos ≠ k → ∀ c, 0 < c → parent c = pos → gord l c).

(** Everything in the subtree of [k], the travelling item at [pos]
    apart, respects the parent of [k]. *)
Definition below_ok (l : list T) (k pos : nat) : Prop :=
  ∀ g d y, 0 < k → l !! parent k = Some g → desc k d → d ≠ pos →
           l !! d = Some y → less y g = false.
End Invariants.

(** The effect on the object of one exchange inside a sift loop: [x] is
    written at position [a] and [p] at position [b], then the index
    records of [x] and [p] are set, in the order of the source. *)
Definition exchange_state {T : Type} `{Countable T}
    (a b : nat) (x p : T) (s : EHeapQ T) : EHeapQ T :=
  with_index_map (<[p:=b]>)
    (with_index_map (<[x:=a]>)
      (with_heap (<[b:=p]>) (with_heap (<[a:=x]>) s))).

(** [sifted s s']: [s'] is reached from [s] by exchanges of two stored
    elements, each recorded in the index. *)
Inductive sifted {T : Type} `{Countable T} : EHeapQ T → EHeapQ T → Prop :=
  | sifted_refl s : sifted s s
  | sifted_step s a b x p s' :
      heap s !! b = Some x → heap s !! a = Some p → a ≠ b →
      sifted (exchange_state a b x p s) s' → sifted s s'.

(** The fields no sift pass touches. *)
Definition same_caches {T : Type} `{Countable T} (s s' : EHeapQ T) : Prop :=
  size s' = size s ∧
  last_item s' = last_item s ∧ last_item_set s' = last_item_set s ∧
  max_item s' = max_item s ∧ max_item_set s' = max_item_set s.

(** The child the first loop of siftup exchanges with: the left one, or
    the right one when it exists and the left does not precede it. *)
Definition chosen_child {T : Type} (comp : T → T → option bool)
    (l : list T) (endpos pos cp : nat) : Prop :=
  if decide (2 * pos + 1 + 1 < endpos) then
    ∃ a b cmp, l !! (2 * pos + 1) = Some a ∧ l !! (2 * pos + 1 + 1) = Some b ∧
               comp a b = Some cmp ∧
               cp = 2 * pos + 1 + (if (cmp : bool) then 0 else 1)
  else cp = 2 * pos + 1.

(** The fields the cache helpers leave alone. *)
Definition same_store {T : Type} `{Countable T} (s s' : EHeapQ T) : Prop :=
  heap s' = heap s ∧ index_map s' = index_map s ∧ size s' = size s.

(** The object just before pop calls siftup(0): [b], the tail element of
    the vector, has replaced the root [r]. *)
Definition pop_presift {T : Type} `{Countable T} (r b : T) (s : EHeapQ T) : EHeapQ T :=
  with_index_map
    (fun m => delete r (if decide (1 < length (heap s)) then <[b:=0]> m else m))
    (with_heap (fun l => removelast (<[0:=b]> l)) s).

(** A heap of capacity 3 holding 3, 5, 8. *)
Definition sample : EHeapQ Z :=
  mkEHeapQ [3; 5; 8]%Z 3 8%Z true 8%Z true
           (<[8%Z:=2]> (<[5%Z:=1]> (<[3%Z:=0]> ∅))).

(** A heap of odd length whose maximum is the left leaf; no cached maximum. *)
Definition odd_heap : EHeapQ Z :=
  mkEHeapQ [1; 3; 2]%Z EHEAPQ_DEFAULT_SIZE 2%Z true 0%Z false
           (<[2%Z:=2]> (<[3%Z:=1]> (<[1%Z:=0]> ∅))).

Definition demo_ops : list (op (T:=Z)) :=
  [OpPush 5; OpPush 3; OpPush 8; OpPush 1; OpPush 10; OpRemove 8;
   OpPushpop 9; OpReplace 4; OpPop; OpSetSize 1]%Z.

(** Every stored element has a record in the index (its position may be
    out of date). *)
Definition index_covers {T : Type} `{Countable T}
    (m : gmap T nat) (l : list T) : Prop :=
  ∀ i x, l !! i = Some x → is_Some (m !! x).



(** A state whose root is out of place: what pushpop(9) leaves on
    [sample] just before it calls siftup(0). *)
Definition unsifted : EHeapQ Z :=
  mkEHeapQ [9; 5; 8]%Z 3 8%Z true 8%Z true
           (<[8%Z:=2]> (<[5%Z:=1]> (<[9%Z:=0]> ∅))).

(** ** The program of [src/fext/main.cpp] *)

Section MainLoops.
Context {T : Type} `{Countable T}.
Variable comp : T → T → option bool.

(** for (auto i : l) a.push(i); *)
Fixpoint push_all (l : list T) : M T unit :=
  match l with
  | [] => ret tt
  | i :: l' => push comp i ;;; push_all l'
  end.

(** while (a.get_size() != 0) std::cout << a.pop() << std::endl;
    [out] collects what has been written; it survives an exception. *)
Fixpoint drain (fuel : nat) (out : list T) (s : EHeapQ T)
    : list T * result T unit :=
  match get_size s with
  | Ok cap s0 =>
    if decide (cap ≠ 0%N) then
      match fuel with
      | 0 => (out, OutOfFuel)
      | S fuel' =>
        match pop comp s0 with
        | Ok x s1 => drain fuel' (out ++ [x]) s1
        | Throw e s1 => (out, Throw e s1)
        | Undefined => (out, Undefined)
        | Terminate => (out, Terminate)
        | OutOfFuel => (out, OutOfFuel)
        end
      end
    else (out, Ok tt s0)
  | Throw e s0 => (out, Throw e s0)
  | Undefined => (out, Undefined)
  | Terminate => (out, Terminate)
  | OutOfFuel => (out, OutOfFuel)
  end.
End MainLoops.

(** What main writes to std::cout, one entry per [operator<<]. *)
Inductive out_item : Type :=
  | OutDefaultSizeLabel        (* "default size: " *)
  | OutHelloLabel              (* "Hello, world!\n" *)
  | OutULong (n : N)
  | OutInt (z : Z)
  | OutEndl.

(** The initializer list of main. *)
Definition main_items : list Z := [35222; 33108; -24189; 50489; -64703]%Z.

(** main with the initializer list [items]; [l0] and [m0] stand for the
    uninitialised [last_item] and [max_item] of the new object. *)
Definition main_with (l0 m0 : Z) (fuel : nat) (items : list Z)
    : list out_item * result Z unit :=
  let a := EHeapQ_new 10 l0 m0 in
  let out := [OutDefaultSizeLabel; OutULong EHEAPQ_DEFAULT_SIZE; OutEndl] in
  match get_size a with
  | Ok n a =>
    let out := out ++ [OutHelloLabel; OutULong n; OutEndl] in
    match push_all int_less items a with
    | Ok _ a =>
      let '(popped, r) := drain int_less fuel [] a in
      (out ++ flat_map (fun x => [OutInt x; OutEndl]) popped, r)
    | Throw e a => (out, Throw e a)
    | Undefined => (out, Undefined)
    | Terminate => (out, Terminate)
    | OutOfFuel => (out, OutOfFuel)
    end
  | Throw e a => (out, Throw e a)
  | Undefined => (out, Undefined)
  | Terminate => (out, Terminate)
  | OutOfFuel => (out, OutOfFuel)
  end.

Definition main (l0 m0 : Z) (fuel : nat) : list out_item * result Z unit :=
  main_with l0 m0 fuel main_items.

#[local] Arguments Nat.div : simpl never.
#[local] Arguments Nat.mul : simpl never.
#[local] Arguments Nat.add : simpl never.
#[local] Arguments Nat.sub : simpl never.

(** * Order and tree arithmetic *)

Section OrderFacts.
Context {T : Type} `{Countable T}.
Variable less : T → T → bool.
Hypothesis swo : StrictWeakOrder less.

Lemma swo_asym a b : less a b = true → less b a = false.
Proof.
  intros Hab. destruct (less b a) eqn:Hba; [|done].
  pose proof (swo_trans _ swo _ _ _ Hab Hba) as Haa.
  by rewrite (swo_irrefl _ swo) in Haa.
Qed.

(** a ≤ b and b ≤ c give a ≤ c, where x ≤ y reads [less y x = false]. *)
Lemma swo_le_trans a b c :
  less b a = false → less c b = false → less c a = false.
Proof.
  intros Hba Hcb. destruct (less c a) eqn:Hca; [|done].
  destruct (less b c) eqn:Hbc.
  - by rewrite (swo_trans _ swo _ _ _ Hbc Hca) in Hba.
  - destruct (less a b) eqn:Hab.
    + by rewrite (swo_trans _ swo _ _ _ Hca Hab) in Hcb.
    + destruct (swo_incomp _ swo a b c Hab Hba Hbc Hcb) as [_ Hn]. congruence.
Qed.

Lemma swo_lt_le a b c :
  less a b = true → less c b = false → less c a = false.
Proof.
  intros Hab Hcb. destruct (less c a) eqn:Hca; [|done].
  by rewrite (swo_trans _ swo _ _ _ Hca Hab) in Hcb.
Qed.
End OrderFacts.

Lemma parent_lt i : 0 < i → parent i < i.
Proof. unfold parent. lia. Qed.

Lemma parent_le i : parent i ≤ i.
Proof. unfold parent. lia. Qed.

Lemma parent_left i : parent (2 * i + 1) = i.
Proof. unfold parent. lia. Qed.

Lemma parent_right i : parent (2 * i + 1 + 1) = i.
Proof. unfold parent. lia. Qed.

Lemma parent_inv c i : 0 < c → parent c = i → c = 2 * i + 1 ∨ c = 2 * i + 1 + 1.
Proof. unfold parent. lia. Qed.

Lemma desc_le k i : desc k i → k ≤ i.
Proof. induction 1 as [|i Hi _ IH]; [lia|]. pose proof (parent_le i). lia. Qed.

Lemma desc_parent k i : desc k i → k < i → desc k (parent i).
Proof. destruct 1; [lia | done]. Qed.

Lemma desc_left k i : desc k i → desc k (2 * i + 1).
Proof. intros. apply desc_child; [lia|]. by rewrite parent_left. Qed.

Lemma desc_right k i : desc k i → desc k (2 * i + 1 + 1).
Proof. intros. apply desc_child; [lia|]. by rewrite parent_right. Qed.

Lemma desc_root i : desc 0 i.
Proof.
  induction (lt_wf i) as [i _ IH]. destruct (decide (i = 0)) as [->|].
  - constructor.
  - apply desc_child; [lia|]. apply IH, parent_lt. lia.
Qed.

Lemma desc_child_of k c : 0 < c → desc k (parent c) → k < c.
Proof. intros Hc Hd%desc_le. unfold parent in Hd. lia. Qed.

Section Exchange.
Context {T : Type}.
Implicit Types l : list T.

Lemma exchanged_inserts l a b x p :
  l !! a = Some p → l !! b = Some x → a ≠ b →
  exchanged l (<[b:=p]> (<[a:=x]> l)) a b.
Proof.
  intros Ha Hb Hne.
  pose proof (lookup_lt_Some _ _ _ Ha). pose proof (lookup_lt_Some _ _ _ Hb).
  repeat split.
  - by rewrite !length_insert.
  - rewrite list_lookup_insert_ne by done.
    rewrite list_lookup_insert_eq by done. done.
  - rewrite list_lookup_insert_eq by (by rewrite length_insert). done.
  - intros i Hia Hib. by rewrite !list_lookup_insert_ne.
Qed.

Lemma exchanged_sym l l' a b : exchanged l l' a b → exchanged l l' b a.
Proof. intros (?&?&?&Ho). repeat split; auto. Qed.

Lemma exchanged_elem_of l l' a b y :
  exchanged l l' a b → y ∈ l' ↔ y ∈ l.
Proof.
  intros (Hlen & Ha & Hb & Ho). rewrite !list_elem_of_lookup.
  split; intros [i Hi].
  - destruct (decide (i = a)) as [->|]; [exists b; congruence|].
    destruct (decide (i = b)) as [->|]; [exists a; congruence|].
    exists i. by rewrite <-Ho.
  - destruct (decide (i = a)) as [->|]; [exists b; congruence|].
    destruct (decide (i = b)) as [->|]; [exists a; congruence|].
    exists i. by rewrite Ho.
Qed.
End Exchange.

Section InvariantSteps.
Context {T : Type} `{Countable T}.
Variable less : T → T → bool.
Hypothesis swo : StrictWeakOrder less.
Implicit Types l : list T.

(** One exchange of siftdown keeps its invariant, one level up. *)
Lemma up_inv_step l l' k pos x p :
  up_inv less l k pos → desc k pos → k < pos →
  l !! pos = Some x → l !! parent pos = Some p → less x p = true →
  exchanged l l' pos (parent pos) →
  up_inv less l' k (parent pos).
Proof.
  intros [Hord Hg] Hd Hk Hx Hp Hlt (Hlen & Hpos & Hpp & Ho).
  pose proof (parent_lt pos ltac:(lia)) as Hpplt.
  rewrite Hp in Hpos. rewrite Hx in Hpp.
  split.
  - intros i Hi Hik Hipp xi pi Hxi Hpi.
    destruct (decide (i = pos)) as [->|Hipos].
    { rewrite Hpos in Hxi. rewrite Hpp in Hpi. simplify_eq.
      by apply (swo_asym less swo). }
    rewrite Ho in Hxi by done.
    destruct (decide (parent i = pos)) as [Hpi_pos|Hpi_pos].
    { rewrite Hpi_pos, Hpos in Hpi. assert (pi = p) as -> by congruence.
      apply (Hg ltac:(lia) i Hi Hpi_pos); [done|]. by rewrite Hpi_pos. }
    destruct (decide (parent i = parent pos)) as [Hpi_pp|Hpi_pp].
    { rewrite Hpi_pp, Hpp in Hpi. assert (pi = x) as -> by congruence.
      apply (swo_lt_le less swo _ p); [done|].
      apply (Hord i Hi Hik Hipos); [done|]. by rewrite Hpi_pp. }
    rewrite Ho in Hpi by done. by apply (Hord i Hi Hik Hipos).
  - intros Hppk c Hc Hcpp x' g Hx' Hgp. rewrite Hcpp in Hgp.
    pose proof (desc_le _ _ (desc_parent _ _ Hd Hk)) as Hkpp.
    assert (0 < parent pos) as Hpp0 by lia.
    pose proof (parent_lt _ Hpp0) as Hgplt.
    rewrite Ho in Hgp by lia.
    assert (less p g = false) as Hpg.
    { apply (Hord (parent pos)); auto; lia. }
    destruct (decide (c = pos)) as [->|Hcpos].
    { rewrite Hpos in Hx'. by simplify_eq. }
    assert (parent pos < c) as Hcgt by (unfold parent in *; lia).
    rewrite Ho in Hx' by lia.
    apply (swo_le_trans less swo _ p); [done|].
    apply (Hord c Hc ltac:(lia) Hcpos); [done|]. by rewrite Hcpp.
Qed.

Lemma below_ok_exchange l l' k pos a :
  below_ok less l k pos → exchanged l l' pos a →
  desc k pos → desc k a →
  below_ok less l' k a.
Proof.
  intros Hb (Hlen & Hpos & Ha & Ho) Hdp Hda g d y Hk Hg Hd Hda' Hy.
  apply desc_le in Hdp as Hkp. apply desc_le in Hda as Hka.
  pose proof (parent_lt k Hk).
  rewrite Ho in Hg by lia.
  destruct (decide (d = pos)) as [->|Hdpos].
  - rewrite Hpos in Hy.
    destruct (decide (a = pos)) as [->|]; [done|].
    by apply (Hb g a y).
  - rewrite Ho in Hy by done. by apply (Hb g d y).
Qed.

(** When siftdown stops, the children of [k] respect the parent of [k]. *)
Lemma below_ok_children l k pos :
  below_ok less l k pos → desc k pos → (pos = k ∨ ord less l pos) →
  0 < k → ∀ c, 0 < c → parent c = k → gord less l c.
Proof.
  intros Hb Hd Hstop Hk c Hc Hck x g Hx Hg. rewrite Hck in Hg.
  assert (desc k c) as Hdc.
  { apply desc_child; [done|]. rewrite Hck. constructor. }
  destruct (decide (c = pos)) as [->|Hcpos]; [|by apply (Hb g c x)].
  destruct Hstop as [->|Hord]; [unfold parent in Hck; lia|].
  assert (k < length l) as Hklen.
  { apply lookup_lt_Some in Hx. unfold parent in Hck. lia. }
  destruct (lookup_lt_is_Some_2 l k Hklen) as [v Hv].
  apply (swo_le_trans less swo _ v).
  - apply (Hb g k v); auto; [constructor | unfold parent in Hck; lia].
  - apply Hord; [done|]. by rewrite Hck.
Qed.

(** One exchange of the first loop of siftup keeps its invariant, one
    level down: [c], at the child position [cp], precedes no sibling. *)
Lemma down_inv_step l l' k pos cp c :
  down_inv less l k pos → desc k pos →
  0 < cp → parent cp = pos → l !! cp = Some c →
  (∀ sib y, 0 < sib → parent sib = pos → l !! sib = Some y → less y c = false) →
  exchanged l l' pos cp →
  down_inv less l' k cp.
Proof.
  intros [Hord Hg] Hd Hcp Hpar Hc Hsib (Hlen & Hpos & Hcp' & Ho).
  apply desc_le in Hd as Hkp.
  assert (pos < cp) as Hlt by (unfold parent in Hpar; lia).
  rewrite Hc in Hpos.
  split.
  - intros i Hi Hik Hicp Hpicp xi pi Hxi Hpi.
    destruct (decide (i = pos)) as [->|Hipos].
    { rewrite Hpos in Hxi. assert (xi = c) as -> by congruence.
      pose proof (parent_lt pos Hi).
      rewrite Ho in Hpi by lia.
      apply (Hg Hik cp Hcp Hpar); [done|]. by rewrite Hpar. }
    rewrite Ho in Hxi by done.
    destruct (decide (parent i = pos)) as [Hpipos|Hpipos].
    { rewrite Hpipos, Hpos in Hpi. assert (pi = c) as -> by congruence.
      by apply (Hsib i). }
    rewrite Ho in Hpi by done. by apply (Hord i).
  - intros _ d Hd0 Hdcp x g Hx Hgp. rewrite Hdcp, Hpar, Hpos in Hgp.
    assert (g = c) as -> by congruence.
    assert (cp < d) by (unfold parent in Hdcp; lia).
    rewrite Ho in Hx by lia.
    apply (Hord d); auto; try lia. by rewrite Hdcp.
Qed.

(** At a position without children the two invariants coincide. *)
Lemma down_inv_leaf l k pos :
  down_inv less l k pos → length l ≤ 2 * pos + 1 → up_inv less l k pos.
Proof.
  intros [Hord Hg] Hleaf. split; [|done].
  intros i Hi Hik Hipos. destruct (decide (parent i = pos)) as [Hp|Hp].
  - intros x p Hx _. apply lookup_lt_Some in Hx. unfold parent in Hp. lia.
  - by apply Hord.
Qed.

Lemma up_inv_done l k pos :
  up_inv less l k pos → pos = k ∨ ord less l pos →
  ∀ i, 0 < i → i ≠ k → ord less l i.
Proof.
  intros [Hord _] Hstop i Hi Hik.
  destruct (decide (i = pos)) as [->|]; [|by apply Hord].
  by destruct Hstop.
Qed.

Lemma heap_ordered_ord l : heap_ordered less l ↔ ∀ i, 0 < i → ord less l i.
Proof. unfold heap_ordered, ord. naive_solver. Qed.

(** In an ordered heap nothing in a subtree precedes the subtree's root. *)
Lemma heap_ordered_desc l k d x y :
  (∀ i, 0 < i → i ≠ k → ord less l i) →
  desc k d → l !! k = Some x → l !! d = Some y → less y x = false.
Proof.
  intros Hord Hd Hx. revert y. induction Hd as [|d Hd0 Hd IH]; intros y Hy.
  - simplify_eq. apply (swo_irrefl _ swo).
  - destruct (decide (d = k)) as [->|Hdk].
    { simplify_eq. apply (swo_irrefl _ swo). }
    pose proof (parent_lt d Hd0).
    destruct (lookup_lt_is_Some_2 l (parent d)) as [p Hp].
    { apply lookup_lt_Some in Hy. lia. }
    apply (swo_le_trans less swo _ p); [by apply IH|].
    by apply (Hord d).
Qed.
End InvariantSteps.

(** * Stepping through the monad *)

Section Monad.
Context {T : Type} `{Countable T}.
Implicit Types s : EHeapQ T.

Lemma bind_Ok {A B} (m : M T A) (k : A → M T B) s b s' :
  bind m k s = Ok b s' → ∃ a s1, m s = Ok a s1 ∧ k a s1 = Ok b s'.
Proof. unfold bind. destruct (m s); naive_solver. Qed.

Lemma bind_step {A B} (m : M T A) (k : A → M T B) s a s1 :
  m s = Ok a s1 → bind m k s = k a s1.
Proof. unfold bind. by intros ->. Qed.

Lemma ret_Ok {A} (a b : A) s s' : ret a s = Ok b s' → b = a ∧ s' = s.
Proof. unfold ret. naive_solver. Qed.

Lemma heap_size_Ok s n s' :
  heap_size s = Ok n s' → n = length (heap s) ∧ s' = s.
Proof. unfold heap_size. naive_solver. Qed.

Lemma get_size_Ok s n s' : get_size s = Ok n s' → n = size s ∧ s' = s.
Proof. unfold get_size. naive_solver. Qed.

Lemma data_get_Ok i s x s' :
  data_get i s = Ok x s' → heap s !! i = Some x ∧ s' = s.
Proof. unfold data_get. destruct (heap s !! i); naive_solver. Qed.

Lemma data_get_step i s x : heap s !! i = Some x → data_get i s = Ok x s.
Proof. unfold data_get. by intros ->. Qed.

Lemma heap_at_Ok i s x s' :
  heap_at i s = Ok x s' → heap s !! i = Some x ∧ s' = s.
Proof. unfold heap_at. destruct (heap s !! i); naive_solver. Qed.

Lemma heap_back_Ok s x s' :
  heap_back s = Ok x s' → last (heap s) = Some x ∧ s' = s.
Proof. unfold heap_back. destruct (last (heap s)); naive_solver. Qed.

Lemma data_set_Ok i x s u s' :
  data_set i x s = Ok u s' →
  i < length (heap s) ∧ s' = with_heap (<[i:=x]>) s.
Proof. unfold data_set. case_decide; naive_solver. Qed.

Lemma data_set_step i x s :
  i < length (heap s) → data_set i x s = Ok tt (with_heap (<[i:=x]>) s).
Proof. unfold data_set. intros. by rewrite decide_True. Qed.

Lemma pop_back_Ok s u s' :
  pop_back s = Ok u s' →
  heap s ≠ [] ∧ s' = with_heap (fun l => removelast l) s.
Proof. unfold pop_back. destruct (heap s); naive_solver. Qed.

Lemma pop_back_step s :
  heap s ≠ [] → pop_back s = Ok tt (with_heap (fun l => removelast l) s).
Proof. unfold pop_back. by destruct (heap s). Qed.

Lemma index_at_put_Ok x i s u s' :
  index_at_put x i s = Ok u s' →
  is_Some (index_map s !! x) ∧ s' = with_index_map (<[x:=i]>) s.
Proof. unfold index_at_put. destruct (index_map s !! x); naive_solver. Qed.

Lemma index_at_put_step x i s :
  is_Some (index_map s !! x) →
  index_at_put x i s = Ok tt (with_index_map (<[x:=i]>) s).
Proof. unfold index_at_put. by intros [? ->]. Qed.

Variable comp : T → T → option bool.

Lemma compare_Ok a b s r s' :
  compare comp a b s = Ok r s' → comp a b = Some r ∧ s' = s.
Proof. unfold compare. destruct (comp a b); naive_solver. Qed.

Lemma compare_step a b r s : comp a b = Some r → compare comp a b s = Ok r s.
Proof. unfold compare. by intros ->. Qed.
End Monad.

(** Split a run of [x <- m ;; k] that returned into the run of [m] and
    the run of [k]. *)
Ltac inv_bind H :=
  let a := fresh "a" in
  let s := fresh "s" in
  let Hm := fresh "Hm" in
  apply bind_Ok in H as (a & s & Hm & H).

Tactic Notation "inv_bind" hyp(H) "as" simple_intropattern(a)
    simple_intropattern(s) ident(Hm) :=
  apply bind_Ok in H as (a & s & Hm & H).

(** Invert the run of one primitive access. *)
Ltac inv_prim H :=
  lazymatch type of H with
  | heap_size _ = Ok _ _ => apply heap_size_Ok in H as [-> ->]
  | get_size _ = Ok _ _ => apply get_size_Ok in H as [-> ->]
  | data_get _ _ = Ok _ _ => apply data_get_Ok in H as [H ->]
  | heap_at _ _ = Ok _ _ => apply heap_at_Ok in H as [H ->]
  | heap_back _ = Ok _ _ => apply heap_back_Ok in H as [H ->]
  | data_set _ _ _ = Ok _ _ => apply data_set_Ok in H as [H ->]
  | pop_back _ = Ok _ _ => apply pop_back_Ok in H as [H ->]
  | index_at_put _ _ _ = Ok _ _ => apply index_at_put_Ok in H as [H ->]
  | compare _ _ _ _ = Ok _ _ => apply compare_Ok in H as [H ->]
  | ret _ _ = Ok _ _ => apply ret_Ok in H as [H ->]
  end.

Ltac mstep H :=
  let a := fresh "a" in
  let s := fresh "s" in
  let Hm := fresh "Hm" in
  apply bind_Ok in H as (a & s & Hm & H); inv_prim Hm.

Section Loops.
Context {T : Type} `{Countable T}.
Variable comp : T → T → option bool.
Implicit Types s : EHeapQ T.

Lemma siftdown_loop_Ok fuel k pos x s s' :
  siftdown_loop comp (S fuel) k pos x s = Ok tt s' → k < pos →
  ∃ p, heap s !! parent pos = Some p ∧
    ((comp x p = Some false ∧ s' = s) ∨
     (comp x p = Some true ∧
      ∃ x', heap s !! pos = Some x' ∧
        siftdown_loop comp fuel k (parent pos) x'
          (exchange_state (parent pos) pos x' p s) = Ok tt s')).
Proof.
  intros Hrun Hk. simpl in Hrun. case_decide; [|lia].
  fold (parent pos) in Hrun.
  inv_bind Hrun as p s1 Hp. inv_prim Hp.
  inv_bind Hrun as c s1 Hc. inv_prim Hc.
  exists p. split; [done|]. destruct c; simpl in Hrun.
  - right. split; [done|]. do 6 mstep Hrun.
    assert (a = p) as -> by congruence. eauto.
  - left. by inv_prim Hrun.
Qed.

Lemma siftdown_loop_exit fuel k pos x s :
  pos ≤ k → siftdown_loop comp fuel k pos x s = Ok tt s.
Proof. intros. destruct fuel; simpl; case_decide; done || lia. Qed.

Lemma siftdown_loop_step fuel k pos x p b ix ip s :
  k < pos → heap s !! pos = Some x → heap s !! parent pos = Some p →
  comp x p = Some b →
  index_map s !! x = Some ix → index_map s !! p = Some ip →
  siftdown_loop comp (S fuel) k pos x s =
    if b then siftdown_loop comp fuel k (parent pos) x
               (exchange_state (parent pos) pos x p s)
    else Ok tt s.
Proof.
  intros Hk Hx Hp Hc Hix Hip. simpl. case_decide; [|lia].
  pose proof (lookup_lt_Some _ _ _ Hx). pose proof (lookup_lt_Some _ _ _ Hp).
  unfold bind, data_get, compare, data_set, index_at_put.
  fold (parent pos). rewrite Hp, Hc. destruct b; [|done]. simpl.
  rewrite Hp, Hx. rewrite decide_True by done. simpl.
  rewrite decide_True by (by rewrite length_insert). simpl.
  rewrite Hix. simpl.
  destruct (decide (x = p)) as [->|].
  - rewrite lookup_insert_eq. done.
  - rewrite lookup_insert_ne by done. rewrite Hip. done.
Qed.
End Loops.

Section Sifted.
Context {T : Type} `{Countable T}.
Implicit Types s : EHeapQ T.

Lemma index_consistent_inj (m : gmap T nat) (l : list T) i j x :
  index_consistent m l → l !! i = Some x → l !! j = Some x → i = j.
Proof. intros [Hm _] Hi%Hm Hj%Hm. congruence. Qed.

Lemma index_consistent_exchange a b x p s :
  heap s !! b = Some x → heap s !! a = Some p → a ≠ b →
  index_consistent (index_map s) (heap s) →
  index_consistent (index_map (exchange_state a b x p s))
                   (heap (exchange_state a b x p s)).
Proof.
  intros Hb Ha Hne Hc. pose proof Hc as [Hm Hsz]. simpl.
  assert (x ≠ p) as Hxp.
  { intros ->. apply Hne. by eapply index_consistent_inj. }
  pose proof (exchanged_inserts _ _ _ _ _ Ha Hb Hne) as (Hlen & Ha' & Hb' & Ho).
  split.
  - intros i y Hy.
    destruct (decide (i = a)) as [->|Hia].
    { rewrite Ha', Hb in Hy. assert (y = x) as -> by congruence.
      rewrite lookup_insert_ne by done. by rewrite lookup_insert_eq. }
    destruct (decide (i = b)) as [->|Hib].
    { rewrite Hb', Ha in Hy. assert (y = p) as -> by congruence.
      by rewrite lookup_insert_eq. }
    rewrite Ho in Hy by done.
    assert (y ≠ x).
    { intros ->. apply Hib. by eapply index_consistent_inj. }
    assert (y ≠ p).
    { intros ->. apply Hia. by eapply index_consistent_inj. }
    rewrite !lookup_insert_ne by done. by apply Hm.
  - rewrite Hlen, <-Hsz.
    rewrite !map_size_insert_Some; [done| |].
    + rewrite (Hm _ _ Hb). eauto.
    + rewrite lookup_insert_ne by done. rewrite (Hm _ _ Ha). eauto.
Qed.

Lemma sifted_frame s s' :
  sifted s s' →
  length (heap s') = length (heap s) ∧
  (∀ y, y ∈ heap s' ↔ y ∈ heap s) ∧
  same_caches s s' ∧
  (index_consistent (index_map s) (heap s) →
   index_consistent (index_map s') (heap s')).
Proof.
  induction 1 as [s|s a b x p s' Hb Ha Hne _ (IHlen & IHel & IHc & IHi)].
  { unfold same_caches. naive_solver. }
  pose proof (exchanged_inserts _ _ _ _ _ Ha Hb Hne) as Hex.
  split; [|split; [|split]].
  - rewrite IHlen. simpl. by rewrite !length_insert.
  - intros y. rewrite IHel. simpl. by eapply exchanged_elem_of.
  - done.
  - intros Hc. by apply IHi, index_consistent_exchange.
Qed.

Lemma sifted_trans s1 s2 s3 : sifted s1 s2 → sifted s2 s3 → sifted s1 s3.
Proof.
  induction 1 as [|s a b x p s' Hb Ha Hne _ IH]; [done|].
  intros Hs. eapply sifted_step; [exact Hb|exact Ha|exact Hne|]. by apply IH.
Qed.
End Sifted.

Section SiftDown.
Context {T : Type} `{Countable T}.
Variable comp : T → T → option bool.
Implicit Types s : EHeapQ T.

Lemma siftdown_loop_sifted fuel k pos x s s' :
  siftdown_loop comp fuel k pos x s = Ok tt s' →
  heap s !! pos = Some x → sifted s s'.
Proof.
  revert pos s. induction fuel as [|fuel IH]; intros pos s Hrun Hx.
  { simpl in Hrun. case_decide; [done|]. unfold ret in Hrun.
    simplify_eq. constructor. }
  destruct (decide (k < pos)) as [Hk|Hk].
  2:{ rewrite siftdown_loop_exit in Hrun by lia. simplify_eq. constructor. }
  apply siftdown_loop_Ok in Hrun as (p & Hp & Hcase); [|done].
  destruct Hcase as [[_ ->]|(_ & x' & Hx' & Hrun)]; [apply sifted_refl|].
  assert (x' = x) as -> by congruence.
  pose proof (parent_lt pos ltac:(lia)).
  eapply (sifted_step s (parent pos) pos x p); [done|done|lia|].
  eapply IH; [done|]. simpl.
  rewrite list_lookup_insert_ne by lia.
  rewrite list_lookup_insert_eq; [done|]. by eapply lookup_lt_Some.
Qed.

Variable less : T → T → bool.
Hypothesis Hff : failure_free comp less.
Hypothesis swo : StrictWeakOrder less.

Lemma siftdown_loop_order fuel k pos x s s' :
  siftdown_loop comp fuel k pos x s = Ok tt s' →
  heap s !! pos = Some x → desc k pos →
  up_inv less (heap s) k pos → below_ok less (heap s) k pos →
  (∀ i, 0 < i → i ≠ k → ord less (heap s') i) ∧
  (0 < k → ∀ c, 0 < c → parent c = k → gord less (heap s') c).
Proof.
  revert pos s. induction fuel as [|fuel IH]; intros pos s Hrun Hx Hd Hup Hbel.
  { simpl in Hrun. case_decide; [done|]. unfold ret in Hrun. simplify_eq.
    apply desc_le in Hd as ?. assert (pos = k) as -> by lia.
    split; [by eapply up_inv_done; eauto|].
    intros. eapply below_ok_children; eauto. }
  destruct (decide (k < pos)) as [Hk|Hk].
  2:{ rewrite siftdown_loop_exit in Hrun by lia. simplify_eq.
      apply desc_le in Hd as ?. assert (pos = k) as -> by lia.
      split; [by eapply up_inv_done; eauto|].
      intros. eapply below_ok_children; eauto. }
  apply siftdown_loop_Ok in Hrun as (p & Hp & Hcase); [|done].
  destruct Hcase as [[Hc ->]|(Hc & x' & Hx' & Hrun)].
  - rewrite Hff in Hc.
    assert (ord less (heap s) pos) as Hord.
    { intros ?? ??. by simplify_eq. }
    split; [by eapply up_inv_done; eauto|].
    intros. eapply below_ok_children; eauto.
  - rewrite Hff in Hc. assert (x' = x) as -> by congruence.
    pose proof (parent_lt pos ltac:(lia)).
    assert (exchanged (heap s) (heap (exchange_state (parent pos) pos x p s))
              pos (parent pos)) as Hex.
    { apply exchanged_sym. simpl. apply exchanged_inserts; auto. lia. }
    eapply (IH (parent pos)); [done| | | |].
    + destruct Hex as (_ & _ & -> & _). done.
    + by apply desc_parent.
    + eapply up_inv_step; eauto. by simplify_eq.
    + eapply below_ok_exchange; eauto. by apply desc_parent.
Qed.

Lemma siftdown_loop_runs fuel k pos x s :
  index_consistent (index_map s) (heap s) →
  heap s !! pos = Some x → pos ≤ fuel →
  ∃ s', siftdown_loop comp fuel k pos x s = Ok tt s'.
Proof.
  revert pos s. induction fuel as [|fuel IH]; intros pos s Hc Hx Hfuel.
  { rewrite siftdown_loop_exit by lia. eauto. }
  destruct (decide (k < pos)) as [Hk|Hk].
  2:{ rewrite siftdown_loop_exit by lia. eauto. }
  pose proof (parent_lt pos ltac:(lia)).
  destruct (lookup_lt_is_Some_2 (heap s) (parent pos)) as [p Hp].
  { apply lookup_lt_Some in Hx. lia. }
  pose proof Hc as [Hm _].
  erewrite (siftdown_loop_step comp fuel k pos x p (less x p)); eauto.
  destruct (less x p); [|eauto].
  apply IH; [| |lia].
  - apply index_consistent_exchange; auto. lia.
  - simpl. rewrite list_lookup_insert_ne by lia.
    rewrite list_lookup_insert_eq; [done|]. by eapply lookup_lt_Some.
Qed.
End SiftDown.

Section SiftUp.
Context {T : Type} `{Countable T}.
Variable comp : T → T → option bool.
Implicit Types s : EHeapQ T.

Lemma siftdown_empty k pos s : heap s = [] → siftdown comp k pos s = Ok tt s.
Proof. intros Hl. unfold siftdown, bind, heap_size. by rewrite Hl. Qed.

Lemma siftdown_Ok k pos s s' :
  siftdown comp k pos s = Ok tt s' → heap s ≠ [] →
  ∃ x, heap s !! pos = Some x ∧ siftdown_loop comp pos k pos x s = Ok tt s'.
Proof.
  unfold siftdown, bind, heap_size, data_get. intros Hrun Hne.
  case_decide as Hlen; [by apply length_zero_iff_nil in Hlen|].
  destruct (heap s !! pos) as [x|]; [|done]. eauto.
Qed.

Lemma siftdown_step k pos x s :
  heap s !! pos = Some x →
  siftdown comp k pos s = siftdown_loop comp pos k pos x s.
Proof.
  intros Hx. unfold siftdown, bind, heap_size, data_get.
  apply lookup_lt_Some in Hx as ?.
  rewrite decide_False by lia. by rewrite Hx.
Qed.

Lemma siftup_loop_Ok fuel endpos limit pos s pos' s' :
  siftup_loop comp (S fuel) endpos limit pos s = Ok pos' s' → pos < limit →
  ∃ cp c x, chosen_child comp (heap s) endpos pos cp ∧
    heap s !! cp = Some c ∧ heap s !! pos = Some x ∧
    siftup_loop comp fuel endpos limit cp (exchange_state cp pos x c s)
      = Ok pos' s'.
Proof.
  intros Hrun Hk. simpl in Hrun. case_decide; [|lia].
  inv_bind Hrun as a0 s0 Hm. unfold chosen_child.
  assert (s0 = s ∧
          if decide (2 * pos + 1 + 1 < endpos) then
            ∃ a b cmp, heap s !! (2 * pos + 1) = Some a ∧
                       heap s !! (2 * pos + 1 + 1) = Some b ∧
                       comp a b = Some cmp ∧
                       a0 = 2 * pos + 1 + (if (cmp : bool) then 0 else 1)
          else a0 = 2 * pos + 1) as [-> Hch].
  { destruct (decide (2 * pos + 1 + 1 < endpos)).
    - do 3 mstep Hm. inv_prim Hm. split; [done|]. by eexists _, _, _.
    - inv_prim Hm. done. }
  do 6 mstep Hrun.
  eexists _, _, _. split; [done|]. eauto.
Qed.

Lemma siftup_loop_exit fuel endpos limit pos s :
  limit ≤ pos → siftup_loop comp fuel endpos limit pos s = Ok pos s.
Proof. intros. destruct fuel; simpl; case_decide; done || lia. Qed.

Lemma chosen_child_cases l endpos pos cp :
  chosen_child comp l endpos pos cp → cp = 2 * pos + 1 ∨ cp = 2 * pos + 1 + 1.
Proof.
  unfold chosen_child. case_decide; [|by left].
  intros (a & b & [] & _ & _ & _ & ->); [left|right]; lia.
Qed.

Lemma siftup_loop_sifted fuel endpos limit pos s pos' s' :
  siftup_loop comp fuel endpos limit pos s = Ok pos' s' →
  sifted s s' ∧ (pos < length (heap s) → pos' < length (heap s')).
Proof.
  revert pos s. induction fuel as [|fuel IH]; intros pos s Hrun.
  { simpl in Hrun. case_decide; [done|]. unfold ret in Hrun.
    simplify_eq. split; [apply sifted_refl|done]. }
  destruct (decide (pos < limit)) as [Hk|Hk].
  2:{ rewrite siftup_loop_exit in Hrun by lia. simplify_eq.
      split; [apply sifted_refl|done]. }
  apply siftup_loop_Ok in Hrun as (cp & c & x & Hch & Hc & Hx & Hrun); [|done].
  apply chosen_child_cases in Hch.
  apply IH in Hrun as [Hs Hlt]. split.
  - eapply (sifted_step s cp pos x c); [done|done|lia|done].
  - intros _. apply Hlt. simpl. rewrite !length_insert.
    by eapply lookup_lt_Some.
Qed.

Variable less : T → T → bool.
Hypothesis Hff : failure_free comp less.
Hypothesis swo : StrictWeakOrder less.

Lemma chosen_child_least l endpos pos cp c :
  chosen_child comp l endpos pos cp → endpos = length l → l !! cp = Some c →
  ∀ sib y, 0 < sib → parent sib = pos → l !! sib = Some y → less y c = false.
Proof.
  unfold chosen_child. intros Hch -> Hc sib y Hsib Hpar Hy.
  apply parent_inv in Hpar as Hcase; [|done].
  apply lookup_lt_Some in Hy as Hlt.
  case_decide as Hr.
  - destruct Hch as (a & b & cmp & Ha & Hb & Hcmp & ->).
    rewrite Hff in Hcmp.
    destruct cmp.
    + replace (2 * pos + 1 + 0) with (2 * pos + 1) in Hc by lia.
      assert (c = a) as -> by congruence.
      destruct Hcase as [->| ->].
      * assert (y = a) as -> by congruence. apply (swo_irrefl _ swo).
      * assert (y = b) as -> by congruence. apply (swo_asym less swo).
        congruence.
    + assert (c = b) as -> by congruence.
      destruct Hcase as [->| ->].
      * assert (y = a) as -> by congruence. congruence.
      * assert (y = b) as -> by congruence. apply (swo_irrefl _ swo).
  - subst cp. destruct Hcase as [->| ->]; [|lia].
    assert (y = c) as -> by congruence. apply (swo_irrefl _ swo).
Qed.

Lemma siftup_loop_order fuel k pos s pos' s' :
  siftup_loop comp fuel (length (heap s)) (length (heap s) / 2) pos s
    = Ok pos' s' →
  desc k pos → down_inv less (heap s) k pos → below_ok less (heap s) k pos →
  desc k pos' ∧ up_inv less (heap s') k pos' ∧ below_ok less (heap s') k pos'.
Proof.
  revert pos s. induction fuel as [|fuel IH]; intros pos s Hrun Hd Hdown Hbel.
  { simpl in Hrun. case_decide; [done|]. unfold ret in Hrun. simplify_eq.
    split; [done|]. split; [|done]. apply down_inv_leaf; [done|]. lia. }
  destruct (decide (pos < length (heap s) / 2)) as [Hk|Hk].
  2:{ rewrite siftup_loop_exit in Hrun by lia. simplify_eq.
      split; [done|]. split; [|done]. apply down_inv_leaf; [done|]. lia. }
  apply siftup_loop_Ok in Hrun as (cp & c & x & Hch & Hc & Hx & Hrun); [|done].
  pose proof (chosen_child_cases _ _ _ _ Hch) as Hcases.
  assert (parent cp = pos) as Hpar.
  { destruct Hcases as [->| ->]; [apply parent_left|apply parent_right]. }
  assert (desc k cp) as Hdcp.
  { destruct Hcases as [->| ->]; [by apply desc_left|by apply desc_right]. }
  assert (exchanged (heap s) (heap (exchange_state cp pos x c s)) pos cp) as Hex.
  { apply exchanged_sym. simpl. apply exchanged_inserts; auto. lia. }
  pose proof Hex as (Hlen & _).
  rewrite <-Hlen in Hrun.
  eapply IH in Hrun; [done|done| |].
  - eapply down_inv_step; eauto; [lia|].
    by eapply chosen_child_least.
  - by eapply below_ok_exchange.
Qed.

Lemma siftup_loop_runs fuel pos s :
  index_consistent (index_map s) (heap s) →
  length (heap s) / 2 ≤ pos + fuel →
  ∃ pos' s', siftup_loop comp fuel (length (heap s)) (length (heap s) / 2) pos s
               = Ok pos' s'.
Proof.
  revert pos s. induction fuel as [|fuel IH]; intros pos s Hc Hfuel.
  { rewrite siftup_loop_exit by lia. eauto. }
  destruct (decide (pos < length (heap s) / 2)) as [Hk|Hk].
  2:{ rewrite siftup_loop_exit by lia. eauto. }
  pose proof Hc as [Hm _].
  destruct (lookup_lt_is_Some_2 (heap s) pos) as [x Hx]; [lia|].
  destruct (lookup_lt_is_Some_2 (heap s) (2 * pos + 1)) as [a Ha]; [lia|].
  assert (∃ cp c, (cp = 2 * pos + 1 ∨ cp = 2 * pos + 1 + 1) ∧
            heap s !! cp = Some c ∧
            siftup_loop comp (S fuel) (length (heap s)) (length (heap s) / 2) pos s =
            siftup_loop comp fuel (length (heap s)) (length (heap s) / 2) cp
              (exchange_state cp pos x c s)) as (cp & c & Hcp & Hccp & ->).
  { simpl. rewrite decide_True by done. unfold bind at 1.
    destruct (decide (2 * pos + 1 + 1 < length (heap s))) as [Hr|Hr].
    - destruct (lookup_lt_is_Some_2 (heap s) (2 * pos + 1 + 1)) as [b Hb]; [lia|].
      unfold bind at 1. unfold data_get at 1. rewrite Ha.
      unfold bind at 1. unfold data_get at 1. rewrite Hb.
      unfold bind at 1. unfold compare at 1. rewrite Hff.
      unfold ret at 1.
      set (cp := 2 * pos + 1 + (if less a b then 0 else 1)).
      assert (∃ c, heap s !! cp = Some c ∧ (cp = 2 * pos + 1 ∨ cp = 2 * pos + 1 + 1))
        as (c & Hccp & Hcp).
      { subst cp. destruct (less a b).
        - exists a. replace (2 * pos + 1 + 0) with (2 * pos + 1) by lia. auto.
        - exists b. auto. }
      exists cp, c. split; [done|]. split; [done|].
      apply lookup_lt_Some in Hccp as ?.
      unfold bind, data_get, data_set, index_at_put.
      rewrite Hccp, Hx. rewrite decide_True by done. simpl.
      rewrite decide_True by (rewrite length_insert; lia). simpl.
      rewrite (Hm _ _ Hx). simpl.
      destruct (decide (x = c)) as [->|Hxc].
      + rewrite lookup_insert_eq. done.
      + rewrite lookup_insert_ne by done. rewrite (Hm _ _ Hccp). done.
    - exists (2 * pos + 1), a. split; [by left|]. split; [done|].
      unfold ret at 1.
      unfold bind, data_get, data_set, index_at_put.
      rewrite Ha, Hx. rewrite decide_True by lia. simpl.
      rewrite decide_True by (rewrite length_insert; lia). simpl.
      rewrite (Hm _ _ Hx). simpl.
      destruct (decide (x = a)) as [->|Hxc].
      + rewrite lookup_insert_eq. done.
      + rewrite lookup_insert_ne by done. rewrite (Hm _ _ Ha). done. }
  assert (length (heap (exchange_state cp pos x c s)) = length (heap s)) as Hlen.
  { simpl. by rewrite !length_insert. }
  rewrite <-Hlen. apply IH.
  - apply index_consistent_exchange; auto. lia.
  - rewrite Hlen. lia.
Qed.
End SiftUp.

Section ListFacts.
Context {T : Type}.
Implicit Types l : list T.

Lemma removelast_take l : removelast l = take (length l - 1) l.
Proof.
  induction l as [|x l IH]; [done|]. destruct l as [|y l]; [done|].
  change (removelast (x :: y :: l)) with (x :: removelast (y :: l)).
  rewrite IH.
  replace (length (x :: y :: l) - 1) with (S (length (y :: l) - 1))
    by (simpl; lia).
  done.
Qed.

Lemma length_removelast l : length (removelast l) = length l - 1.
Proof. rewrite removelast_take, length_take. lia. Qed.

Lemma lookup_removelast l i :
  i < length l - 1 → removelast l !! i = l !! i.
Proof. intros. rewrite removelast_take. by apply lookup_take_lt. Qed.

Lemma lookup_removelast_Some l i x :
  removelast l !! i = Some x → l !! i = Some x ∧ i < length l - 1.
Proof.
  intros Hx. apply lookup_lt_Some in Hx as Hlt. rewrite length_removelast in Hlt.
  by rewrite lookup_removelast in Hx.
Qed.

Lemma last_lookup_Some l x : last l = Some x → l !! (length l - 1) = Some x.
Proof.
  rewrite last_lookup. intros <-. f_equal. destruct l; simpl; lia.
Qed.
End ListFacts.

Section SiftUpWhole.
Context {T : Type} `{Countable T}.
Variable comp : T → T → option bool.
Implicit Types s : EHeapQ T.

Lemma siftdown_sifted k pos s s' :
  siftdown comp k pos s = Ok tt s' → sifted s s'.
Proof.
  intros Hrun. destruct (decide (heap s = [])) as [He|He].
  - rewrite siftdown_empty in Hrun by done. simplify_eq. apply sifted_refl.
  - apply siftdown_Ok in Hrun as (x & Hx & Hrun); [|done].
    by eapply siftdown_loop_sifted.
Qed.

Lemma siftup_Ok k s s' :
  siftup comp k s = Ok tt s' →
  ∃ pos s1,
    siftup_loop comp (length (heap s)) (length (heap s))
      (length (heap s) / 2) k s = Ok pos s1 ∧
    siftdown comp k pos s1 = Ok tt s'.
Proof.
  unfold siftup. intros Hrun. mstep Hrun. cbv zeta in Hrun.
  inv_bind Hrun as pos s1 Hl. eauto.
Qed.

Lemma siftup_sifted k s s' : siftup comp k s = Ok tt s' → sifted s s'.
Proof.
  intros (pos & s1 & Hl & Hd)%siftup_Ok.
  apply siftup_loop_sifted in Hl as [Hs _]. apply siftdown_sifted in Hd.
  by eapply sifted_trans.
Qed.

Variable less : T → T → bool.
Hypothesis Hff : failure_free comp less.
Hypothesis swo : StrictWeakOrder less.

Lemma siftdown_order k pos s s' :
  siftdown comp k pos s = Ok tt s' → desc k pos →
  up_inv less (heap s) k pos → below_ok less (heap s) k pos →
  (∀ i, 0 < i → i ≠ k → ord less (heap s') i) ∧
  (0 < k → ∀ c, 0 < c → parent c = k → gord less (heap s') c).
Proof.
  intros Hrun Hd Hup Hbel. destruct (decide (heap s = [])) as [He|He].
  - rewrite siftdown_empty in Hrun by done. simplify_eq. rewrite He.
    split; [intros i _ _ x p Hx|intros _ c _ _ x p Hx]; by destruct i || destruct c.
  - apply siftdown_Ok in Hrun as (x & Hx & Hrun); [|done].
    by eapply siftdown_loop_order.
Qed.

Lemma siftup_order k s s' :
  siftup comp k s = Ok tt s' →
  down_inv less (heap s) k k → below_ok less (heap s) k k →
  (∀ i, 0 < i → i ≠ k → ord less (heap s') i) ∧
  (0 < k → ∀ c, 0 < c → parent c = k → gord less (heap s') c).
Proof.
  intros (pos & s1 & Hl & Hd)%siftup_Ok Hdown Hbel.
  eapply siftup_loop_order in Hl as (Hdesc & Hup & Hbel'); eauto; [|constructor].
  by eapply siftdown_order.
Qed.

Lemma siftup_runs k s :
  index_consistent (index_map s) (heap s) →
  k < length (heap s) ∨ heap s = [] →
  ∃ s', siftup comp k s = Ok tt s'.
Proof.
  intros Hc Hk. unfold siftup. unfold bind at 1, heap_size at 1.
  destruct (siftup_loop_runs comp less Hff (length (heap s)) k s Hc)
    as (pos & s1 & Hl); [lia|].
  rewrite (bind_step _ _ _ _ _ Hl).
  apply siftup_loop_sifted in Hl as [Hs Hlt].
  apply sifted_frame in Hs as (Hlen & _ & _ & Hc1). specialize (Hc1 Hc).
  destruct Hk as [Hk|He].
  - destruct (lookup_lt_is_Some_2 (heap s1) pos (Hlt Hk)) as [x Hx].
    rewrite (siftdown_step _ _ _ _ _ Hx).
    by eapply siftdown_loop_runs.
  - rewrite siftdown_empty; [eauto|].
    apply length_zero_iff_nil. rewrite Hlen, He. done.
Qed.
End SiftUpWhole.

Section Helpers.
Context {T : Type} `{Countable T}.
Implicit Types s : EHeapQ T.

Lemma index_find_Ok x s r s' :
  index_find x s = Ok r s' → r = index_map s !! x ∧ s' = s.
Proof. unfold index_find. naive_solver. Qed.

Lemma index_insert_Ok x i s u s' :
  index_insert x i s = Ok u s' →
  s' = with_index_map (fun m => match m !! x with
                                | Some _ => m
                                | None => <[x:=i]> m
                                end) s.
Proof. unfold index_insert. naive_solver. Qed.

Lemma index_erase_Ok x s u s' :
  index_erase x s = Ok u s' → s' = with_index_map (delete x) s.
Proof. unfold index_erase. naive_solver. Qed.

Lemma push_back_Ok x s u s' :
  push_back x s = Ok u s' → s' = with_heap (fun l => l ++ [x]) s.
Proof. unfold push_back. naive_solver. Qed.

Lemma throw_on_empty_Ok s u s' :
  throw_on_empty s = Ok u s' → heap s ≠ [] ∧ s' = s.
Proof.
  unfold throw_on_empty, bind, heap_size, throw, ret.
  case_decide as Hn; [done|]. intros ?; simplify_eq. split; [|done].
  intros He. by rewrite He in Hn.
Qed.

Lemma throw_on_empty_step s : heap s ≠ [] → throw_on_empty s = Ok tt s.
Proof.
  intros He. unfold throw_on_empty, bind, heap_size, ret.
  rewrite decide_False; [done|]. by destruct (heap s).
Qed.

Lemma same_store_refl s : same_store s s.
Proof. by repeat split. Qed.

Lemma same_store_trans s1 s2 s3 :
  same_store s1 s2 → same_store s2 s3 → same_store s1 s3.
Proof. unfold same_store. intros (?&?&?) (?&?&?). repeat split; congruence. Qed.

Lemma set_last_item_Ok x s u s' :
  set_last_item x s = Ok u s' → s' = with_last x true s.
Proof. unfold set_last_item. naive_solver. Qed.

Lemma set_max_item_Ok x s u s' :
  set_max_item x s = Ok u s' → s' = with_max x true s.
Proof. unfold set_max_item. naive_solver. Qed.

Lemma maybe_del_last_item_Ok x s u s' :
  maybe_del_last_item x s = Ok u s' → same_store s s'.
Proof.
  unfold maybe_del_last_item. case_match; intros ?; simplify_eq; by repeat split.
Qed.

Lemma maybe_del_max_item_Ok x s u s' :
  maybe_del_max_item x s = Ok u s' → same_store s s'.
Proof.
  unfold maybe_del_max_item. case_match; intros ?; simplify_eq; by repeat split.
Qed.

Lemma maybe_del_last_item_runs x s : ∃ s', maybe_del_last_item x s = Ok tt s'.
Proof. unfold maybe_del_last_item. case_match; eauto. Qed.

Lemma maybe_del_max_item_runs x s : ∃ s', maybe_del_max_item x s = Ok tt s'.
Proof. unfold maybe_del_max_item. case_match; eauto. Qed.

Variable comp : T → T → option bool.

Lemma maybe_adjust_max_Ok x s u s' :
  maybe_adjust_max comp x s = Ok u s' → same_store s s'.
Proof.
  unfold maybe_adjust_max, noexcept, bind, compare, ret.
  destruct (max_item_set s); simpl.
  - destruct (comp (max_item s) x) as [[]|]; intros ?; simplify_eq;
      by repeat split.
  - intros ?; simplify_eq. by repeat split.
Qed.

Lemma try_catch_Ok {A} (m : M T A) (h : exn → M T A) s a s' :
  try_catch m h s = Ok a s' →
  m s = Ok a s' ∨ ∃ e s1, m s = Throw e s1 ∧ h e s1 = Ok a s'.
Proof. unfold try_catch. destruct (m s); naive_solver. Qed.
End Helpers.

(** Invert the run of one primitive access or cache helper. *)
Ltac inv_step H :=
  lazymatch type of H with
  | index_find _ _ = Ok _ _ => apply index_find_Ok in H as [-> ->]
  | index_insert _ _ _ = Ok _ _ => apply index_insert_Ok in H as ->
  | index_erase _ _ = Ok _ _ => apply index_erase_Ok in H as ->
  | push_back _ _ = Ok _ _ => apply push_back_Ok in H as ->
  | throw_on_empty _ = Ok _ _ => apply throw_on_empty_Ok in H as [H ->]
  | set_last_item _ _ = Ok _ _ => apply set_last_item_Ok in H as ->
  | set_max_item _ _ = Ok _ _ => apply set_max_item_Ok in H as ->
  | maybe_del_last_item _ _ = Ok _ _ => apply maybe_del_last_item_Ok in H
  | maybe_del_max_item _ _ = Ok _ _ => apply maybe_del_max_item_Ok in H
  | maybe_adjust_max _ _ _ = Ok _ _ => apply maybe_adjust_max_Ok in H
  | throw _ _ = Ok _ _ => by unfold throw in H
  | undefined _ = Ok _ _ => by unfold undefined in H
  | _ => inv_prim H
  end.

Ltac mstep' H :=
  let a := fresh "a" in
  let s := fresh "s" in
  let Hm := fresh "Hm" in
  apply bind_Ok in H as (a & s & Hm & H); inv_step Hm.

(** Use what the cache helpers leave alone. *)
Ltac same_store :=
  repeat match goal with
         | H : same_store _ _ |- _ =>
           let Hh := fresh "Hheap" in
           let Hi := fresh "Hindex" in
           let Hz := fresh "Hsize" in
           destruct H as (Hh & Hi & Hz); simpl in Hh, Hi, Hz;
           try rewrite Hh in *; try rewrite Hi in *; try rewrite Hz in *
         end;
  simpl in *; try done.

Section PreSift.
Context {T : Type} `{Countable T}.
Variable less : T → T → bool.
Hypothesis swo : StrictWeakOrder less.
Implicit Types l : list T.

Lemma below_ok_root l pos : below_ok less l 0 pos.
Proof. intros g d y Hk. lia. Qed.

Lemma heap_ordered_removelast l :
  heap_ordered less l → heap_ordered less (removelast l).
Proof.
  intros Ho i x p Hi [Hx _]%lookup_removelast_Some [Hp _]%lookup_removelast_Some.
  by eapply Ho.
Qed.

(** A new element at the root: what siftup(0) starts from. *)
Lemma down_inv_root_replaced l x :
  heap_ordered less l → down_inv less (<[0:=x]> l) 0 0.
Proof.
  intros Ho. split; [|done]. intros i Hi _ _ Hpi y p Hy Hp.
  rewrite list_lookup_insert_ne in Hy by lia.
  rewrite list_lookup_insert_ne in Hp by lia.
  by eapply Ho.
Qed.

Lemma down_inv_removelast l k :
  down_inv less l k k → down_inv less (removelast l) k k.
Proof.
  intros [Ho _]. split; [|done]. intros i Hi Hik _ Hpi y p
    [Hy _]%lookup_removelast_Some [Hp _]%lookup_removelast_Some.
  by eapply Ho.
Qed.

(** A new element at the tail: what push's siftdown starts from. *)
Lemma up_inv_appended l x :
  heap_ordered less l → up_inv less (l ++ [x]) 0 (length l).
Proof.
  intros Ho. split.
  - intros i Hi _ Hil y p Hy Hp.
    apply lookup_lt_Some in Hy as Hlt. rewrite length_app in Hlt. simpl in Hlt.
    pose proof (parent_lt i Hi).
    rewrite lookup_app_l in Hy by lia. rewrite lookup_app_l in Hp by lia.
    by eapply Ho.
  - intros _ c Hc Hpar y g Hy _.
    apply lookup_lt_Some in Hy as Hlt. rewrite length_app in Hlt. simpl in Hlt.
    pose proof (parent_lt c Hc). lia.
Qed.

Lemma desc_trans a b c : desc a b → desc b c → desc a c.
Proof. intros Hab. induction 1; [done|]. by apply desc_child. Qed.

(** An arbitrary element at [k]: what remove's siftup(k) starts from. *)
Lemma down_inv_replaced l k x :
  heap_ordered less l → down_inv less (<[k:=x]> l) k k.
Proof.
  intros Ho. split; [|done]. intros i Hi Hik _ Hpi y p Hy Hp.
  rewrite list_lookup_insert_ne in Hy by lia.
  rewrite list_lookup_insert_ne in Hp by lia.
  by eapply Ho.
Qed.

Lemma below_ok_replaced l k x :
  heap_ordered less l → below_ok less (<[k:=x]> l) k k.
Proof.
  intros Ho g d y Hk Hg Hd Hdk Hy.
  pose proof (parent_lt k Hk).
  rewrite list_lookup_insert_ne in Hg by lia.
  rewrite list_lookup_insert_ne in Hy by lia.
  eapply (heap_ordered_desc less swo l (parent k) d); eauto.
  - intros i Hi _. by apply heap_ordered_ord.
  - eapply desc_trans; [|done]. apply desc_child; [done|constructor].
Qed.

Lemma below_ok_removelast l k :
  0 < k → k < length l - 1 →
  below_ok less l k k → below_ok less (removelast l) k k.
Proof.
  intros Hk Hlen Hb g d y _ [Hg _]%lookup_removelast_Some Hd Hdk
    [Hy _]%lookup_removelast_Some.
  by eapply Hb.
Qed.

Lemma up_inv_after_siftup l k :
  (∀ i, 0 < i → i ≠ k → ord less l i) →
  (0 < k → ∀ c, 0 < c → parent c = k → gord less l c) →
  up_inv less l 0 k.
Proof.
  intros Ho Hg. split.
  - intros i Hi _ Hik. by apply Ho.
  - intros Hk. apply Hg. lia.
Qed.
End PreSift.

Section HeapOrder.
Context {T : Type} `{Countable T}.
Variable comp : T → T → option bool.
Variable less : T → T → bool.
Hypothesis Hff : failure_free comp less.
Hypothesis swo : StrictWeakOrder less.
Implicit Types s : EHeapQ T.

Lemma siftup_root_ordered s s' :
  siftup comp 0 s = Ok tt s' → down_inv less (heap s) 0 0 →
  heap_ordered less (heap s').
Proof.
  intros Hrun Hdown.
  eapply siftup_order in Hrun as [Ho _]; eauto using below_ok_root.
  apply heap_ordered_ord. intros i Hi. apply Ho; lia.
Qed.

Lemma pushpop_ordered item s r s' :
  pushpop comp item s = Ok r s' →
  heap_ordered less (heap s) → heap_ordered less (heap s').
Proof.
  unfold pushpop. intros Hrun Ho.
  mstep' Hrun. destruct (index_map s !! item); [by inv_step Hrun|].
  mstep' Hrun. inv_bind Hrun as b s1 Hb.
  assert (s1 = s) as ->.
  { case_decide; [|by inv_step Hb]. mstep' Hb. by inv_step Hb. }
  destruct b; [|by inv_step Hrun].
  do 4 mstep' Hrun. inv_bind Hrun as [] s2 Hs.
  apply siftup_root_ordered in Hs; [|by apply down_inv_root_replaced].
  do 3 mstep' Hrun. inv_step Hrun. same_store.
Qed.

Lemma replace_ordered item s r s' :
  replace comp item s = Ok r s' →
  heap_ordered less (heap s) → heap_ordered less (heap s').
Proof.
  unfold replace. intros Hrun Ho.
  do 2 mstep' Hrun. destruct (index_map s !! item); [by inv_step Hrun|].
  do 4 mstep' Hrun. inv_bind Hrun as [] s2 Hs.
  apply siftup_root_ordered in Hs; [|by apply down_inv_root_replaced].
  do 3 mstep' Hrun. inv_step Hrun. same_store.
Qed.

Lemma pop_ordered s r s' :
  pop comp s = Ok r s' →
  heap_ordered less (heap s) → heap_ordered less (heap s').
Proof.
  unfold pop. intros Hrun Ho.
  do 3 mstep' Hrun. inv_bind Hrun as [] s1 Hpre.
  assert (∃ b, heap s1 = <[0:=b]> (heap s)) as [b Hs1].
  { case_decide.
    - do 3 mstep' Hpre. inv_step Hpre. simpl. eauto.
    - inv_step Hpre. eexists. symmetry. by apply list_insert_id. }
  do 2 mstep' Hrun. inv_bind Hrun as [] s2 Hs.
  apply siftup_root_ordered in Hs.
  2:{ simpl. rewrite Hs1. by apply down_inv_removelast, down_inv_root_replaced. }
  do 2 mstep' Hrun. inv_step Hrun. same_store.
Qed.

Lemma push_ordered item s s' :
  push comp item s = Ok tt s' →
  heap_ordered less (heap s) → heap_ordered less (heap s').
Proof.
  unfold push. intros Hrun Ho.
  mstep' Hrun. destruct (index_map s !! item); [by inv_step Hrun|].
  do 2 mstep' Hrun. case_decide.
  { inv_bind Hrun as r s1 Hp. inv_step Hrun. by eapply pushpop_ordered. }
  do 2 mstep' Hrun. inv_bind Hrun as [] s1 Hs.
  apply try_catch_Ok in Hs as [Hs|(e & s2 & _ & Hs)].
  2:{ do 2 mstep' Hs. inv_step Hs. }
  mstep' Hs. simpl in Hs. rewrite length_app in Hs. simpl in Hs.
  replace (length (heap s) + 1 - 1) with (length (heap s)) in Hs by lia.
  eapply siftdown_order in Hs as [Hord _]; eauto;
    [|apply desc_root|by apply up_inv_appended|apply below_ok_root].
  assert (heap_ordered less (heap s1)) as Ho1.
  { apply heap_ordered_ord. intros i Hi. apply Hord; lia. }
  do 2 mstep' Hrun. case_decide; inv_step Hrun; same_store.
Qed.

Lemma remove_ordered item s s' :
  remove comp item s = Ok tt s' →
  heap_ordered less (heap s) → heap_ordered less (heap s').
Proof.
  unfold remove. intros Hrun Ho.
  do 2 mstep' Hrun. destruct (index_map s !! item) as [idx|]; [|by inv_step Hrun].
  inv_bind Hrun as is_tail s1 Ht.
  assert (s1 = s) as ->.
  { case_decide; [|by inv_step Ht]. mstep' Ht. by inv_step Ht. }
  clear Ht. inv_bind Hrun as [] s1 Hbody.
  assert (heap_ordered less (heap s1)) as Ho1.
  { destruct is_tail.
    - mstep' Hbody. inv_step Hbody. simpl. by apply heap_ordered_removelast.
    - mstep' Hbody. inv_bind Hbody as x s2 Hx.
      case_decide; [by inv_step Hx|]. inv_step Hx.
      do 4 mstep' Hbody. simpl in Hbody.
      rewrite length_removelast, length_insert in Hbody.
      destruct (decide (idx < length (heap s) - 1)) as [Hidx|Hidx].
      + inv_bind Hbody as [] s2 Hup.
        eapply siftup_order in Hup as [Hord Hg]; eauto; simpl.
        2:{ by apply down_inv_removelast, down_inv_replaced. }
        2:{ destruct (decide (0 < idx)); [|intros ???; lia].
            apply below_ok_removelast; [done|by rewrite length_insert|].
            by apply below_ok_replaced. }
        eapply siftdown_order in Hbody as [Hord' _]; eauto;
          [|apply desc_root|by apply up_inv_after_siftup|apply below_ok_root].
        apply heap_ordered_ord. intros i Hi. apply Hord'; lia.
      + inv_step Hbody. simpl.
        assert (idx = length (heap s) - 1) as -> by lia.
        rewrite list_insert_id by done. by apply heap_ordered_removelast. }
  mstep' Hrun. inv_step Hrun. same_store.
Qed.

Lemma set_size_loop_ordered fuel s s' :
  set_size_loop comp fuel s = Ok tt s' →
  heap_ordered less (heap s) → heap_ordered less (heap s').
Proof.
  revert s. induction fuel as [|fuel IH]; intros s Hrun Ho; simpl in Hrun.
  - do 2 mstep' Hrun. case_decide; [done|]. by inv_step Hrun.
  - do 2 mstep' Hrun. case_decide; [|by inv_step Hrun].
    inv_bind Hrun as r s1 Hp. eapply IH; [done|]. by eapply pop_ordered.
Qed.

Lemma set_size_ordered sz s s' :
  set_size comp sz s = Ok tt s' →
  heap_ordered less (heap s) → heap_ordered less (heap s').
Proof.
  unfold set_size. intros Hrun Ho.
  inv_bind Hrun as [] s1 Hs. simplify_eq. mstep' Hrun.
  by eapply set_size_loop_ordered.
Qed.
End HeapOrder.

Section GetMax.
Context {T : Type} `{Countable T}.
Variable comp : T → T → option bool.
Implicit Types s : EHeapQ T.

Lemma get_max_scan_Ok idxs r s m s' :
  get_max_scan comp idxs r s = Ok m s' → s' = s.
Proof.
  revert r s. induction idxs as [|i idxs IH]; intros r s Hrun; simpl in Hrun.
  { by inv_step Hrun. }
  do 2 mstep' Hrun. inv_bind Hrun as r' s1 Hr.
  assert (s1 = s) as -> by (destruct a0; by inv_step Hr).
  by eapply IH.
Qed.

(** get_max leaves everything but [max_item] as it was; in particular
    it never sets [max_item_set]. *)
Lemma get_max_Ok s m s' :
  get_max comp s = Ok m s' →
  same_store s s' ∧ max_item_set s' = max_item_set s ∧
  last_item s' = last_item s ∧ last_item_set s' = last_item_set s ∧
  (max_item_set s = true → m = max_item s ∧ s' = s).
Proof.
  unfold get_max. intros Hrun. mstep' Hrun.
  destruct (max_item_set s) eqn:Hset.
  { simplify_eq. rewrite Hset. by repeat split. }
  do 2 mstep' Hrun. inv_bind Hrun as r s1 Hscan.
  apply get_max_scan_Ok in Hscan as ->.
  inv_bind Hrun as [] s1 Hput. simplify_eq. inv_step Hrun.
  simpl. by repeat split.
Qed.

Variable less : T → T → bool.
Hypothesis Hff : failure_free comp less.
Hypothesis swo : StrictWeakOrder less.

Lemma get_max_scan_spec idxs r s :
  (∀ i, i ∈ idxs → i < length (heap s)) →
  ∃ m, get_max_scan comp idxs r s = Ok m s ∧
       (m = r ∨ ∃ i, i ∈ idxs ∧ heap s !! i = Some m) ∧
       less m r = false ∧
       ∀ i y, i ∈ idxs → heap s !! i = Some y → less m y = false.
Proof.
  revert r. induction idxs as [|i idxs IH]; intros r Hin; simpl.
  { exists r. split; [done|]. split; [by left|].
    split; [apply (swo_irrefl _ swo)|]. intros i y Hi. by apply elem_of_nil in Hi. }
  destruct (lookup_lt_is_Some_2 (heap s) i) as [x Hx].
  { apply Hin. by left. }
  rewrite (bind_step _ _ _ _ _ (data_get_step _ _ _ Hx)).
  rewrite (bind_step _ _ _ _ _ (compare_step _ _ _ _ _ (Hff r x))).
  destruct (IH (if less r x then x else r)) as (m & Hrun & Hm & Hr & Hall).
  { intros j Hj. apply Hin. by right. }
  exists m. split.
  { destruct (less r x).
    - by rewrite (bind_step _ _ _ _ _ (data_get_step _ _ _ Hx)).
    - unfold bind at 1, ret at 1. done. }
  destruct (less r x) eqn:Hrx.
  - split; [|split].
    + right. destruct Hm as [->|(j & Hj & Hjm)].
      * exists i. split; [by left|done].
      * exists j. split; [by right|done].
    + destruct (less m r) eqn:Hmr; [|done].
      by rewrite (swo_trans _ swo _ _ _ Hmr Hrx) in Hr.
    + intros j y [->|Hj]%elem_of_cons Hy; [|by eapply Hall].
      by assert (y = x) as -> by congruence.
  - split; [|split; [done|]].
    + destruct Hm as [->|(j & Hj & Hjm)]; [by left|].
      right. exists j. split; [by right|done].
    + intros j y [->|Hj]%elem_of_cons Hy; [|by eapply Hall].
      assert (y = x) as -> by congruence.
      by apply (swo_le_trans less swo _ r).
Qed.

(** Every stored element is preceded by no element of some leaf. *)
Lemma leaf_above (l : list T) i x :
  heap_ordered less l → l !! i = Some x →
  ∃ j y, length l / 2 ≤ j < length l ∧ l !! j = Some y ∧ less y x = false.
Proof.
  intros Ho. remember (length l - i) as d eqn:Hd.
  revert i x Hd. induction (lt_wf d) as [d _ IH]. intros i x -> Hx.
  apply lookup_lt_Some in Hx as Hlt.
  destruct (decide (length l / 2 ≤ i)) as [Hleaf|Hint].
  { exists i, x. split; [lia|]. split; [done|]. apply (swo_irrefl _ swo). }
  destruct (lookup_lt_is_Some_2 l (2 * i + 1)) as [c Hc]; [lia|].
  destruct (IH (length l - (2 * i + 1)) ltac:(lia) (2 * i + 1) c eq_refl Hc)
    as (j & y & Hj & Hy & Hyc).
  exists j, y. split; [done|]. split; [done|].
  apply (swo_le_trans less swo _ c); [|done].
  apply (Ho (2 * i + 1)); [lia|done|]. by rewrite parent_left.
Qed.

Lemma get_max_unset_spec s :
  heap s ≠ [] → heap_ordered less (heap s) → max_item_set s = false →
  ∃ m i s', get_max comp s = Ok m s' ∧
    length (heap s) / 2 ≤ i < length (heap s) ∧
    heap s !! i = Some m ∧ is_maximum less (heap s) m.
Proof.
  intros Hne Ho Hset. unfold get_max.
  rewrite (bind_step _ _ _ _ _ (throw_on_empty_step _ Hne)). rewrite Hset.
  unfold bind at 1, heap_size at 1.
  set (n := length (heap s)).
  assert (0 < n) as Hn by (subst n; destruct (heap s); simpl; [done|lia]).
  destruct (lookup_lt_is_Some_2 (heap s) (n / 2)) as [r Hr]; [lia|].
  rewrite (bind_step _ _ _ _ _ (data_get_step _ _ _ Hr)).
  destruct (get_max_scan_spec (seq (n / 2 + 1) (n - (n / 2 + 1))) r s)
    as (m & Hrun & Hm & Hmr & Hall).
  { intros i Hi%elem_of_seq. lia. }
  rewrite (bind_step _ _ _ _ _ Hrun). unfold bind, ret.
  assert (∀ j y, n / 2 ≤ j < n → heap s !! j = Some y → less m y = false)
    as Hleaves.
  { intros j y Hj Hy. destruct (decide (j = n / 2)) as [->|].
    - by assert (y = r) as -> by congruence.
    - eapply Hall; [|done]. apply elem_of_seq. lia. }
  assert (∃ i, n / 2 ≤ i < n ∧ heap s !! i = Some m) as (i & Hi & Him).
  { destruct Hm as [->|(i & Hi%elem_of_seq & Him)].
    - exists (n / 2). split; [lia|done].
    - exists i. split; [lia|done]. }
  eexists m, i, _. split; [done|]. split; [done|]. split; [done|].
  split; [by eapply list_elem_of_lookup_2|].
  intros y [j Hy]%list_elem_of_lookup.
  destruct (leaf_above _ _ _ Ho Hy) as (j' & y' & Hj' & Hy' & Hle).
  apply (swo_le_trans less swo _ y'); [done|]. by eapply Hleaves.
Qed.
End GetMax.

Section Pop.
Context {T : Type} `{Countable T}.
Variable comp : T → T → option bool.
Variable less : T → T → bool.
Hypothesis Hff : failure_free comp less.
Hypothesis swo : StrictWeakOrder less.
Implicit Types s : EHeapQ T.

(** The root of an ordered heap is a minimum. *)
Lemma root_is_minimum (l : list T) x :
  heap_ordered less l → l !! 0 = Some x → is_minimum less l x.
Proof.
  intros Ho Hx. split; [by eapply list_elem_of_lookup_2|].
  intros y [i Hy]%list_elem_of_lookup.
  eapply (heap_ordered_desc less swo l 0 i); eauto using desc_root.
  intros j Hj _. by apply heap_ordered_ord.
Qed.

(** The vector and the index just before pop calls siftup(0). *)
Lemma pop_presift_consistent (l : list T) (m : gmap T nat) r b :
  index_consistent m l → l !! 0 = Some r → last l = Some b →
  index_consistent
    (delete r (if decide (1 < length l) then <[b:=0]> m else m))
    (removelast (<[0:=b]> l)).
Proof.
  intros Hc Hr Hb. pose proof Hc as [Hm Hsz].
  apply last_lookup_Some in Hb as Hb'.
  apply lookup_lt_Some in Hr as Hlen.
  split.
  - intros i y [Hy Hi]%lookup_removelast_Some.
    rewrite length_insert in Hi.
    rewrite decide_True by lia.
    destruct (decide (i = 0)) as [->|Hi0].
    + rewrite list_lookup_insert_eq in Hy by lia.
      assert (y = b) as -> by congruence.
      assert (b ≠ r).
      { intros ->. assert (length l - 1 = 0) by by eapply index_consistent_inj.
        lia. }
      rewrite lookup_delete_ne by done. by rewrite lookup_insert_eq.
    + rewrite list_lookup_insert_ne in Hy by done.
      assert (y ≠ r).
      { intros ->. apply Hi0. by eapply index_consistent_inj. }
      assert (y ≠ b).
      { intros ->. assert (i = length l - 1) by by eapply index_consistent_inj.
        lia. }
      rewrite lookup_delete_ne by done. rewrite lookup_insert_ne by done.
      by apply Hm.
  - rewrite length_removelast, length_insert.
    rewrite map_size_delete_Some.
    + case_decide; [|lia]. rewrite map_size_insert_Some; [lia|].
      rewrite (Hm _ _ Hb'). eauto.
    + case_decide.
      * destruct (decide (b = r)) as [->|].
        -- rewrite lookup_insert_eq. eauto.
        -- rewrite lookup_insert_ne by done. rewrite (Hm _ _ Hr). eauto.
      * rewrite (Hm _ _ Hr). eauto.
Qed.

Lemma pop_presift_elem_of (l : list T) (m : gmap T nat) r b :
  index_consistent m l → l !! 0 = Some r → last l = Some b →
  (r ∉ removelast (<[0:=b]> l)) ∧
  ∀ y, y ∈ l ↔ y = r ∨ y ∈ removelast (<[0:=b]> l).
Proof.
  intros Hc Hr Hb. apply last_lookup_Some in Hb as Hb'.
  apply lookup_lt_Some in Hr as Hlen.
  assert (∀ i y, removelast (<[0:=b]> l) !! i = Some y ↔
                 i < length l - 1 ∧ if decide (i = 0) then y = b else l !! i = Some y)
    as Hlook.
  { intros i y. split.
    - intros [Hy Hi]%lookup_removelast_Some. rewrite length_insert in Hi.
      split; [done|]. case_decide as Hi0.
      + subst i. rewrite list_lookup_insert_eq in Hy by lia. by simplify_eq.
      + by rewrite list_lookup_insert_ne in Hy.
    - intros [Hi Hy]. rewrite lookup_removelast by (by rewrite length_insert).
      case_decide as Hi0.
      + subst. by rewrite list_lookup_insert_eq by lia.
      + by rewrite list_lookup_insert_ne. }
  split.
  - intros [i [Hi Hy]%Hlook]%list_elem_of_lookup. case_decide as Hi0.
    + subst. assert (length l - 1 = 0) by by eapply index_consistent_inj. lia.
    + apply Hi0. by eapply index_consistent_inj.
  - intros y. split.
    + intros [i Hy]%list_elem_of_lookup.
      destruct (decide (i = 0)) as [->|Hi0]; [left; congruence|]. right.
      apply lookup_lt_Some in Hy as ?.
      destruct (decide (i = length l - 1)) as [->|].
      * apply list_elem_of_lookup. exists 0. apply Hlook.
        split; [lia|]. rewrite decide_True by done. congruence.
      * apply list_elem_of_lookup. exists i. apply Hlook.
        split; [lia|]. by rewrite decide_False.
    + intros [->|[i [Hi Hy]%Hlook]%list_elem_of_lookup].
      * by eapply list_elem_of_lookup_2.
      * case_decide; subst; by eapply list_elem_of_lookup_2.
Qed.

Lemma pop_unfold s r b :
  index_consistent (index_map s) (heap s) →
  heap s !! 0 = Some r → last (heap s) = Some b →
  pop comp s =
    (siftup comp 0 ;;; maybe_del_last_item r ;;; maybe_del_max_item r ;;;
     ret r) (pop_presift r b s).
Proof.
  intros [Hm _] Hr Hb. apply last_lookup_Some in Hb as Hb'.
  assert (heap s ≠ []) as Hne by (by intros He; rewrite He in Hr).
  unfold pop.
  rewrite (bind_step _ _ _ _ _ (throw_on_empty_step _ Hne)).
  rewrite (bind_step _ _ _ _ _ (data_get_step _ _ _ Hr)).
  unfold bind at 1, heap_size at 1.
  apply lookup_lt_Some in Hr as Hlen.
  unfold bind at 1. unfold pop_presift.
  destruct (decide (1 < length (heap s))) as [Hn|Hn].
  - unfold bind at 1, heap_back at 1. rewrite Hb.
    rewrite (bind_step _ _ _ _ _ (data_set_step _ _ _ Hlen)).
    erewrite (bind_step (data_get 0)).
    2:{ apply data_get_step. simpl. by apply list_lookup_insert_eq. }
    erewrite index_at_put_step.
    2:{ simpl. rewrite (Hm _ _ Hb'). eauto. }
    erewrite (bind_step pop_back).
    2:{ apply pop_back_step. simpl. intros Hnil.
        apply (f_equal length) in Hnil. rewrite length_insert in Hnil.
        simpl in Hnil. lia. }
    unfold bind at 1, index_erase at 1. done.
  - unfold ret at 1. rewrite (bind_step _ _ _ _ _ (pop_back_step _ Hne)).
    unfold bind at 1, index_erase at 1.
    assert (<[0:=b]> (heap s) = heap s) as Hid.
    { apply list_insert_id. rewrite <-Hb'. f_equal. lia. }
    unfold with_heap, with_index_map. simpl. by rewrite Hid.
Qed.

(** pop on a well-formed, non-empty heap: it returns, the root goes,
    both invariants survive. *)
Lemma pop_spec s :
  heap_ordered less (heap s) → index_consistent (index_map s) (heap s) →
  heap s ≠ [] →
  ∃ r s', pop comp s = Ok r s' ∧ heap s !! 0 = Some r ∧
    heap_ordered less (heap s') ∧
    index_consistent (index_map s') (heap s') ∧
    length (heap s') = length (heap s) - 1 ∧
    (r ∉ heap s') ∧ (∀ y, y ∈ heap s ↔ y = r ∨ y ∈ heap s') ∧
    size s' = size s.
Proof.
  intros Ho Hc Hne.
  destruct (lookup_lt_is_Some_2 (heap s) 0) as [r Hr].
  { destruct (heap s); simpl; [done|lia]. }
  destruct (last (heap s)) as [b|] eqn:Hb.
  2:{ apply last_None in Hb. done. }
  set (s1 := pop_presift r b s).
  assert (index_consistent (index_map s1) (heap s1)) as Hc1.
  { subst s1. simpl. by apply pop_presift_consistent. }
  destruct (siftup_runs comp less Hff 0 s1 Hc1) as [s2 Hup].
  { destruct (decide (heap s1 = [])); [by right|left].
    destruct (heap s1); simpl; [done|lia]. }
  pose proof (siftup_sifted _ _ _ _ Hup) as (Hlen2 & Hel2 & Hcaches & Hc2)%sifted_frame.
  specialize (Hc2 Hc1).
  apply siftup_root_ordered with (less := less) in Hup as Ho2; auto.
  2:{ subst s1. simpl. by apply down_inv_removelast, down_inv_root_replaced. }
  destruct (maybe_del_last_item_runs r s2) as [s3 H3].
  destruct (maybe_del_max_item_runs r s3) as [s4 H4].
  exists r, s4. split.
  { rewrite (pop_unfold s r b) by done. fold s1.
    rewrite (bind_step _ _ _ _ _ Hup), (bind_step _ _ _ _ _ H3).
    by rewrite (bind_step _ _ _ _ _ H4). }
  apply maybe_del_last_item_Ok in H3. apply maybe_del_max_item_Ok in H4.
  destruct Hcaches as (Hsz & _).
  destruct (pop_presift_elem_of _ _ _ _ Hc Hr Hb) as [Hnotin Hel].
  same_store. rewrite Hlen2. subst s1. simpl in *.
  rewrite length_removelast, length_insert.
  split; [done|]. split; [done|]. split; [done|]. split; [done|].
  split; [by rewrite Hel2|]. split; [|congruence].
  intros y. by rewrite Hel, Hel2.
Qed.
End Pop.

Section SetSize.
Context {T : Type} `{Countable T}.
Variable comp : T → T → option bool.
Variable less : T → T → bool.
Hypothesis Hff : failure_free comp less.
Hypothesis swo : StrictWeakOrder less.
Implicit Types s : EHeapQ T.

Lemma index_consistent_NoDup (m : gmap T nat) (l : list T) :
  index_consistent m l → NoDup l.
Proof.
  intros Hc. apply NoDup_alt. intros i j x Hi Hj.
  by eapply index_consistent_inj.
Qed.

Lemma set_size_loop_unfold fuel s :
  set_size_loop comp fuel s =
    if decide (size s < N.of_nat (length (heap s)))%N then
      match fuel with
      | 0 => OutOfFuel
      | S fuel' => (pop comp ;;; set_size_loop comp fuel') s
      end
    else Ok tt s.
Proof. destruct fuel; simpl; unfold bind, heap_size, get_size; by case_decide. Qed.

Lemma set_size_loop_spec fuel s :
  heap_ordered less (heap s) → index_consistent (index_map s) (heap s) →
  length (heap s) ≤ N.to_nat (size s) + fuel →
  ∃ s', set_size_loop comp fuel s = Ok tt s' ∧
    heap_ordered less (heap s') ∧
    index_consistent (index_map s') (heap s') ∧
    size s' = size s ∧
    length (heap s') = length (heap s) `min` N.to_nat (size s) ∧
    (∀ y, y ∈ heap s' → y ∈ heap s) ∧
    (∀ x y, x ∈ heap s → x ∉ heap s' → y ∈ heap s' → less y x = false).
Proof.
  revert s. induction fuel as [|fuel IH]; intros s Ho Hc Hfuel.
  - exists s. split.
    { rewrite set_size_loop_unfold. by rewrite decide_False by lia. }
    split; [done|]. split; [done|]. split; [done|]. split; [lia|].
    split; [done|]. intros x y Hx Hnx. done.
  - destruct (decide (size s < N.of_nat (length (heap s)))%N) as [Hlt|Hge].
    2:{ exists s. split.
        { rewrite set_size_loop_unfold. by rewrite decide_False. }
        split; [done|]. split; [done|]. split; [done|]. split; [lia|].
        split; [done|]. intros x y Hx Hnx. done. }
    destruct (pop_spec comp less Hff swo s Ho Hc)
      as (r & s1 & Hpop & Hr & Ho1 & Hc1 & Hlen1 & Hr1 & Hel1 & Hsz1).
    { intros He. rewrite He in Hlt. simpl in Hlt. lia. }
    destruct (IH s1 Ho1 Hc1) as (s' & Hrun & Ho' & Hc' & Hsz' & Hlen' & Hsub & Hdom).
    { rewrite Hsz1. lia. }
    exists s'. split.
    { rewrite set_size_loop_unfold, decide_True by done.
      by rewrite (bind_step _ _ _ _ _ Hpop). }
    split; [done|]. split; [done|]. split; [congruence|].
    split; [rewrite Hlen', Hsz1; lia|]. split.
    + intros y Hy%Hsub. apply Hel1. by right.
    + intros x y Hx Hnx Hy. apply Hel1 in Hx as [->|Hx]; [|by eapply Hdom].
      apply (root_is_minimum less swo _ _ Ho Hr). apply Hel1. right. by apply Hsub.
Qed.

Lemma set_size_spec sz s :
  heap_ordered less (heap s) → index_consistent (index_map s) (heap s) →
  ∃ s', set_size comp sz s = Ok tt s' ∧
    heap_ordered less (heap s') ∧
    index_consistent (index_map s') (heap s') ∧
    size s' = sz ∧
    length (heap s') = length (heap s) `min` N.to_nat sz ∧
    (∀ y, y ∈ heap s' → y ∈ heap s) ∧
    (∀ x y, x ∈ heap s → x ∉ heap s' → y ∈ heap s' → less y x = false).
Proof.
  intros Ho Hc.
  destruct (set_size_loop_spec (length (heap s)) (with_size sz s))
    as (s' & Hrun & Hrest); [done|done|simpl; lia|].
  exists s'. split; [|done].
  unfold set_size. unfold bind at 1. unfold bind at 1, heap_size at 1. done.
Qed.
End SetSize.

Section ReadOnly.
Context {T : Type} `{Countable T}.
Variable comp : T → T → option bool.
Implicit Types s : EHeapQ T.

Lemma get_top_spec s x :
  heap s !! 0 = Some x → get_top s = Ok x s.
Proof.
  intros Hx. unfold get_top.
  assert (heap s ≠ []) as Hne by (by intros He; rewrite He in Hx).
  rewrite (bind_step _ _ _ _ _ (throw_on_empty_step s Hne)).
  unfold heap_at. by rewrite Hx.
Qed.

Lemma pushpop_reject item s :
  heap s ≠ [] → index_map s !! item = None →
  (∀ top, heap s !! 0 = Some top → comp top item = Some false) →
  pushpop comp item s = Ok item s.
Proof.
  intros Hne Hfree Hcmp. unfold pushpop.
  unfold bind at 1, index_find at 1. rewrite Hfree.
  unfold bind at 1, heap_size at 1.
  assert (0 < length (heap s)) as Hlen by (destruct (heap s); simpl; [done|lia]).
  destruct (lookup_lt_is_Some_2 (heap s) 0 Hlen) as [top Htop].
  rewrite decide_True by done.
  unfold bind, heap_at, compare. rewrite Htop, (Hcmp top Htop). done.
Qed.
End ReadOnly.

Section Reachable.
Context {T : Type} `{Countable T}.
Variable comp : T → T → option bool.
Variable less : T → T → bool.
Hypothesis Hff : failure_free comp less.
Hypothesis swo : StrictWeakOrder less.
Implicit Types s : EHeapQ T.

Lemma run_op_ordered o s s' :
  run_op comp o s = Ok tt s' →
  heap_ordered less (heap s) → heap_ordered less (heap s').
Proof.
  destruct o as [item|item| |item|item|sz|]; simpl; intros Hrun Ho.
  - by eapply push_ordered.
  - inv_bind Hrun as r s1 Hr. inv_step Hrun. by eapply pushpop_ordered.
  - inv_bind Hrun as r s1 Hr. inv_step Hrun. by eapply pop_ordered.
  - inv_bind Hrun as r s1 Hr. inv_step Hrun. by eapply replace_ordered.
  - by eapply remove_ordered.
  - by eapply set_size_ordered.
  - inv_bind Hrun as r s1 Hr. inv_step Hrun.
    apply get_max_Ok in Hr as (Hs & _). same_store.
Qed.

Lemma run_ops_reachable os s s' :
  reachable comp s → run_ops comp os s = Ok tt s' → reachable comp s'.
Proof.
  revert s. induction os as [|o os IH]; intros s Hs Hrun; simpl in Hrun.
  - by inv_step Hrun.
  - inv_bind Hrun as [] s1 Ho. eapply IH; [|done]. by eapply reachable_step.
Qed.
End Reachable.

(** * The loop bounds of the model are never exhausted *)

Section Fuel.
Context {T : Type} `{Countable T}.
Implicit Types s : EHeapQ T.

Lemma bind_fuel {A B} (m : M T A) (k : A → M T B) s :
  m s ≠ OutOfFuel →
  (∀ a s1, m s = Ok a s1 → k a s1 ≠ OutOfFuel) →
  bind m k s ≠ OutOfFuel.
Proof. unfold bind. destruct (m s); naive_solver. Qed.

Lemma try_catch_fuel {A} (m : M T A) (h : exn → M T A) s :
  m s ≠ OutOfFuel →
  (∀ e s1, m s = Throw e s1 → h e s1 ≠ OutOfFuel) →
  try_catch m h s ≠ OutOfFuel.
Proof. unfold try_catch. destruct (m s); naive_solver. Qed.

Lemma heap_size_fuel s : heap_size s ≠ OutOfFuel.
Proof. done. Qed.
Lemma get_size_fuel s : get_size s ≠ OutOfFuel.
Proof. done. Qed.
Lemma data_get_fuel i s : data_get i s ≠ OutOfFuel.
Proof. unfold data_get. by case_match. Qed.
Lemma data_set_fuel i x s : data_set i x s ≠ OutOfFuel.
Proof. unfold data_set. by case_match. Qed.
Lemma heap_at_fuel i s : heap_at i s ≠ OutOfFuel.
Proof. unfold heap_at. by case_match. Qed.
Lemma heap_back_fuel s : heap_back s ≠ OutOfFuel.
Proof. unfold heap_back. by case_match. Qed.
Lemma push_back_fuel x s : push_back x s ≠ OutOfFuel.
Proof. done. Qed.
Lemma pop_back_fuel s : pop_back s ≠ OutOfFuel.
Proof. unfold pop_back. by case_match. Qed.
Lemma index_find_fuel x s : index_find x s ≠ OutOfFuel.
Proof. done. Qed.
Lemma index_insert_fuel x i s : index_insert x i s ≠ OutOfFuel.
Proof. done. Qed.
Lemma index_erase_fuel x s : index_erase x s ≠ OutOfFuel.
Proof. done. Qed.
Lemma index_at_put_fuel x i s : index_at_put x i s ≠ OutOfFuel.
Proof. unfold index_at_put. by case_match. Qed.
Lemma ret_fuel {A} (a : A) s : ret a s ≠ OutOfFuel.
Proof. done. Qed.
Lemma throw_fuel {A} e s : throw (A:=A) e s ≠ OutOfFuel.
Proof. done. Qed.
Lemma undefined_fuel {A} s : undefined (A:=A) s ≠ OutOfFuel.
Proof. done. Qed.
Lemma throw_on_empty_fuel s : throw_on_empty s ≠ OutOfFuel.
Proof. unfold throw_on_empty, bind, heap_size. by case_decide. Qed.
Lemma set_last_item_fuel x s : set_last_item x s ≠ OutOfFuel.
Proof. done. Qed.
Lemma set_max_item_fuel x s : set_max_item x s ≠ OutOfFuel.
Proof. done. Qed.
Lemma maybe_del_last_item_fuel x s : maybe_del_last_item x s ≠ OutOfFuel.
Proof. unfold maybe_del_last_item. by case_match. Qed.
Lemma maybe_del_max_item_fuel x s : maybe_del_max_item x s ≠ OutOfFuel.
Proof. unfold maybe_del_max_item. by case_match. Qed.

Variable comp : T → T → option bool.

Lemma compare_fuel a b s : compare comp a b s ≠ OutOfFuel.
Proof. unfold compare. by case_match. Qed.
Lemma maybe_adjust_max_fuel x s : maybe_adjust_max comp x s ≠ OutOfFuel.
Proof.
  unfold maybe_adjust_max, noexcept, bind, compare, ret.
  repeat case_match; simplify_eq; done.
Qed.
End Fuel.

Create HintDb fuel discriminated.
#[export] Hint Resolve heap_size_fuel get_size_fuel data_get_fuel data_set_fuel
  heap_at_fuel heap_back_fuel push_back_fuel pop_back_fuel index_find_fuel
  index_insert_fuel index_erase_fuel index_at_put_fuel ret_fuel throw_fuel
  undefined_fuel throw_on_empty_fuel set_last_item_fuel set_max_item_fuel
  maybe_del_last_item_fuel maybe_del_max_item_fuel compare_fuel
  maybe_adjust_max_fuel : fuel.

(** One step of a proof that a sequence of calls does not exhaust a bound:
    the first call does not, and the rest is considered after it returned. *)
Ltac fuel_step :=
  lazymatch goal with
  | |- bind _ _ _ ≠ OutOfFuel =>
    let a := fresh "a" in
    let s := fresh "s" in
    let Hm := fresh "Hm" in
    apply bind_fuel; [auto with fuel|intros a s Hm; try inv_step Hm]
  | |- _ => auto with fuel
  end.

Section FuelLoops.
Context {T : Type} `{Countable T}.
Variable comp : T → T → option bool.
Implicit Types s : EHeapQ T.

Lemma siftdown_loop_fuel fuel k pos x s :
  pos ≤ fuel → siftdown_loop comp fuel k pos x s ≠ OutOfFuel.
Proof.
  revert pos x s. induction fuel as [|fuel IH]; intros pos x s Hfuel; simpl.
  { by rewrite decide_False by lia. }
  case_decide as Hk; [|done]. fold (parent pos).
  do 2 fuel_step. destruct a0; simpl; [|done].
  do 6 fuel_step. apply IH. pose proof (parent_lt pos). lia.
Qed.

Lemma siftdown_fuel k pos s : siftdown comp k pos s ≠ OutOfFuel.
Proof.
  unfold siftdown. fuel_step. case_decide; [done|]. fuel_step.
  by apply siftdown_loop_fuel.
Qed.

Lemma siftup_loop_fuel fuel endpos limit pos s :
  limit ≤ pos + fuel → siftup_loop comp fuel endpos limit pos s ≠ OutOfFuel.
Proof.
  revert pos s. induction fuel as [|fuel IH]; intros pos s Hfuel; simpl.
  { by rewrite decide_False by lia. }
  case_decide as Hk; [|done].
  apply bind_fuel.
  { case_decide; [|done]. by do 3 fuel_step. }
  intros cp s1 Hcp.
  assert (pos < cp) as Hlt.
  { case_decide.
    - do 3 mstep Hcp. inv_prim Hcp. subst. lia.
    - inv_prim Hcp. subst. lia. }
  do 6 fuel_step. apply IH. lia.
Qed.

Lemma siftup_fuel k s : siftup comp k s ≠ OutOfFuel.
Proof.
  unfold siftup. fuel_step. cbv zeta. apply bind_fuel.
  - apply siftup_loop_fuel. lia.
  - intros pos s1 _. apply siftdown_fuel.
Qed.
End FuelLoops.

#[export] Hint Resolve siftdown_fuel siftup_fuel : fuel.

Section FuelMethods.
Context {T : Type} `{Countable T}.
Variable comp : T → T → option bool.
Implicit Types s : EHeapQ T.

Lemma get_top_fuel s : get_top s ≠ OutOfFuel.
Proof. unfold get_top. by do 2 fuel_step. Qed.

Lemma get_last_fuel s : get_last s ≠ OutOfFuel.
Proof. unfold get_last. fuel_step. case_decide; [done|]. by case_match. Qed.

Lemma get_max_scan_fuel idxs r s : get_max_scan comp idxs r s ≠ OutOfFuel.
Proof.
  revert r s. induction idxs as [|i idxs IH]; intros r s; simpl; [done|].
  do 2 fuel_step. apply bind_fuel; [by destruct a0; auto with fuel|].
  intros. apply IH.
Qed.

Lemma get_max_fuel s : get_max comp s ≠ OutOfFuel.
Proof.
  unfold get_max. fuel_step. case_match; [done|]. do 2 fuel_step.
  apply bind_fuel; [apply get_max_scan_fuel|]. intros. by do 2 fuel_step.
Qed.

Lemma pushpop_fuel item s : pushpop comp item s ≠ OutOfFuel.
Proof.
  unfold pushpop. fuel_step. case_match; [done|]. fuel_step.
  apply bind_fuel.
  { case_decide; [|done]. by do 2 fuel_step. }
  intros [] s1 _; [|done]. by do 9 fuel_step.
Qed.

Lemma push_fuel item s : push comp item s ≠ OutOfFuel.
Proof.
  unfold push. fuel_step. case_match; [done|]. do 2 fuel_step.
  case_decide.
  { apply bind_fuel; [apply pushpop_fuel|done]. }
  do 2 fuel_step. apply bind_fuel.
  { apply try_catch_fuel; [by do 2 fuel_step|]. intros. by do 3 fuel_step. }
  intros. do 2 fuel_step. case_decide; auto with fuel.
Qed.

Lemma pop_fuel s : pop comp s ≠ OutOfFuel.
Proof.
  unfold pop. do 3 fuel_step. apply bind_fuel.
  { case_decide; [|done]. by do 4 fuel_step. }
  intros. by do 6 fuel_step.
Qed.

Lemma replace_fuel item s : replace comp item s ≠ OutOfFuel.
Proof.
  unfold replace. do 2 fuel_step. case_match; [done|]. by do 9 fuel_step.
Qed.

Lemma remove_fuel item s : remove comp item s ≠ OutOfFuel.
Proof.
  unfold remove. do 2 fuel_step. case_match; [|done].
  apply bind_fuel.
  { case_decide; [|done]. by do 2 fuel_step. }
  intros is_tail s1 _. apply bind_fuel.
  - destruct is_tail; [by do 2 fuel_step|].
    fuel_step. apply bind_fuel; [case_decide; auto with fuel|].
    intros x s2 _. do 4 fuel_step. case_decide; [|auto with fuel].
    by do 2 fuel_step.
  - intros. by do 2 fuel_step.
Qed.

(** A pop that returns shortens the vector by one element. *)
Lemma pop_length s r s' :
  pop comp s = Ok r s' → length (heap s') = length (heap s) - 1.
Proof.
  unfold pop. intros Hrun.
  do 3 mstep' Hrun. inv_bind Hrun as [] s1 Hpre.
  assert (length (heap s1) = length (heap s)) as Hlen1.
  { case_decide.
    - do 3 mstep' Hpre. inv_step Hpre. simpl. by rewrite length_insert.
    - by inv_step Hpre. }
  do 2 mstep' Hrun. inv_bind Hrun as [] s2 Hs.
  apply siftup_sifted, sifted_frame in Hs as (Hlen2 & _).
  do 2 mstep' Hrun. inv_step Hrun. same_store.
  rewrite Hlen2, length_removelast. lia.
Qed.

Lemma set_size_loop_fuel fuel s :
  length (heap s) ≤ fuel → set_size_loop comp fuel s ≠ OutOfFuel.
Proof.
  revert s. induction fuel as [|fuel IH]; intros s Hfuel;
    rewrite set_size_loop_unfold; case_decide as Hlt; try done.
  - lia.
  - apply bind_fuel; [apply pop_fuel|]. intros r s1 Hpop.
    apply IH. apply pop_length in Hpop. lia.
Qed.

Lemma set_size_fuel sz s : set_size comp sz s ≠ OutOfFuel.
Proof.
  unfold set_size. apply bind_fuel; [done|]. intros [] s1 Hs. simplify_eq.
  fuel_step. by apply set_size_loop_fuel.
Qed.

Lemma run_op_fuel o s : run_op comp o s ≠ OutOfFuel.
Proof.
  destruct o; simpl;
    [apply push_fuel
    |apply bind_fuel; [apply pushpop_fuel|done]
    |apply bind_fuel; [apply pop_fuel|done]
    |apply bind_fuel; [apply replace_fuel|done]
    |apply remove_fuel
    |apply set_size_fuel
    |apply bind_fuel; [apply get_max_fuel|done]].
Qed.
End FuelMethods.

(** * The instances of the examples *)

Lemma int_less_failure_free : failure_free int_less Z.ltb.
Proof. intros a b. reflexivity. Qed.

Lemma Zltb_strict_weak_order : StrictWeakOrder Z.ltb.
Proof. split; intros; lia. Qed.

Lemma sample_consistent : index_consistent (index_map sample) (heap sample).
Proof.
  split; [|by vm_compute].
  intros [|[|[|i]]] x Hx; simpl in Hx; simplify_eq; by vm_compute.
Qed.

Lemma sample_ordered : heap_ordered Z.ltb (heap sample).
Proof.
  intros [|[|[|i]]] x p Hi Hx Hp; simpl in Hx; simplify_eq; try lia;
    vm_compute in Hp; by simplify_eq.
Qed.

Lemma after_reachable comp sz os s :
  after comp sz os = Ok tt s → reachable comp s.
Proof. unfold after. apply run_ops_reachable, reachable_new. Qed.

(** * The claims *)

(** C2, heap-order invariant.  In every state built from a new object
    by calls of push, pushpop, pop, replace, remove, set_size (and get_max)
    that returned, under a comparator that never fails and is a strict
    weak order, no element precedes the element at its parent position
    ⌊(i − 1) / 2⌋. *)
Theorem heap_order_invariant {T : Type} `{Countable T}
    (comp : T → T → option bool) (less : T → T → bool) (s : EHeapQ T) :
  failure_free comp less → StrictWeakOrder less →
  reachable comp s → heap_ordered less (heap s).
Proof.
  intros Hff swo. induction 1 as [sz l0 m0|s o s' _ IH Hrun].
  - intros i x p _ Hx. by destruct i.
  - by eapply run_op_ordered.
Qed.

Lemma heap_order_invariant_witness :
  ∃ s, after int_less 3 demo_ops = Ok tt s ∧ heap_ordered Z.ltb (heap s).
Proof.
  eexists. split; [vm_compute; reflexivity|].
  apply (heap_order_invariant int_less Z.ltb).
  - intros a b. reflexivity.
  - split; intros; lia.
  - apply (after_reachable int_less 3 demo_ops). vm_compute. reflexivity.
Defined.

(** C4, pushpop rejection law.  On a non-empty heap, for an item whose
    key is not stored, when the comparator answers that the top does not
    precede the item, pushpop returns the item and the object (vector,
    index, capacity, caches) is exactly as before. *)
Theorem pushpop_rejection {T : Type} `{Countable T}
    (comp : T → T → option bool) (item : T) (s : EHeapQ T) :
  heap s ≠ [] → index_map s !! item = None →
  (∀ top, heap s !! 0 = Some top → comp top item = Some false) →
  pushpop comp item s = Ok item s.
Proof. intros. by apply pushpop_reject. Qed.

Lemma pushpop_rejection_witness : pushpop int_less 1%Z sample = Ok 1%Z sample.
Proof.
  apply pushpop_rejection.
  - simpl. discriminate.
  - vm_compute. reflexivity.
  - intros top Htop. simpl in Htop. injection Htop as <-. reflexivity.
Defined.

(** C6 as amended, leaf range of the max scan.  In a non-empty ordered
    heap a maximum sits at an index of the range ⌊length/2⌋ … length − 1,
    and get_max, when no cached value is set, returns such a maximum from
    that range. *)
Theorem max_in_leaf_range {T : Type} `{Countable T}
    (comp : T → T → option bool) (less : T → T → bool) (s : EHeapQ T) :
  failure_free comp less → StrictWeakOrder less →
  heap s ≠ [] → heap_ordered less (heap s) →
  (∃ i m, length (heap s) / 2 ≤ i < length (heap s) ∧
          heap s !! i = Some m ∧ is_maximum less (heap s) m) ∧
  (max_item_set s = false →
   ∃ m i s', get_max comp s = Ok m s' ∧
             length (heap s) / 2 ≤ i < length (heap s) ∧
             heap s !! i = Some m ∧ is_maximum less (heap s) m).
Proof.
  intros Hff swo Hne Ho. split.
  - destruct (get_max_unset_spec comp less Hff swo (with_max (max_item s) false s))
      as (m & i & s' & _ & Hi & Hm & Hmax); eauto.
  - intros Hset. by apply (get_max_unset_spec comp less).
Qed.

Lemma max_in_leaf_range_witness :
  (∃ i m, length (heap odd_heap) / 2 ≤ i < length (heap odd_heap) ∧
          heap odd_heap !! i = Some m ∧ is_maximum Z.ltb (heap odd_heap) m) ∧
  (max_item_set odd_heap = false →
   ∃ m i s', get_max int_less odd_heap = Ok m s' ∧
             length (heap odd_heap) / 2 ≤ i < length (heap odd_heap) ∧
             heap odd_heap !! i = Some m ∧ is_maximum Z.ltb (heap odd_heap) m).
Proof.
  apply (max_in_leaf_range int_less Z.ltb odd_heap).
  - intros a b. reflexivity.
  - split; intros; lia.
  - simpl. discriminate.
  - intros [|[|[|i]]] x p Hi Hx Hp; simpl in Hx; try discriminate; try lia;
      vm_compute in Hp; injection Hx as <-; injection Hp as <-; reflexivity.
Defined.

(** C6 as stated fails for odd lengths: in the ordered heap [1; 3; 2] the
    maximum 3 is at index 1, below ⌈3/2⌉ = 2; no index of the range
    ⌈length/2⌉ … length − 1 holds a maximum, and get_max returns the
    element at index 1. *)
Lemma max_below_ceil_range :
  heap odd_heap ≠ [] ∧ heap_ordered Z.ltb (heap odd_heap) ∧
  max_item_set odd_heap = false ∧
  (¬ ∃ i m, (length (heap odd_heap) + 1) / 2 ≤ i < length (heap odd_heap) ∧
            heap odd_heap !! i = Some m ∧ is_maximum Z.ltb (heap odd_heap) m) ∧
  (∃ s', get_max int_less odd_heap = Ok 3%Z s') ∧
  heap odd_heap !! 1 = Some 3%Z.
Proof.
  split; [simpl; discriminate|]. split.
  { intros [|[|[|i]]] x p Hi Hx Hp; simpl in Hx; try discriminate; try lia;
      vm_compute in Hp; injection Hx as <-; injection Hp as <-; reflexivity. }
  split; [reflexivity|]. split.
  { intros (i & m & Hi & Hm & _ & Hmax). simpl in Hi.
    change ((3 + 1) / 2) with 2 in Hi. assert (i = 2) as -> by lia.
    simpl in Hm. injection Hm as <-.
    specialize (Hmax 3%Z). simpl in Hmax.
    assert (3%Z ∈ [1; 3; 2]%Z) as Hin by (right; left).
    specialize (Hmax Hin). discriminate. }
  split; [eexists; vm_compute; reflexivity|reflexivity].
Qed.

(** C7, shrink retains the largest, fails on the code: set_size pops
    through the index, and remove can leave the index without a record
    of a stored element.  After push 1, push 2, push 3, remove 2, push 4,
    remove 3 the heap holds the distinct elements 1 and 3 in heap order,
    and the index records 1 and 4.  set_size(1) then copies the tail 3
    over the root inside pop, fails to find 3 in the index and leaves
    with std::out_of_range: the vector is [3; 3], longer than the new
    capacity 1, and the largest element is there twice while nothing was
    dropped. *)
Theorem set_size_throws_on_stale_index :
  ∃ s s', after int_less EHEAPQ_DEFAULT_SIZE
            [OpPush 1; OpPush 2; OpPush 3; OpRemove 2; OpPush 4; OpRemove 3]%Z
            = Ok tt s ∧
          heap s = [1; 3]%Z ∧ NoDup (heap s) ∧ heap_ordered Z.ltb (heap s) ∧
          index_map s !! 3%Z = None ∧
          set_size int_less 1 s = Throw StdOutOfRange s' ∧
          heap s' = [3; 3]%Z ∧ size s' = 1%N ∧
          (size s' < N.of_nat (length (heap s')))%N.
Proof.
  eexists _, _. split; [vm_compute; reflexivity|]. split; [reflexivity|].
  split.
  { apply (bool_decide_unpack (NoDup [1; 3]%Z)). vm_compute. exact I. }
  split.
  { intros [|[|i]] x p Hi Hx Hp; simpl in Hx; try discriminate; try lia.
    vm_compute in Hp. injection Hx as <-. injection Hp as <-. reflexivity. }
  split; [vm_compute; reflexivity|].
  split; [vm_compute; reflexivity|].
  split; [reflexivity|]. split; [reflexivity|]. simpl. lia.
Qed.

(** C10, get_top.  On a non-empty ordered heap get_top returns the
    element at the root, which no stored element precedes, and leaves the
    object exactly as it was. *)
Theorem get_top_minimum {T : Type} `{Countable T}
    (less : T → T → bool) (s : EHeapQ T) :
  StrictWeakOrder less → heap s ≠ [] → heap_ordered less (heap s) →
  ∃ x, get_top s = Ok x s ∧ heap s !! 0 = Some x ∧
       ∀ y, y ∈ heap s → less y x = false.
Proof.
  intros swo Hne Ho.
  destruct (lookup_lt_is_Some_2 (heap s) 0) as [x Hx].
  { destruct (heap s); simpl; [done|lia]. }
  exists x. split; [by apply get_top_spec|]. split; [done|].
  by apply (root_is_minimum less swo).
Qed.

Lemma get_top_minimum_witness :
  ∃ x, get_top sample = Ok x sample ∧ heap sample !! 0 = Some x ∧
       ∀ y, y ∈ heap sample → (y <? x)%Z = false.
Proof.
  apply (get_top_minimum Z.ltb sample).
  - split; intros; lia.
  - simpl. discriminate.
  - intros [|[|[|i]]] x p Hi Hx Hp; simpl in Hx; try discriminate; try lia;
      vm_compute in Hp; injection Hx as <-; injection Hp as <-; reflexivity.
Defined.

(** C1, index consistency, fails on the code: remove of a non-tail element
    moves the tail element into the hole without recording its new
    position.  After push 1, push 2, push 3, remove 2 the element 3 is at
    position 1 and the index still says 2. *)
Theorem remove_leaves_stale_index :
  ∃ s, after int_less EHEAPQ_DEFAULT_SIZE
         [OpPush 1; OpPush 2; OpPush 3; OpRemove 2]%Z = Ok tt s ∧
       heap s = [1; 3]%Z ∧ index_map s !! 3%Z = Some 2 ∧
       ¬ index_consistent (index_map s) (heap s).
Proof.
  eexists. split; [vm_compute; reflexivity|]. split; [reflexivity|].
  split; [vm_compute; reflexivity|].
  intros [Hm _]. specialize (Hm 1 3%Z eq_refl). vm_compute in Hm. discriminate.
Qed.

(** C3, strong exception safety, fails on the code: push undoes only the
    tail slot.  With [1; 5; 7] stored, push 0 exchanges 0 with 5, the
    comparator then fails on (0, 1), and the handler erases 0 from the
    index and drops the tail, which by then holds 5. *)
Theorem push_failure_not_rolled_back :
  ∃ s s', after fragile_less EHEAPQ_DEFAULT_SIZE
            [OpPush 1; OpPush 5; OpPush 7]%Z = Ok tt s ∧
          push fragile_less 0%Z s = Throw CompareError s' ∧
          heap s = [1; 5; 7]%Z ∧ heap s' = [1; 0; 7]%Z ∧
          index_map s !! 5%Z = Some 1 ∧ index_map s' !! 5%Z = Some 3 ∧
          index_map s' !! 0%Z = None.
Proof.
  eexists _, _. split; [vm_compute; reflexivity|].
  split; [vm_compute; reflexivity|].
  repeat split; vm_compute; reflexivity.
Qed.

(** The other methods have no handler at all: pop on [-5; 0; 1; 7] moves
    7 to the root, the comparator fails on the children (0, 1), and the
    root stays removed. *)
Example pop_failure_not_rolled_back :
  ∃ s s', after fragile_less EHEAPQ_DEFAULT_SIZE
            [OpPush 7; OpPush (-5); OpPush 1; OpPush 0]%Z = Ok tt s ∧
          pop fragile_less s = Throw CompareError s' ∧
          heap s = [-5; 0; 1; 7]%Z ∧ heap s' = [7; 0; 1]%Z.
Proof.
  eexists _, _. split; [vm_compute; reflexivity|].
  split; [vm_compute; reflexivity|]. split; reflexivity.
Qed.

(** C5, max-scan correctness, fails on the code: replace hands the evicted
    element, not the new one, to the cache helpers, so the cached maximum
    goes stale.  After push 5, push 1, replace 10 the heap is [5; 10] and
    get_max answers 5. *)
Theorem get_max_stale_after_replace :
  ∃ s s', after int_less EHEAPQ_DEFAULT_SIZE
            [OpPush 5; OpPush 1; OpReplace 10]%Z = Ok tt s ∧
          heap s = [5; 10]%Z ∧
          get_max int_less s = Ok 5%Z s' ∧
          linear_scan_max Z.ltb (heap s) = Some 10%Z.
Proof.
  eexists _, _. split; [vm_compute; reflexivity|]. split; [reflexivity|].
  split; [vm_compute; reflexivity|]. reflexivity.
Qed.

(** C8, last-inserted cache after replace, fails on the code: replace
    records the evicted minimum.  On [3; 8; 5], replace 4 returns 3 and
    get_last then answers 3, which is no longer stored. *)
Theorem replace_caches_evicted_item :
  ∃ s s', after int_less EHEAPQ_DEFAULT_SIZE
            [OpPush 3; OpPush 8; OpPush 5]%Z = Ok tt s ∧
          replace int_less 4%Z s = Ok 3%Z s' ∧
          heap s' = [4; 8; 5]%Z ∧
          last_item_set s' = true ∧ last_item s' = 3%Z ∧
          get_last s' = Ok 3%Z s'.
Proof.
  eexists _, _. split; [vm_compute; reflexivity|].
  split; [vm_compute; reflexivity|]. repeat split.
Qed.

(** C9, get_max caches its result, fails on the code: get_max stores the
    value in [max_item] and leaves [max_item_set] as it was.  After
    push 1, push 0, remove 1 the flag is unset; get_max answers 0 and the
    flag is still unset. *)
Theorem get_max_does_not_set_cache :
  ∃ s s', after int_less EHEAPQ_DEFAULT_SIZE
            [OpPush 1; OpPush 0; OpRemove 1]%Z = Ok tt s ∧
          max_item_set s = false ∧
          get_max int_less s = Ok 0%Z s' ∧
          max_item s' = 0%Z ∧ max_item_set s' = false.
Proof.
  eexists _, _. split; [vm_compute; reflexivity|]. split; [reflexivity|].
  split; [vm_compute; reflexivity|]. split; reflexivity.
Qed.

(** * Further lemmas on the methods *)

(** * The keys of the index during the sift passes *)

Section IndexKeys.
Context {T : Type} `{Countable T}.
Variable comp : T → T → option bool.
Implicit Types s : EHeapQ T.

Lemma exchange_state_keys a b x p s key :
  is_Some (index_map s !! x) → is_Some (<[x:=a]> (index_map s) !! p) →
  is_Some (index_map (exchange_state a b x p s) !! key) ↔
  is_Some (index_map s !! key).
Proof.
  intros Hx Hp. simpl. rewrite !lookup_insert_is_Some.
  rewrite lookup_insert_is_Some in Hp.
  split.
  - intros [<-|[_ [<-|[_ Hk]]]]; try done.
    destruct Hp as [<-|[_ Hp]]; done.
  - intros Hk. destruct (decide (p = key)); [by left|right]. split; [done|].
    destruct (decide (x = key)); [by left|by right].
Qed.

Lemma siftdown_loop_keys fuel k pos x s s' key :
  siftdown_loop comp fuel k pos x s = Ok tt s' →
  is_Some (index_map s' !! key) ↔ is_Some (index_map s !! key).
Proof.
  revert pos x s. induction fuel as [|fuel IH]; intros pos x s Hrun; simpl in Hrun.
  { case_decide; [done|]. by inv_prim Hrun. }
  case_decide; [|by inv_prim Hrun].
  do 2 mstep Hrun. destruct a0; simpl in Hrun; [|by inv_prim Hrun].
  do 6 mstep Hrun. apply IH in Hrun. rewrite Hrun.
  by apply (exchange_state_keys _ _ _ _ s).
Qed.

Lemma siftdown_keys k pos s s' key :
  siftdown comp k pos s = Ok tt s' →
  is_Some (index_map s' !! key) ↔ is_Some (index_map s !! key).
Proof.
  unfold siftdown. intros Hrun. mstep Hrun.
  case_decide; [by inv_prim Hrun|]. mstep Hrun. by eapply siftdown_loop_keys.
Qed.

Lemma siftup_loop_keys fuel endpos limit pos s pos' s' key :
  siftup_loop comp fuel endpos limit pos s = Ok pos' s' →
  is_Some (index_map s' !! key) ↔ is_Some (index_map s !! key).
Proof.
  revert pos s. induction fuel as [|fuel IH]; intros pos s Hrun; simpl in Hrun.
  { case_decide; [done|]. by inv_prim Hrun. }
  case_decide; [|by inv_prim Hrun].
  inv_bind Hrun as cp s0 Hcp.
  assert (s0 = s) as ->.
  { destruct (decide (2 * pos + 1 + 1 < endpos)).
    - do 3 mstep Hcp. by inv_prim Hcp.
    - by inv_prim Hcp. }
  do 6 mstep Hrun. apply IH in Hrun. rewrite Hrun.
  by apply (exchange_state_keys _ _ _ _ s).
Qed.

Lemma siftup_keys k s s' key :
  siftup comp k s = Ok tt s' →
  is_Some (index_map s' !! key) ↔ is_Some (index_map s !! key).
Proof.
  intros (pos & s1 & Hl & Hd)%siftup_Ok.
  apply siftup_loop_keys with (key := key) in Hl.
  apply siftdown_keys with (key := key) in Hd. by rewrite Hd.
Qed.
End IndexKeys.

(** * What a call that returned did, method by method *)

Section CacheHelpers.
Context {T : Type} `{Countable T}.
Implicit Types s : EHeapQ T.

Lemma maybe_del_max_item_last x s u s' :
  maybe_del_max_item x s = Ok u s' →
  last_item s' = last_item s ∧ last_item_set s' = last_item_set s.
Proof. unfold maybe_del_max_item. case_match; intros ?; by simplify_eq. Qed.

Lemma maybe_adjust_max_last comp x s u s' :
  maybe_adjust_max comp x s = Ok u s' →
  last_item s' = last_item s ∧ last_item_set s' = last_item_set s.
Proof.
  unfold maybe_adjust_max, noexcept, bind, compare, ret.
  destruct (max_item_set s); simpl.
  - destruct (comp (max_item s) x) as [[]|]; intros ?; by simplify_eq.
  - intros ?; by simplify_eq.
Qed.

End CacheHelpers.

Section Inversions.
Context {T : Type} `{Countable T}.
Variable comp : T → T → option bool.
Implicit Types s : EHeapQ T.

Lemma pushpop_inv item s r s' :
  pushpop comp item s = Ok r s' →
  index_map s !! item = None ∧
  ((r = item ∧ s' = s ∧
    (heap s = [] ∨ ∃ top, heap s !! 0 = Some top ∧ comp top item = Some false)) ∨
   ∃ s1 s2, heap s !! 0 = Some r ∧ comp r item = Some true ∧
     heap s1 = <[0:=item]> (heap s) ∧
     index_map s1 = delete r (<[item:=0]> (index_map s)) ∧
     same_caches s s1 ∧
     siftup comp 0 s1 = Ok tt s2 ∧ same_store s2 s' ∧
     last_item s' = item ∧ last_item_set s' = true ∧
     (maybe_del_max_item item ;;; maybe_adjust_max comp item ;;; ret r)
       (with_last item true s2) = Ok r s').
Proof.
  unfold pushpop. intros Hrun.
  mstep' Hrun. destruct (index_map s !! item) eqn:Hfree; [by inv_step Hrun|].
  split; [done|].
  mstep' Hrun. inv_bind Hrun as b s1 Hb.
  assert (s1 = s ∧
          (b = true → ∃ top, heap s !! 0 = Some top ∧ comp top item = Some true) ∧
          (b = false → heap s = [] ∨
                       ∃ top, heap s !! 0 = Some top ∧ comp top item = Some false))
    as (-> & Htop & Hrej).
  { case_decide as Hn.
    - mstep' Hb. inv_step Hb. split; [done|]. split; intros ->; eauto.
    - inv_step Hb. subst b. split; [done|]. split; [done|]. intros _. left.
      destruct (heap s); simpl in *; [done|lia]. }
  destruct b; [|inv_step Hrun; left; auto].
  destruct (Htop eq_refl) as (top & Htop0 & Hcmp). right.
  mstep' Hrun. assert (a = top) as -> by congruence.
  do 3 mstep' Hrun. inv_bind Hrun as [] s2 Hs.
  inv_bind Hrun as [] s3 H3. inv_step H3. pose proof Hrun as Htail.
  inv_bind Hrun as [] s4 H4. pose proof (maybe_del_max_item_last _ _ _ _ H4) as [Hl4 Hls4].
  inv_step H4.
  inv_bind Hrun as [] s5 H5. pose proof (maybe_adjust_max_last _ _ _ _ _ H5) as [Hl5 Hls5].
  inv_step H5. inv_step Hrun. subst r.
  match type of Hs with siftup _ _ ?s1 = _ => exists s1, s2 end.
  split; [done|]. split; [done|].
  split; [reflexivity|]. split.
  { simpl. by rewrite Hfree. }
  split; [by repeat split|]. split; [done|].
  split.
  { destruct H4 as (?&?&?), H5 as (?&?&?). simpl in *.
    repeat split; congruence. }
  simpl in *. split; [congruence|]. split; [congruence|done].
Qed.

Lemma replace_inv item s r s' :
  replace comp item s = Ok r s' →
  index_map s !! item = None ∧
  ∃ s1 s2, heap s !! 0 = Some r ∧
    heap s1 = <[0:=item]> (heap s) ∧
    index_map s1 = <[item:=0]> (delete r (index_map s)) ∧
    same_caches s s1 ∧
    siftup comp 0 s1 = Ok tt s2 ∧ same_store s2 s' ∧
    last_item s' = r ∧ last_item_set s' = true.
Proof.
  unfold replace. intros Hrun.
  do 2 mstep' Hrun. destruct (index_map s !! item) eqn:Hfree; [by inv_step Hrun|].
  split; [done|].
  do 4 mstep' Hrun. inv_bind Hrun as [] s2 Hs.
  inv_bind Hrun as [] s3 H3. inv_step H3.
  inv_bind Hrun as [] s4 H4. pose proof (maybe_del_max_item_last _ _ _ _ H4) as [Hl4 Hls4].
  inv_step H4.
  inv_bind Hrun as [] s5 H5. pose proof (maybe_adjust_max_last _ _ _ _ _ H5) as [Hl5 Hls5].
  inv_step H5. inv_step Hrun. subst r.
  match type of Hs with siftup _ _ ?s1 = _ => exists s1, s2 end.
  split; [done|]. split; [reflexivity|]. split.
  { simpl. by rewrite (proj2 (lookup_delete_None _ _ _) (or_intror Hfree)). }
  split; [by repeat split|]. split; [done|]. split.
  { destruct H4 as (?&?&?), H5 as (?&?&?). simpl in *.
    repeat split; congruence. }
  simpl in *. split; congruence.
Qed.

Lemma pop_inv s r s' :
  pop comp s = Ok r s' →
  ∃ b s2, heap s !! 0 = Some r ∧ last (heap s) = Some b ∧
    siftup comp 0 (pop_presift r b s) = Ok tt s2 ∧ same_store s2 s' ∧
    (maybe_del_last_item r ;;; maybe_del_max_item r ;;; ret r) s2 = Ok r s'.
Proof.
  unfold pop. intros Hrun.
  mstep' Hrun. inv_bind Hrun as root s0 Hroot. inv_step Hroot.
  mstep' Hrun. inv_bind Hrun as [] s1 Hpre.
  assert (∃ b, last (heap s) = Some b ∧
               with_index_map (delete root) (with_heap (fun l => removelast l) s1)
               = pop_presift root b s) as (b & Hb & Heq).
  { unfold pop_presift. case_decide as Hn.
    - inv_bind Hpre as b s0 Hb. inv_step Hb.
      do 2 mstep' Hpre. inv_step Hpre. exists b. split; [done|].
      match goal with
      | Hx : heap (with_heap _ _) !! 0 = Some ?x |- _ =>
        simpl in Hx; rewrite list_lookup_insert_eq in Hx by lia;
        assert (x = b) as -> by congruence
      end.
      done.
    - inv_step Hpre. exists root. split.
      + rewrite last_lookup. rewrite <-Hroot. f_equal.
        apply lookup_lt_Some in Hroot. destruct (heap s); simpl in *; lia.
      + unfold with_index_map, with_heap. simpl.
        by rewrite (list_insert_id _ _ _ Hroot). }
  do 2 mstep' Hrun. rewrite Heq in Hrun.
  inv_bind Hrun as [] s2 Hs. pose proof Hrun as Htail.
  inv_bind Hrun as [] s3 H3. inv_step H3.
  inv_bind Hrun as [] s4 H4. inv_step H4. inv_step Hrun. subst r.
  exists b, s2. split; [done|]. split; [done|]. split; [done|].
  split; [by eapply same_store_trans|done].
Qed.

Lemma push_inv item s s' :
  push comp item s = Ok tt s' →
  index_map s !! item = None ∧
  ((N.of_nat (length (heap s)) = size s ∧
    ∃ r, pushpop comp item s = Ok r s') ∨
   (N.of_nat (length (heap s)) ≠ size s ∧
    ∃ s1 s2, heap s1 = heap s ++ [item] ∧
      index_map s1 = <[item:=length (heap s)]> (index_map s) ∧
      same_caches s s1 ∧
      siftdown comp 0 (length (heap s)) s1 = Ok tt s2 ∧ same_store s2 s' ∧
      last_item s' = item ∧ last_item_set s' = true ∧
      (if decide (length (heap s2) = 1) then set_max_item item
       else maybe_adjust_max comp item) (with_last item true s2) = Ok tt s')).
Proof.
  unfold push. intros Hrun.
  mstep' Hrun. destruct (index_map s !! item) eqn:Hfree; [by inv_step Hrun|].
  split; [done|].
  do 2 mstep' Hrun. case_decide as Hcap.
  { left. split; [done|]. inv_bind Hrun as r s1 Hp. inv_step Hrun. eauto. }
  right. split; [done|].
  do 2 mstep' Hrun. inv_bind Hrun as [] s2 Hs.
  apply try_catch_Ok in Hs as [Hs|(e & s3 & _ & Hs)].
  2:{ do 2 mstep' Hs. inv_step Hs. }
  mstep' Hs. simpl in Hs. rewrite length_app in Hs. simpl in Hs.
  replace (length (heap s) + 1 - 1) with (length (heap s)) in Hs by lia.
  inv_bind Hrun as [] s3 H3. inv_step H3. mstep' Hrun. simpl in Hrun.
  pose proof Hrun as Htail.
  match type of Hs with siftdown _ _ _ ?s1 = _ => exists s1, s2 end.
  split; [reflexivity|]. split.
  { simpl. by rewrite Hfree. }
  split; [by repeat split|]. split; [done|].
  case_decide.
  - inv_step Hrun. simpl. by repeat split.
  - pose proof (maybe_adjust_max_last _ _ _ _ _ Hrun) as [Hl Hls].
    inv_step Hrun. destruct Hrun as (?&?&?). simpl in *.
    repeat split; congruence.
Qed.

(** [remove] with the key recorded at [idx]: either the item is the tail
    element, or the tail element is copied to [idx] before the vector is
    shortened and, when [idx] is still inside, the two sift passes run. *)
Lemma remove_inv item s s' :
  remove comp item s = Ok tt s' →
  ∃ idx, index_map s !! item = Some idx ∧
    ((last (heap s) = Some item ∧ heap s' = removelast (heap s) ∧
      index_map s' = delete item (index_map s) ∧ size s' = size s ∧
      (maybe_del_max_item item ;;; maybe_del_last_item item)
        (with_index_map (delete item) (with_heap (fun l => removelast l) s))
        = Ok tt s') ∨
     (∃ b s1 s2, last (heap s) = Some b ∧ b ≠ item ∧
        idx < length (heap s) ∧
        heap s1 = removelast (<[idx:=b]> (heap s)) ∧
        index_map s1 = delete item (index_map s) ∧
        same_caches s s1 ∧
        (if decide (idx < length (heap s) - 1)
         then ∃ s3, siftup comp idx s1 = Ok tt s3 ∧
                    siftdown comp 0 idx s3 = Ok tt s2
         else s2 = s1) ∧
        same_store s2 s' ∧
        (maybe_del_max_item item ;;; maybe_del_last_item item) s2 = Ok tt s')).
Proof.
  unfold remove. intros Hrun.
  do 2 mstep' Hrun. destruct (index_map s !! item) as [idx|] eqn:Hidx;
    [|by inv_step Hrun].
  exists idx. split; [done|].
  inv_bind Hrun as is_tail s1 Ht.
  assert (s1 = s ∧ (is_tail = true → last (heap s) = Some item) ∧
          (is_tail = false → last (heap s) ≠ Some item)) as (-> & Htail & Hnot).
  { case_decide as Hn.
    - mstep' Ht. inv_step Ht. subst is_tail. split; [done|].
      rewrite last_lookup.
      replace (pred (length (heap s))) with (length (heap s) - 1) by lia.
      rewrite Hm. split.
      + intros ?%bool_decide_eq_true. by subst.
      + intros ?%bool_decide_eq_false. congruence.
    - inv_step Ht. subst. split; [done|]. split; [done|]. intros _.
      destruct (heap s); simpl in *; [done|lia]. }
  clear Ht. inv_bind Hrun as [] s1 Hbody. pose proof Hrun as Hend.
  inv_bind Hrun as [] s2 H2. inv_step H2. inv_step Hrun.
  pose proof (same_store_trans _ _ _ H2 Hrun) as Hstore. clear H2 Hrun.
  destruct is_tail.
  - left. mstep' Hbody. inv_step Hbody. destruct Hstore as (?&?&?).
    simpl in *. split; [by apply Htail|]. by repeat split.
  - right. mstep' Hbody. inv_bind Hbody as b s3 Hb.
    case_decide as Hn; [by inv_step Hb|]. inv_step Hb.
    assert (last (heap s) = Some b) as Hlast.
    { rewrite last_lookup.
      by replace (pred (length (heap s))) with (length (heap s) - 1) by lia. }
    do 4 mstep' Hbody. simpl in Hbody.
    rewrite length_removelast, length_insert in Hbody.
    match type of Hbody with _ ?st = _ => exists b, st, s1 end.
    split; [done|]. split.
    { intros ->. by apply Hnot. }
    split; [done|]. split; [reflexivity|]. split; [reflexivity|].
    split; [by repeat split|]. split; [|done].
    case_decide.
    + inv_bind Hbody as [] s4 Hup. eauto.
    + by inv_step Hbody.
Qed.
End Inversions.

(** * Length and capacity, method by method *)

Section Frames.
Context {T : Type} `{Countable T}.
Variable comp : T → T → option bool.
Implicit Types s : EHeapQ T.

Lemma siftup_frame k s s' :
  siftup comp k s = Ok tt s' →
  length (heap s') = length (heap s) ∧ (∀ y, y ∈ heap s' ↔ y ∈ heap s) ∧
  same_caches s s' ∧
  (index_consistent (index_map s) (heap s) →
   index_consistent (index_map s') (heap s')).
Proof. intros Hrun. by apply sifted_frame, (siftup_sifted comp k). Qed.

Lemma siftdown_frame k pos s s' :
  siftdown comp k pos s = Ok tt s' →
  length (heap s') = length (heap s) ∧ (∀ y, y ∈ heap s' ↔ y ∈ heap s) ∧
  same_caches s s' ∧
  (index_consistent (index_map s) (heap s) →
   index_consistent (index_map s') (heap s')).
Proof. intros Hrun. by apply sifted_frame, (siftdown_sifted comp k pos). Qed.

Lemma pushpop_frame item s r s' :
  pushpop comp item s = Ok r s' →
  size s' = size s ∧ length (heap s') = length (heap s).
Proof.
  intros [_ [(_ & -> & _)|(s1 & s2 & _ & _ & Hh & _ & (Hsz & _) & Hup & (Hh' & _ & Hsz') & _)]]%pushpop_inv;
    [done|].
  apply siftup_frame in Hup as (Hlen & _ & (Hsz2 & _) & _).
  split; [congruence|]. rewrite Hh', Hlen, Hh. by rewrite length_insert.
Qed.

Lemma replace_frame item s r s' :
  replace comp item s = Ok r s' →
  size s' = size s ∧ length (heap s') = length (heap s).
Proof.
  intros [_ (s1 & s2 & _ & Hh & _ & (Hsz & _) & Hup & (Hh' & _ & Hsz') & _)]%replace_inv.
  apply siftup_frame in Hup as (Hlen & _ & (Hsz2 & _) & _).
  split; [congruence|]. rewrite Hh', Hlen, Hh. by rewrite length_insert.
Qed.

Lemma push_frame item s s' :
  push comp item s = Ok tt s' →
  size s' = size s ∧
  length (heap s') =
    if decide (N.of_nat (length (heap s)) = size s) then length (heap s)
    else S (length (heap s)).
Proof.
  intros [_ [(Hcap & r & Hpp)|(Hcap & s1 & s2 & Hh & _ & (Hsz & _) & Hd & (Hh' & _ & Hsz') & _)]]%push_inv.
  - rewrite decide_True by done. by eapply pushpop_frame.
  - rewrite decide_False by done.
    apply siftdown_frame in Hd as (Hlen & _ & (Hsz2 & _) & _).
    split; [congruence|]. rewrite Hh', Hlen, Hh, length_app. simpl. lia.
Qed.

Lemma pop_frame s r s' :
  pop comp s = Ok r s' →
  size s' = size s ∧ length (heap s') = length (heap s) - 1.
Proof.
  intros Hrun. split; [|by eapply pop_length].
  apply pop_inv in Hrun as (b & s2 & _ & _ & Hup & (_ & _ & Hsz') & _).
  apply siftup_frame in Hup as (_ & _ & (Hsz2 & _) & _).
  rewrite Hsz', Hsz2. done.
Qed.

Lemma remove_frame item s s' :
  remove comp item s = Ok tt s' →
  size s' = size s ∧ length (heap s') = length (heap s) - 1.
Proof.
  intros (idx & _ & [(_ & Hh & _ & Hsz & _)|(b & s1 & s2 & _ & _ & Hidx & Hh & _ & (Hsz & _) & Hsift & (Hh' & _ & Hsz') & _)])%remove_inv.
  { split; [done|]. by rewrite Hh, length_removelast. }
  assert (size s2 = size s1 ∧ length (heap s2) = length (heap s1)) as [Hsz2 Hlen2].
  { case_decide; [|by subst].
    destruct Hsift as (s3 & Hup & Hd).
    apply siftup_frame in Hup as (Hl3 & _ & (Hs3 & _) & _).
    apply siftdown_frame in Hd as (Hl2 & _ & (Hs2 & _) & _).
    split; congruence. }
  split; [congruence|].
  by rewrite Hh', Hlen2, Hh, length_removelast, length_insert.
Qed.

Lemma set_size_loop_frame fuel s s' :
  set_size_loop comp fuel s = Ok tt s' →
  size s' = size s ∧ (N.of_nat (length (heap s')) ≤ size s')%N ∧
  length (heap s') ≤ length (heap s).
Proof.
  revert s. induction fuel as [|fuel IH]; intros s Hrun;
    rewrite set_size_loop_unfold in Hrun; case_decide as Hlt; try done.
  - simplify_eq. split; [done|]. split; lia.
  - inv_bind Hrun as r s1 Hpop. apply pop_frame in Hpop as [Hsz Hlen].
    apply IH in Hrun as (Hsz' & Hle & Hlen'). split; [congruence|]. split; lia.
  - simplify_eq. split; [done|]. split; lia.
Qed.

Lemma set_size_frame sz s s' :
  set_size comp sz s = Ok tt s' →
  size s' = sz ∧ (N.of_nat (length (heap s')) ≤ size s')%N ∧
  length (heap s') ≤ length (heap s).
Proof.
  unfold set_size. intros Hrun. inv_bind Hrun as [] s1 Hs. simplify_eq.
  mstep' Hrun. by apply set_size_loop_frame in Hrun.
Qed.
End Frames.

(** * The index before and after each method *)

Section PreSiftIndex.
Context {T : Type} `{Countable T}.
Implicit Types (l : list T) (m : gmap T nat).

(** A new item written over the root, as pushpop and replace do. *)
Lemma root_swap_consistent m l r item :
  index_consistent m l → l !! 0 = Some r → m !! item = None →
  index_consistent (delete r (<[item:=0]> m)) (<[0:=item]> l).
Proof.
  intros Hc Hr Hfree. pose proof Hc as [Hm Hsz].
  apply lookup_lt_Some in Hr as Hlen.
  assert (r ≠ item) as Hne.
  { intros ->. rewrite (Hm _ _ Hr) in Hfree. done. }
  split.
  - intros i y Hy. destruct (decide (i = 0)) as [->|Hi].
    + rewrite list_lookup_insert_eq in Hy by done.
      assert (y = item) as -> by congruence.
      rewrite lookup_delete_ne by done. by rewrite lookup_insert_eq.
    + rewrite list_lookup_insert_ne in Hy by done.
      assert (y ≠ r).
      { intros ->. apply Hi. by eapply index_consistent_inj. }
      assert (y ≠ item).
      { intros ->. rewrite (Hm _ _ Hy) in Hfree. done. }
      rewrite lookup_delete_ne by done. rewrite lookup_insert_ne by done.
      by apply Hm.
  - rewrite length_insert, map_size_delete_Some.
    + rewrite map_size_insert_None by done. simpl. lia.
    + rewrite lookup_insert_ne by done. rewrite (Hm _ _ Hr). eauto.
Qed.

Lemma root_swap_elem_of m l r item y :
  index_consistent m l → l !! 0 = Some r →
  y ∈ <[0:=item]> l ↔ y = item ∨ (y ∈ l ∧ y ≠ r).
Proof.
  intros Hc Hr. apply lookup_lt_Some in Hr as Hlen.
  rewrite !list_elem_of_lookup. split.
  - intros [i Hy]. destruct (decide (i = 0)) as [->|Hi].
    + rewrite list_lookup_insert_eq in Hy by done. left. congruence.
    + rewrite list_lookup_insert_ne in Hy by done. right. split; [eauto|].
      intros ->. apply Hi. by eapply index_consistent_inj.
  - intros [->|[[i Hy] Hne]].
    + exists 0. by rewrite list_lookup_insert_eq.
    + exists i. rewrite list_lookup_insert_ne; [done|].
      intros <-. congruence.
Qed.

(** A new item appended, as push does. *)
Lemma append_consistent m l item :
  index_consistent m l → m !! item = None →
  index_consistent (<[item:=length l]> m) (l ++ [item]).
Proof.
  intros [Hm Hsz] Hfree. split.
  - intros i y Hy. apply lookup_app_Some in Hy as [Hy|[Hi Hy]].
    + assert (y ≠ item).
      { intros ->. rewrite (Hm _ _ Hy) in Hfree. done. }
      rewrite lookup_insert_ne by done. by apply Hm.
    + apply list_lookup_singleton_Some in Hy as [Hi0 ->].
      rewrite lookup_insert_eq. f_equal. lia.
  - rewrite map_size_insert_None by done. rewrite length_app. simpl. lia.
Qed.

(** The tail element dropped, as remove does for the tail. *)
Lemma drop_tail_consistent m l item :
  index_consistent m l → last l = Some item →
  index_consistent (delete item m) (removelast l).
Proof.
  intros Hc Hlast. pose proof Hc as [Hm Hsz].
  apply last_lookup_Some in Hlast as Hl.
  apply lookup_lt_Some in Hl as Hlen.
  split.
  - intros i y [Hy Hi]%lookup_removelast_Some.
    assert (y ≠ item).
    { intros ->. assert (i = length l - 1) by by eapply index_consistent_inj.
      lia. }
    rewrite lookup_delete_ne by done. by apply Hm.
  - rewrite length_removelast, map_size_delete_Some; [lia|].
    rewrite (Hm _ _ Hl). eauto.
Qed.
End PreSiftIndex.

Section ConsistencyKept.
Context {T : Type} `{Countable T}.
Variable comp : T → T → option bool.
Implicit Types s : EHeapQ T.

Lemma pushpop_consistent item s r s' :
  pushpop comp item s = Ok r s' →
  index_consistent (index_map s) (heap s) →
  index_consistent (index_map s') (heap s').
Proof.
  intros [Hfree [(_ & -> & _)|(s1 & s2 & Hr & _ & Hh & Hi & _ & Hup & (Hh' & Hi' & _) & _)]]%pushpop_inv Hc;
    [done|].
  apply siftup_frame in Hup as (_ & _ & _ & Hc2).
  rewrite Hh', Hi'. apply Hc2. rewrite Hh, Hi. by apply root_swap_consistent.
Qed.

Lemma replace_consistent item s r s' :
  replace comp item s = Ok r s' →
  index_consistent (index_map s) (heap s) →
  index_consistent (index_map s') (heap s').
Proof.
  intros [Hfree (s1 & s2 & Hr & Hh & Hi & _ & Hup & (Hh' & Hi' & _) & _)]%replace_inv Hc.
  apply siftup_frame in Hup as (_ & _ & _ & Hc2).
  rewrite Hh', Hi'. apply Hc2. rewrite Hh, Hi.
  rewrite <-delete_insert_ne.
  - by apply root_swap_consistent.
  - intros ->. destruct Hc as [Hm _]. rewrite (Hm _ _ Hr) in Hfree. done.
Qed.

Lemma push_consistent item s s' :
  push comp item s = Ok tt s' →
  index_consistent (index_map s) (heap s) →
  index_consistent (index_map s') (heap s').
Proof.
  intros [Hfree [(_ & r & Hpp)|(_ & s1 & s2 & Hh & Hi & _ & Hd & (Hh' & Hi' & _) & _)]]%push_inv Hc.
  { by eapply pushpop_consistent. }
  apply siftdown_frame in Hd as (_ & _ & _ & Hc2).
  rewrite Hh', Hi'. apply Hc2. rewrite Hh, Hi. by apply append_consistent.
Qed.

Lemma pop_consistent s r s' :
  pop comp s = Ok r s' →
  index_consistent (index_map s) (heap s) →
  index_consistent (index_map s') (heap s').
Proof.
  intros (b & s2 & Hr & Hb & Hup & (Hh' & Hi' & _) & _)%pop_inv Hc.
  apply siftup_frame in Hup as (_ & _ & _ & Hc2).
  rewrite Hh', Hi'. apply Hc2. simpl. by apply pop_presift_consistent.
Qed.

Lemma set_size_loop_consistent fuel s s' :
  set_size_loop comp fuel s = Ok tt s' →
  index_consistent (index_map s) (heap s) →
  index_consistent (index_map s') (heap s').
Proof.
  revert s. induction fuel as [|fuel IH]; intros s Hrun Hc;
    rewrite set_size_loop_unfold in Hrun; case_decide as Hlt; try done;
    try by simplify_eq.
  inv_bind Hrun as r s1 Hpop. eapply IH; [done|]. by eapply pop_consistent.
Qed.

Lemma set_size_consistent sz s s' :
  set_size comp sz s = Ok tt s' →
  index_consistent (index_map s) (heap s) →
  index_consistent (index_map s') (heap s').
Proof.
  unfold set_size. intros Hrun Hc. inv_bind Hrun as [] s1 Hs. simplify_eq.
  mstep' Hrun. by eapply set_size_loop_consistent.
Qed.

Lemma remove_tail_consistent item s s' :
  remove comp item s = Ok tt s' → last (heap s) = Some item →
  index_consistent (index_map s) (heap s) →
  index_consistent (index_map s') (heap s').
Proof.
  intros (idx & _ & [(_ & Hh & Hi & _)|(b & s1 & s2 & Hb & Hne & _)])%remove_inv Hlast Hc.
  - rewrite Hh, Hi. by apply drop_tail_consistent.
  - congruence.
Qed.
End ConsistencyKept.

(** * The sift passes return when every stored element has a record *)

Section Covers.
Context {T : Type} `{Countable T}.
Implicit Types s : EHeapQ T.

Lemma index_consistent_covers (m : gmap T nat) (l : list T) :
  index_consistent m l → index_covers m l.
Proof. intros [Hm _] i x Hx. rewrite (Hm _ _ Hx). eauto. Qed.

Lemma index_covers_exchange a b x p s :
  heap s !! b = Some x → heap s !! a = Some p →
  index_covers (index_map s) (heap s) →
  index_covers (index_map (exchange_state a b x p s))
               (heap (exchange_state a b x p s)).
Proof.
  intros Hb Ha Hc i y Hy. simpl in *.
  rewrite !lookup_insert_is_Some'. right. right.
  destruct (decide (i = b)) as [->|Hib].
  { rewrite list_lookup_insert_eq in Hy.
    - assert (y = p) as -> by congruence. by eapply Hc.
    - rewrite length_insert. by eapply lookup_lt_Some. }
  rewrite list_lookup_insert_ne in Hy by done.
  destruct (decide (i = a)) as [->|Hia].
  { rewrite list_lookup_insert_eq in Hy by (by eapply lookup_lt_Some).
    assert (y = x) as -> by congruence. by eapply Hc. }
  rewrite list_lookup_insert_ne in Hy by done. by eapply Hc.
Qed.

Lemma sifted_covers s s' :
  sifted s s' → index_covers (index_map s) (heap s) →
  index_covers (index_map s') (heap s').
Proof.
  induction 1 as [|s a b x p s' Hb Ha Hne _ IH]; [done|].
  intros Hc. by apply IH, index_covers_exchange.
Qed.

Variable comp : T → T → option bool.
Variable less : T → T → bool.
Hypothesis Hff : failure_free comp less.

Lemma siftdown_loop_returns fuel k pos x s :
  index_covers (index_map s) (heap s) →
  heap s !! pos = Some x → pos ≤ fuel →
  ∃ s', siftdown_loop comp fuel k pos x s = Ok tt s'.
Proof.
  revert pos s. induction fuel as [|fuel IH]; intros pos s Hc Hx Hfuel.
  { rewrite siftdown_loop_exit by lia. eauto. }
  destruct (decide (k < pos)) as [Hk|Hk].
  2:{ rewrite siftdown_loop_exit by lia. eauto. }
  pose proof (parent_lt pos ltac:(lia)).
  destruct (lookup_lt_is_Some_2 (heap s) (parent pos)) as [p Hp].
  { apply lookup_lt_Some in Hx. lia. }
  destruct (Hc _ _ Hx) as [ix Hix]. destruct (Hc _ _ Hp) as [ip Hip].
  erewrite (siftdown_loop_step comp fuel k pos x p (less x p)); eauto.
  destruct (less x p); [|eauto].
  apply IH; [| |lia].
  - by apply index_covers_exchange.
  - simpl. rewrite list_lookup_insert_ne by lia.
    rewrite list_lookup_insert_eq; [done|]. by eapply lookup_lt_Some.
Qed.

Lemma siftdown_returns k pos s :
  index_covers (index_map s) (heap s) →
  pos < length (heap s) ∨ heap s = [] →
  ∃ s', siftdown comp k pos s = Ok tt s'.
Proof.
  intros Hc [Hpos|He].
  - destruct (lookup_lt_is_Some_2 (heap s) pos Hpos) as [x Hx].
    rewrite (siftdown_step _ _ _ _ _ Hx). by eapply siftdown_loop_returns.
  - rewrite siftdown_empty by done. eauto.
Qed.

Lemma siftup_loop_returns fuel pos s :
  index_covers (index_map s) (heap s) →
  length (heap s) / 2 ≤ pos + fuel →
  ∃ pos' s', siftup_loop comp fuel (length (heap s)) (length (heap s) / 2) pos s
               = Ok pos' s'.
Proof.
  revert pos s. induction fuel as [|fuel IH]; intros pos s Hc Hfuel.
  { rewrite siftup_loop_exit by lia. eauto. }
  destruct (decide (pos < length (heap s) / 2)) as [Hk|Hk].
  2:{ rewrite siftup_loop_exit by lia. eauto. }
  destruct (lookup_lt_is_Some_2 (heap s) pos) as [x Hx]; [lia|].
  destruct (lookup_lt_is_Some_2 (heap s) (2 * pos + 1)) as [a Ha]; [lia|].
  destruct (Hc _ _ Hx) as [ix Hix].
  assert (∃ cp c, heap s !! cp = Some c ∧ pos < cp ∧
            siftup_loop comp (S fuel) (length (heap s)) (length (heap s) / 2) pos s =
            siftup_loop comp fuel (length (heap s)) (length (heap s) / 2) cp
              (exchange_state cp pos x c s)) as (cp & c & Hccp & Hcp & ->).
  { simpl. rewrite decide_True by done. unfold bind at 1.
    assert (∀ cp c, heap s !! cp = Some c →
      (tmp1 <- data_get cp ;; tmp2 <- data_get pos ;;
       data_set cp tmp2 ;;; data_set pos tmp1 ;;;
       index_at_put tmp2 cp ;;; index_at_put tmp1 pos ;;;
       siftup_loop comp fuel (length (heap s)) (length (heap s) / 2) cp) s =
      siftup_loop comp fuel (length (heap s)) (length (heap s) / 2) cp
        (exchange_state cp pos x c s)) as Hbody.
    { intros cp c Hccp. apply lookup_lt_Some in Hccp as ?.
      destruct (Hc _ _ Hccp) as [ic Hic].
      unfold bind, data_get, data_set, index_at_put.
      rewrite Hccp, Hx. rewrite decide_True by done. simpl.
      rewrite decide_True by (rewrite length_insert; lia). simpl.
      rewrite Hix. simpl.
      destruct (decide (x = c)) as [->|Hxc].
      + rewrite lookup_insert_eq. done.
      + rewrite lookup_insert_ne by done. rewrite Hic. done. }
    destruct (decide (2 * pos + 1 + 1 < length (heap s))) as [Hr|Hr].
    - destruct (lookup_lt_is_Some_2 (heap s) (2 * pos + 1 + 1)) as [b Hb]; [lia|].
      unfold bind at 1. unfold data_get at 1. rewrite Ha.
      unfold bind at 1. unfold data_get at 1. rewrite Hb.
      unfold bind at 1. unfold compare at 1. rewrite Hff.
      unfold ret at 1.
      set (cp := 2 * pos + 1 + (if less a b then 0 else 1)).
      assert (∃ c, heap s !! cp = Some c ∧ pos < cp) as (c & Hccp & Hcp).
      { subst cp. destruct (less a b).
        - exists a. replace (2 * pos + 1 + 0) with (2 * pos + 1) by lia.
          split; [done|lia].
        - exists b. split; [done|lia]. }
      exists cp, c. split; [done|]. split; [done|]. by apply Hbody.
    - exists (2 * pos + 1), a. split; [done|]. split; [lia|].
      unfold ret at 1. by apply Hbody. }
  assert (length (heap (exchange_state cp pos x c s)) = length (heap s)) as Hlen.
  { simpl. by rewrite !length_insert. }
  rewrite <-Hlen. apply IH.
  - by apply index_covers_exchange.
  - rewrite Hlen. lia.
Qed.

Lemma siftup_returns k s :
  index_covers (index_map s) (heap s) →
  k < length (heap s) ∨ heap s = [] →
  ∃ s', siftup comp k s = Ok tt s'.
Proof.
  intros Hc Hk. unfold siftup. unfold bind at 1, heap_size at 1.
  destruct (siftup_loop_returns (length (heap s)) k s Hc)
    as (pos & s1 & Hl); [lia|].
  rewrite (bind_step _ _ _ _ _ Hl).
  apply siftup_loop_sifted in Hl as [Hs Hlt].
  pose proof (sifted_covers _ _ Hs Hc) as Hc1.
  apply sifted_frame in Hs as (Hlen & _).
  apply siftdown_returns; [done|].
  destruct Hk as [Hk|He]; [left; auto|right].
  apply length_zero_iff_nil. rewrite Hlen, He. done.
Qed.

Lemma maybe_adjust_max_returns item s :
  ∃ s', maybe_adjust_max comp item s = Ok tt s'.
Proof.
  unfold maybe_adjust_max, noexcept, bind, compare, ret.
  destruct (max_item_set s); simpl; [|eauto].
  rewrite Hff. destruct (less (max_item s) item); eauto.
Qed.
End Covers.

(** * The methods return on well-formed objects *)

Section Returns.
Context {T : Type} `{Countable T}.
Variable comp : T → T → option bool.
Variable less : T → T → bool.
Hypothesis Hff : failure_free comp less.
Implicit Types s : EHeapQ T.

Lemma cache_tail_returns {A} (item x : T) (r : A) s :
  ∃ s', (maybe_del_max_item item ;;; maybe_adjust_max comp x ;;; ret r) s
        = Ok r s'.
Proof.
  destruct (maybe_del_max_item_runs item s) as [s1 H1].
  destruct (maybe_adjust_max_returns comp less Hff x s1) as [s2 H2].
  exists s2. rewrite (bind_step _ _ _ _ _ H1), (bind_step _ _ _ _ _ H2). done.
Qed.

Lemma pushpop_returns item s :
  index_consistent (index_map s) (heap s) → index_map s !! item = None →
  ∃ r s', pushpop comp item s = Ok r s'.
Proof.
  intros Hc Hfree. unfold pushpop.
  unfold bind at 1, index_find at 1. rewrite Hfree.
  unfold bind at 1, heap_size at 1.
  destruct (decide (0 < length (heap s))) as [Hlen|Hlen].
  2:{ unfold bind, ret. eauto. }
  destruct (lookup_lt_is_Some_2 (heap s) 0 Hlen) as [top Htop].
  unfold bind at 1. unfold bind at 1, heap_at at 1. rewrite Htop.
  unfold compare. rewrite Hff.
  destruct (less top item); [|unfold ret; eauto].
  rewrite (bind_step _ _ _ _ _ (data_get_step _ _ _ Htop)).
  rewrite (bind_step _ _ _ _ _ (data_set_step _ _ _ Hlen)).
  unfold bind at 1, index_insert at 1. unfold bind at 1, index_erase at 1.
  match goal with |- ∃ r s', bind _ _ ?s1 = _ =>
    destruct (siftup_returns comp less Hff 0 s1) as [s2 H2]
  end.
  { apply index_consistent_covers. simpl. rewrite Hfree.
    by apply root_swap_consistent. }
  { left. simpl. by rewrite length_insert. }
  rewrite (bind_step _ _ _ _ _ H2).
  unfold bind at 1, set_last_item at 1.
  destruct (cache_tail_returns item item top (with_last item true s2)) as [s' Hs'].
  eauto.
Qed.

Lemma replace_returns item s :
  index_consistent (index_map s) (heap s) → heap s ≠ [] →
  index_map s !! item = None →
  ∃ r s', replace comp item s = Ok r s'.
Proof.
  intros Hc Hne Hfree. unfold replace.
  rewrite (bind_step _ _ _ _ _ (throw_on_empty_step _ Hne)).
  unfold bind at 1, index_find at 1. rewrite Hfree.
  assert (0 < length (heap s)) as Hlen by (destruct (heap s); simpl; [done|lia]).
  destruct (lookup_lt_is_Some_2 (heap s) 0 Hlen) as [top Htop].
  rewrite (bind_step _ _ _ _ _ (data_get_step _ _ _ Htop)).
  unfold bind at 1, index_erase at 1.
  erewrite (bind_step (data_set 0 item)) by (by apply data_set_step).
  unfold bind at 1, index_insert at 1.
  match goal with |- ∃ r s', bind _ _ ?s1 = _ =>
    destruct (siftup_returns comp less Hff 0 s1) as [s2 H2]
  end.
  { apply index_consistent_covers. simpl.
    rewrite (proj2 (lookup_delete_None _ _ _) (or_intror Hfree)).
    rewrite <-delete_insert_ne.
    - by apply root_swap_consistent.
    - intros ->. destruct Hc as [Hm _]. rewrite (Hm _ _ Htop) in Hfree. done. }
  { left. simpl. by rewrite length_insert. }
  rewrite (bind_step _ _ _ _ _ H2).
  unfold bind at 1, set_last_item at 1.
  destruct (cache_tail_returns top top top (with_last top true s2)) as [s' Hs'].
  eauto.
Qed.

Lemma push_returns item s :
  index_consistent (index_map s) (heap s) → index_map s !! item = None →
  ∃ s', push comp item s = Ok tt s'.
Proof.
  intros Hc Hfree. unfold push.
  unfold bind at 1, index_find at 1. rewrite Hfree.
  unfold bind at 1, heap_size at 1. unfold bind at 1, get_size at 1.
  case_decide as Hcap.
  { destruct (pushpop_returns item s Hc Hfree) as (r & s' & Hpp).
    rewrite (bind_step _ _ _ _ _ Hpp). unfold ret. eauto. }
  unfold bind at 1, index_insert at 1. unfold bind at 1, push_back at 1.
  match goal with |- ∃ s', bind (try_catch _ _) _ ?s1 = _ =>
    destruct (siftdown_returns comp less Hff 0 (length (heap s)) s1) as [s2 H2]
  end.
  { apply index_consistent_covers. simpl. rewrite Hfree.
    by apply append_consistent. }
  { left. simpl. rewrite length_app. simpl. lia. }
  erewrite (bind_step (try_catch _ _)).
  2:{ unfold try_catch, bind at 1, heap_size at 1. simpl.
      rewrite length_app. simpl.
      replace (length (heap s) + 1 - 1) with (length (heap s)) by lia.
      by rewrite H2. }
  unfold bind at 1, set_last_item at 1. unfold bind at 1, heap_size at 1.
  case_decide.
  - unfold set_max_item. eauto.
  - apply (maybe_adjust_max_returns comp less Hff).
Qed.

Lemma remove_returns item s :
  index_consistent (index_map s) (heap s) → item ∈ heap s →
  ∃ s', remove comp item s = Ok tt s'.
Proof.
  intros Hc [idx Hidx]%list_elem_of_lookup. pose proof Hc as [Hm _].
  apply lookup_lt_Some in Hidx as Hlen.
  unfold remove. unfold bind at 1, heap_size at 1.
  unfold bind at 1, index_find at 1. rewrite (Hm _ _ Hidx).
  assert (heap s ≠ []) as Hne by (destruct (heap s); simpl in *; [lia|done]).
  destruct (lookup_lt_is_Some_2 (heap s) (length (heap s) - 1)) as [b Hb]; [lia|].
  assert (∀ st, ∃ s', (maybe_del_max_item item ;;; maybe_del_last_item item) st
                      = Ok tt s') as Htail.
  { intros st. destruct (maybe_del_max_item_runs item st) as [s1 H1].
    destruct (maybe_del_last_item_runs item s1) as [s2 H2].
    exists s2. by rewrite (bind_step _ _ _ _ _ H1). }
  unfold bind at 1. rewrite decide_True by lia.
  rewrite (bind_step _ _ _ _ _ (data_get_step _ _ _ Hb)). unfold ret at 1.
  destruct (decide (item = b)) as [->|Hnb].
  - rewrite bool_decide_eq_true_2 by done.
    erewrite bind_step; [apply Htail|]. cbv iota.
    rewrite (bind_step _ _ _ _ _ (pop_back_step _ Hne)).
    unfold index_erase. done.
  - rewrite bool_decide_eq_false_2 by done.
    assert (idx < length (heap s) - 1) as Hlt.
    { destruct (decide (idx = length (heap s) - 1)) as [->|]; [congruence|lia]. }
    set (s1 := with_index_map (delete item)
                 (with_heap (fun l => removelast l)
                    (with_heap (<[idx:=b]>) s))).
    assert (index_covers (index_map s1) (heap s1)) as Hc1.
    { intros i y [Hy Hi]%lookup_removelast_Some. simpl in *.
      rewrite length_insert in Hi.
      assert (∃ j, j ≠ idx ∧ heap s !! j = Some y) as (j & Hj & Hyj).
      { destruct (decide (i = idx)) as [->|].
        - rewrite list_lookup_insert_eq in Hy by done.
          exists (length (heap s) - 1). split; [lia|congruence].
        - rewrite list_lookup_insert_ne in Hy by done. eauto. }
      assert (y ≠ item).
      { intros ->. apply Hj. by eapply index_consistent_inj. }
      rewrite lookup_delete_ne by done. rewrite (Hm _ _ Hyj). eauto. }
    assert (length (heap s1) = length (heap s) - 1) as Hlen1.
    { subst s1. simpl. by rewrite length_removelast, length_insert. }
    destruct (siftup_returns comp less Hff idx s1 Hc1) as [s2 H2]; [left; lia|].
    pose proof (siftup_sifted _ _ _ _ H2) as Hs.
    pose proof (sifted_covers _ _ Hs Hc1) as Hc2.
    apply sifted_frame in Hs as (Hlen2 & _).
    destruct (siftdown_returns comp less Hff 0 idx s2 Hc2) as [s3 H3]; [left; lia|].
    erewrite bind_step; [apply Htail|].
    { cbv iota. unfold bind at 1, heap_size at 1.
        rewrite decide_False by lia.
        rewrite (bind_step _ _ _ _ _ (data_get_step _ _ _ Hb)).
        rewrite (bind_step _ _ _ _ _ (data_set_step _ _ _ Hlen)).
        erewrite (bind_step pop_back).
        2:{ apply pop_back_step. simpl. intros Hnil.
            apply (f_equal length) in Hnil. rewrite length_insert in Hnil.
            simpl in Hnil. lia. }
        unfold bind at 1, index_erase at 1. unfold bind at 1, heap_size at 1.
        fold s1. rewrite decide_True by lia.
        rewrite (bind_step _ _ _ _ _ H2). exact H3. }
Qed.
End Returns.

(** * The index as the inverse of the vector *)

Section IndexInverse.
Context {T : Type} `{Countable T}.

Lemma index_consistent_dom (m : gmap T nat) (l : list T) x :
  index_consistent m l → is_Some (m !! x) ↔ x ∈ l.
Proof.
  intros Hc. pose proof Hc as [Hm Hsz].
  assert (list_to_set (C:=gset T) l = dom m) as Heq.
  { apply set_subseteq_size_eq.
    - intros y [i Hy]%elem_of_list_to_set%list_elem_of_lookup.
      apply elem_of_dom. rewrite (Hm _ _ Hy). eauto.
    - rewrite size_dom, size_list_to_set by by eapply index_consistent_NoDup.
      lia. }
  rewrite <- elem_of_dom, <- Heq. apply elem_of_list_to_set.
Qed.






End IndexInverse.

Section ErrorPaths.
Context {T : Type} `{Countable T}.
Variable comp : T → T → option bool.

Lemma pop_empty (s : EHeapQ T) :
  heap s = [] → pop comp s = Throw EHeapQEmpty s.
Proof.
  intros Hs. unfold pop, throw_on_empty, bind, heap_size, throw.
  by rewrite Hs.
Qed.

Lemma remove_not_found item (s : EHeapQ T) :
  index_map s !! item = None → remove comp item s = Throw EHeapQNotFound s.
Proof.
  intros Hi. unfold remove, bind, heap_size, index_find, throw.
  by rewrite Hi.
Qed.
End ErrorPaths.

Section LastCache.
Context {T : Type} `{Countable T}.

Lemma get_last_set (s : EHeapQ T) x :
  heap s ≠ [] → last_item_set s = true → last_item s = x →
  get_last s = Ok x s.
Proof.
  intros Hne Hset <-. unfold get_last, bind, heap_size.
  rewrite decide_False by (by destruct (heap s)). by rewrite Hset.
Qed.
End LastCache.

Lemma push_append_spec {T : Type} `{Countable T}
    (comp : T → T → option bool) (less : T → T → bool)
    (item : T) (s : EHeapQ T) :
  failure_free comp less → StrictWeakOrder less →
  heap_ordered less (heap s) → index_consistent (index_map s) (heap s) →
  index_map s !! item = None → N.of_nat (length (heap s)) ≠ size s →
  ∃ s', push comp item s = Ok tt s' ∧
    (∀ y, y ∈ heap s' ↔ y = item ∨ y ∈ heap s) ∧
    length (heap s') = S (length (heap s)) ∧
    heap_ordered less (heap s') ∧
    index_consistent (index_map s') (heap s') ∧
    size s' = size s ∧
    get_last s' = Ok item s'.
Proof.
  intros Hff swo Ho Hc Hfree Hcap.
  destruct (push_returns comp less Hff item s Hc Hfree) as [s' Hrun].
  exists s'. split; [done|].
  pose proof (push_frame _ _ _ _ Hrun) as [Hsz Hlen].
  rewrite decide_False in Hlen by done.
  pose proof (push_inv _ _ _ _ Hrun)
    as [_ [[? _]|(_ & s1 & s2 & Hh & _ & _ & Hd & (Hh' & _) & Hl & Hls & _)]];
    [done|].
  apply siftdown_frame in Hd as (_ & Hel & _).
  split.
  { intros y. rewrite Hh', Hel, Hh, elem_of_app, list_elem_of_singleton.
    tauto. }
  split; [done|]. split; [by eapply push_ordered|].
  split; [by eapply push_consistent|]. split; [done|].
  apply get_last_set; [|done..]. intros Hnil. by rewrite Hnil in Hlen.
Qed.

(** * The two caches *)

Section Caches.
Context {T : Type} `{Countable T}.
Implicit Types s : EHeapQ T.

Lemma maybe_del_max_item_spec x s s' :
  maybe_del_max_item x s = Ok tt s' →
  heap s' = heap s ∧
  last_item s' = last_item s ∧ last_item_set s' = last_item_set s ∧
  max_item s' = max_item s ∧
  (max_item_set s' = true → max_item_set s = true ∧ max_item s ≠ x).
Proof.
  unfold maybe_del_max_item.
  destruct (max_item_set s) eqn:Hset; simpl.
  - case_bool_decide; intros ?; simplify_eq; simpl; by rewrite ?Hset.
  - intros ?; simplify_eq. by rewrite Hset.
Qed.

Lemma maybe_del_last_item_spec x s s' :
  maybe_del_last_item x s = Ok tt s' →
  heap s' = heap s ∧
  max_item s' = max_item s ∧ max_item_set s' = max_item_set s ∧
  last_item s' = last_item s ∧
  (last_item_set s' = true → last_item_set s = true ∧ last_item s ≠ x).
Proof.
  unfold maybe_del_last_item.
  destruct (last_item_set s) eqn:Hset; simpl.
  - case_bool_decide; intros ?; simplify_eq; simpl; by rewrite ?Hset.
  - intros ?; simplify_eq. by rewrite Hset.
Qed.

Variable comp : T → T → option bool.
Variable less : T → T → bool.
Hypothesis Hff : failure_free comp less.


Hypothesis swo : StrictWeakOrder less.








End Caches.


Section MainLoopFacts.
Context {T : Type} `{Countable T}.
Variable comp : T → T → option bool.
Variable less : T → T → bool.
Hypothesis Hff : failure_free comp less.
Hypothesis swo : StrictWeakOrder less.

Lemma drain_unfold fuel out (s : EHeapQ T) :
  drain comp fuel out s =
    if decide (size s ≠ 0%N) then
      match fuel with
      | 0 => (out, OutOfFuel)
      | S fuel' =>
        match pop comp s with
        | Ok x s1 => drain comp fuel' (out ++ [x]) s1
        | Throw e s1 => (out, Throw e s1)
        | Undefined => (out, Undefined)
        | Terminate => (out, Terminate)
        | OutOfFuel => (out, OutOfFuel)
        end
      end
    else (out, Ok tt s).
Proof. by destruct fuel. Qed.

Lemma drain_spec fuel out (s : EHeapQ T) :
  heap_ordered less (heap s) → index_consistent (index_map s) (heap s) →
  size s ≠ 0%N → length (heap s) < fuel →
  ∃ l s', drain comp fuel out s = (out ++ l, Throw EHeapQEmpty s') ∧
    l ≡ₚ heap s ∧ StronglySorted (fun a b => less b a = false) l ∧
    heap s' = [] ∧ size s' = size s.
Proof.
  revert out s. induction fuel as [|fuel IH]; intros out s Ho Hc Hsz Hlen;
    [lia|].
  rewrite drain_unfold, decide_True by done.
  destruct (decide (heap s = [])) as [Hnil|Hne].
  - rewrite (pop_empty comp s Hnil).
    exists [], s. rewrite app_nil_r, Hnil. repeat split; constructor.
  - destruct (pop_spec comp less Hff swo s Ho Hc Hne)
      as (r & s1 & -> & Hroot & Ho1 & Hc1 & Hlen1 & Hnin & Hel & Hsz1).
    destruct (root_is_minimum less swo _ _ Ho Hroot) as [Hr Hmin].
    apply lookup_lt_Some in Hroot as Hpos.
    destruct (IH (out ++ [r]) s1) as (l & s' & -> & Hperm & Hsort & Hnil & Hsz');
      [done|done|congruence|lia|].
    exists (r :: l), s'. rewrite <- app_assoc. split; [done|].
    split; [|split; [|split; [done|congruence]]].
    + apply NoDup_Permutation.
      * constructor; [|rewrite Hperm; by eapply index_consistent_NoDup].
        by rewrite Hperm.
      * by eapply index_consistent_NoDup.
      * intros y. by rewrite elem_of_cons, Hperm, Hel.
    + constructor; [done|]. apply Forall_forall. intros y Hy.
      apply Hmin. rewrite Hperm in Hy. apply Hel. by right.
Qed.

Lemma push_all_spec items (s : EHeapQ T) :
  heap_ordered less (heap s) → index_consistent (index_map s) (heap s) →
  NoDup items → (∀ x, x ∈ items → x ∉ heap s) →
  (N.of_nat (length (heap s) + length items) ≤ size s)%N →
  ∃ s', push_all comp items s = Ok tt s' ∧
    (∀ y, y ∈ heap s' ↔ y ∈ heap s ∨ y ∈ items) ∧
    length (heap s') = length (heap s) + length items ∧
    heap_ordered less (heap s') ∧
    index_consistent (index_map s') (heap s') ∧
    size s' = size s.
Proof.
  revert s. induction items as [|x items IH]; intros s Ho Hc Hnd Hnew Hcap.
  - exists s. simpl. split; [done|]. split; [|split; [lia|done]].
    intros y. rewrite elem_of_nil. tauto.
  - apply NoDup_cons in Hnd as [Hx Hnd]. simpl in Hcap.
    destruct (push_append_spec comp less x s Hff swo Ho Hc)
      as (s1 & Hrun & Hel & Hlen & Ho1 & Hc1 & Hsz1 & _).
    { apply eq_None_not_Some. rewrite (index_consistent_dom _ _ x Hc).
      apply Hnew. by left. }
    { lia. }
    destruct (IH s1) as (s' & Hrun' & Hel' & Hlen' & Ho' & Hc' & Hsz');
      [done|done|done| |lia|].
    { intros y Hy [->|Hin]%Hel; [done|]. apply (Hnew y); [by right|done]. }
    exists s'. split; [simpl; unfold bind; by rewrite Hrun|].
    split; [|split; [simpl; lia|split; [done|split; [done|congruence]]]].
    intros y. rewrite Hel', Hel, elem_of_cons. tauto.
Qed.
End MainLoopFacts.

Lemma new_ordered {T : Type} `{Countable T} (less : T → T → bool) sz (l0 m0 : T) :
  heap_ordered less (heap (EHeapQ_new sz l0 m0)).
Proof. intros i x p _ Hx. by destruct i. Qed.

Lemma new_consistent {T : Type} `{Countable T} sz (l0 m0 : T) :
  index_consistent (index_map (EHeapQ_new sz l0 m0)) (heap (EHeapQ_new sz l0 m0)).
Proof. split; [|done]. intros i x Hx. by destruct i. Qed.

Lemma StronglySorted_weaken {A} (R R' : A → A → Prop) (l : list A) :
  (∀ a b, R a b → R' a b) → StronglySorted R l → StronglySorted R' l.
Proof.
  intros HR. induction 1 as [|x l Hs IH Hall]; constructor; [done|].
  eapply Forall_impl; [done|]. auto.
Qed.

Section MoreReturns.
Context {T : Type} `{Countable T}.
Variable comp : T → T → option bool.
Variable less : T → T → bool.
Hypothesis Hff : failure_free comp less.
Implicit Types s : EHeapQ T.

Lemma pop_returns s :
  index_consistent (index_map s) (heap s) → heap s ≠ [] →
  ∃ r s', pop comp s = Ok r s'.
Proof.
  intros Hc Hne.
  destruct (lookup_lt_is_Some_2 (heap s) 0) as [r Hr].
  { destruct (heap s); simpl; [done|lia]. }
  destruct (last (heap s)) as [b|] eqn:Hb.
  2:{ apply last_None in Hb. done. }
  destruct (siftup_returns comp less Hff 0 (pop_presift r b s)) as [s2 Hup].
  { apply index_consistent_covers. simpl. by apply pop_presift_consistent. }
  { destruct (decide (heap (pop_presift r b s) = [])); [by right|left].
    destruct (heap (pop_presift r b s)); simpl; [done|lia]. }
  destruct (maybe_del_last_item_runs r s2) as [s3 H3].
  destruct (maybe_del_max_item_runs r s3) as [s4 H4].
  exists r, s4. rewrite (pop_unfold comp s r b) by done.
  rewrite (bind_step _ _ _ _ _ Hup), (bind_step _ _ _ _ _ H3).
  by rewrite (bind_step _ _ _ _ _ H4).
Qed.

Lemma set_size_loop_returns fuel s :
  index_consistent (index_map s) (heap s) → length (heap s) ≤ fuel →
  ∃ s', set_size_loop comp fuel s = Ok tt s'.
Proof.
  revert s. induction fuel as [|fuel IH]; intros s Hc Hfuel;
    rewrite set_size_loop_unfold; case_decide as Hlt; eauto; [lia|].
  destruct (pop_returns s Hc) as (r & s1 & Hpop).
  { intros He. rewrite He in Hlt. simpl in Hlt. lia. }
  destruct (IH s1) as [s' Hrun].
  { by eapply pop_consistent. }
  { apply pop_frame in Hpop as [_ ->]. lia. }
  exists s'. by rewrite (bind_step _ _ _ _ _ Hpop).
Qed.

Lemma set_size_returns sz s :
  index_consistent (index_map s) (heap s) →
  ∃ s', set_size comp sz s = Ok tt s'.
Proof.
  intros Hc.
  destruct (set_size_loop_returns (length (heap s)) (with_size sz s))
    as [s' Hrun]; [done|done|].
  exists s'. unfold set_size. unfold bind at 1. unfold bind at 1, heap_size at 1.
  done.
Qed.

Lemma get_max_scan_returns idxs r s :
  (∀ i, i ∈ idxs → i < length (heap s)) →
  ∃ m, get_max_scan comp idxs r s = Ok m s.
Proof.
  revert r. induction idxs as [|i idxs IH]; intros r Hin; simpl.
  { by exists r. }
  destruct (lookup_lt_is_Some_2 (heap s) i) as [x Hx].
  { apply Hin. by left. }
  rewrite (bind_step _ _ _ _ _ (data_get_step _ _ _ Hx)).
  rewrite (bind_step _ _ _ _ _ (compare_step _ _ _ _ _ (Hff r x))).
  destruct (IH (if less r x then x else r)) as (m & Hrun).
  { intros j Hj. apply Hin. by right. }
  exists m. destruct (less r x).
  - by rewrite (bind_step _ _ _ _ _ (data_get_step _ _ _ Hx)).
  - unfold bind at 1, ret at 1. done.
Qed.

Lemma get_max_returns s :
  heap s ≠ [] → ∃ m s', get_max comp s = Ok m s'.
Proof.
  intros Hne. unfold get_max.
  rewrite (bind_step _ _ _ _ _ (throw_on_empty_step _ Hne)).
  destruct (max_item_set s); [eauto|].
  unfold bind at 1, heap_size at 1.
  set (n := length (heap s)).
  assert (0 < n) as Hn by (subst n; destruct (heap s); simpl; [done|lia]).
  destruct (lookup_lt_is_Some_2 (heap s) (n / 2)) as [r Hr]; [lia|].
  rewrite (bind_step _ _ _ _ _ (data_get_step _ _ _ Hr)).
  destruct (get_max_scan_returns (seq (n / 2 + 1) (n - (n / 2 + 1))) r s)
    as (m & Hrun).
  { intros i Hi%elem_of_seq. lia. }
  rewrite (bind_step _ _ _ _ _ Hrun). unfold bind, ret. eauto.
Qed.
End MoreReturns.

Section SiftPermutes.
Context {T : Type} `{Countable T}.

Lemma exchanged_Permutation (l l' : list T) a b :
  exchanged l l' a b → l' ≡ₚ l.
Proof.
  intros (Hlen & Ha & Hb & Hrest). apply Permutation_inj. split; [done|].
  exists (fun i => if decide (i = a) then b
                   else if decide (i = b) then a else i).
  split.
  - intros i j Hij. repeat case_decide; congruence.
  - intros i. repeat case_decide; subst; auto.
Qed.

Lemma sifted_Permutation (s s' : EHeapQ T) : sifted s s' → heap s' ≡ₚ heap s.
Proof.
  induction 1 as [s|s a b x p s' Hb Ha Hne Hs IH]; [done|].
  rewrite IH. simpl. by eapply exchanged_Permutation, exchanged_inserts.
Qed.
End SiftPermutes.

(** * Further properties of the methods *)

(** X1, the guard throw_on_empty: on an empty vector get_top, get_last,
    get_max, pop and replace throw EHeapQEmpty and leave the object as it
    was; replace does so before it looks the item up. *)
Theorem empty_heap_throws {T : Type} `{Countable T}
    (comp : T → T → option bool) (item : T) (s : EHeapQ T) :
  heap s = [] →
  get_top s = Throw EHeapQEmpty s ∧
  get_last s = Throw EHeapQEmpty s ∧
  get_max comp s = Throw EHeapQEmpty s ∧
  pop comp s = Throw EHeapQEmpty s ∧
  replace comp item s = Throw EHeapQEmpty s.
Proof.
  intros Hs.
  unfold get_top, get_last, get_max, pop, replace, throw_on_empty, bind,
    heap_size, throw.
  rewrite Hs. simpl. done.
Qed.

Lemma empty_heap_throws_witness :
  get_top (EHeapQ_new 10 0%Z 0%Z) = Throw EHeapQEmpty (EHeapQ_new 10 0%Z 0%Z) ∧
  get_last (EHeapQ_new 10 0%Z 0%Z) = Throw EHeapQEmpty (EHeapQ_new 10 0%Z 0%Z) ∧
  get_max int_less (EHeapQ_new 10 0%Z 0%Z)
    = Throw EHeapQEmpty (EHeapQ_new 10 0%Z 0%Z) ∧
  pop int_less (EHeapQ_new 10 0%Z 0%Z)
    = Throw EHeapQEmpty (EHeapQ_new 10 0%Z 0%Z) ∧
  replace int_less 7%Z (EHeapQ_new 10 0%Z 0%Z)
    = Throw EHeapQEmpty (EHeapQ_new 10 0%Z 0%Z).
Proof.
  apply (empty_heap_throws int_less 7%Z (EHeapQ_new 10 0%Z 0%Z)). reflexivity.
Defined.

(** X2, keys are unique: push, pushpop and, on a non-empty heap, replace
    throw EHeapQAlreadyPresent for an item the index already records, and
    leave the object as it was. *)
Theorem duplicate_key_rejected {T : Type} `{Countable T}
    (comp : T → T → option bool) (item : T) (i : nat) (s : EHeapQ T) :
  index_map s !! item = Some i →
  push comp item s = Throw EHeapQAlreadyPresent s ∧
  pushpop comp item s = Throw EHeapQAlreadyPresent s ∧
  (heap s ≠ [] → replace comp item s = Throw EHeapQAlreadyPresent s).
Proof.
  intros Hi. split; [|split].
  - unfold push, bind, index_find, throw. by rewrite Hi.
  - unfold pushpop, bind, index_find, throw. by rewrite Hi.
  - intros Hne.
    unfold replace, throw_on_empty, bind, index_find, heap_size, throw, ret.
    destruct (heap s) eqn:Hh; [done|]. simpl. by rewrite Hi.
Qed.

Lemma duplicate_key_rejected_witness :
  push int_less 5%Z sample = Throw EHeapQAlreadyPresent sample ∧
  pushpop int_less 5%Z sample = Throw EHeapQAlreadyPresent sample ∧
  (heap sample ≠ [] →
   replace int_less 5%Z sample = Throw EHeapQAlreadyPresent sample).
Proof.
  apply (duplicate_key_rejected int_less 5%Z 1 sample). reflexivity.
Defined.



(** X4, remove erases the key, whatever the comparator and the state: when
    remove(item) returns, the index has no record of item, and a second
    remove(item) throws EHeapQNotFound. *)
Theorem remove_erases_key {T : Type} `{Countable T}
    (comp : T → T → option bool) (item : T) (s s' : EHeapQ T) :
  remove comp item s = Ok tt s' →
  index_map s' !! item = None ∧
  remove comp item s' = Throw EHeapQNotFound s'.
Proof.
  intros Hrun.
  assert (index_map s' !! item = None) as Hnone;
    [|split; [done|by apply remove_not_found]].
  apply remove_inv in Hrun
    as (idx & _ & [(_ & _ & Hi & _)|
                   (b & s1 & s2 & _ & _ & _ & _ & Hi & _ & Hsift & (_ & Hi' & _) & _)]).
  { rewrite Hi. apply lookup_delete_eq. }
  apply eq_None_not_Some. rewrite Hi'.
  assert (is_Some (index_map s2 !! item) ↔ is_Some (index_map s1 !! item))
    as ->.
  { case_decide; [|by subst].
    destruct Hsift as (s3 & Hup & Hd).
    rewrite (siftdown_keys _ _ _ _ _ _ Hd). by eapply siftup_keys. }
  rewrite Hi, lookup_delete_eq. by intros [? ?].
Qed.

Lemma remove_erases_key_witness :
  ∃ s', remove int_less 5%Z sample = Ok tt s' ∧
    index_map s' !! 5%Z = None ∧
    remove int_less 5%Z s' = Throw EHeapQNotFound s'.
Proof.
  eexists. split; [vm_compute; reflexivity|].
  apply (remove_erases_key int_less 5%Z sample). vm_compute. reflexivity.
Defined.

(** X5, get_last forgets the element a call names: after pop returned
    r, get_last does not answer r, and after remove(item) returned,
    get_last does not answer item, whatever the comparator and the state.
    Nothing is said about which element the vector lost: with a stale
    index, remove(item) can drop another element than item. *)
Theorem named_item_not_last {T : Type} `{Countable T}
    (comp : T → T → option bool) (s s' : EHeapQ T) (x : T) :
  pop comp s = Ok x s' ∨ remove comp x s = Ok tt s' →
  get_last s' ≠ Ok x s'.
Proof.
  intros Hrun Hlast.
  assert (last_item_set s' = true ∧ last_item s' = x) as [Hset Hx].
  { unfold get_last, bind, heap_size in Hlast.
    case_decide; [done|]. destruct (last_item_set s'); [|done].
    split; [done|]. congruence. }
  destruct Hrun as [Hrun|Hrun].
  - apply pop_inv in Hrun as (b & s2 & _ & _ & _ & _ & Htail).
    inv_bind Htail as [] s3 H3. inv_bind Htail as [] s4 H4. inv_step Htail.
    apply maybe_del_last_item_spec in H3 as (_ & _ & _ & Hl3 & Hls3).
    apply maybe_del_max_item_spec in H4 as (_ & Hl4 & Hls4 & _).
    rewrite Hls4 in Hset. destruct (Hls3 Hset) as [_ Hne].
    apply Hne. congruence.
  - assert (∃ s2, (maybe_del_max_item x ;;; maybe_del_last_item x) s2
                    = Ok tt s') as [s2 Htail].
    { apply remove_inv in Hrun
        as (idx & _ & [(_ & _ & _ & _ & Htail)|
                       (b & s1 & s2 & _ & _ & _ & _ & _ & _ & _ & _ & Htail)]);
        eauto. }
    inv_bind Htail as [] s3 H3.
    apply maybe_del_last_item_spec in Htail as (_ & _ & _ & Hl4 & Hls4).
    destruct (Hls4 Hset) as [_ Hne]. apply Hne. congruence.
Qed.

Lemma named_item_not_last_witness :
  ∃ s', remove int_less 8%Z sample = Ok tt s' ∧ get_last s' ≠ Ok 8%Z s'.
Proof.
  eexists. split; [vm_compute; reflexivity|].
  apply (named_item_not_last int_less sample). right. vm_compute. reflexivity.
Defined.

(** X6, no call goes wrong on a well-formed object: with a comparator
    that never fails and a consistent index, every call of push, pushpop,
    pop, replace, remove, set_size and get_max either returns, or throws
    one of EHeapQEmpty, EHeapQNotFound, EHeapQAlreadyPresent and leaves
    the object as it was; no access leaves the vector, no exception
    reaches a noexcept boundary, and no loop runs on. *)
Theorem calls_are_safe {T : Type} `{Countable T}
    (comp : T → T → option bool) (less : T → T → bool)
    (o : op) (s : EHeapQ T) :
  failure_free comp less → index_consistent (index_map s) (heap s) →
  (∃ s', run_op comp o s = Ok tt s') ∨
  run_op comp o s = Throw EHeapQEmpty s ∨
  run_op comp o s = Throw EHeapQNotFound s ∨
  run_op comp o s = Throw EHeapQAlreadyPresent s.
Proof.
  intros Hff Hc. destruct o as [item|item| |item|item|sz|]; simpl.
  - destruct (index_map s !! item) as [i|] eqn:Hi.
    + do 3 right. unfold push, bind, index_find, throw. by rewrite Hi.
    + left. by eapply push_returns.
  - destruct (index_map s !! item) as [i|] eqn:Hi.
    + do 3 right. unfold pushpop, bind, index_find, throw. by rewrite Hi.
    + left. destruct (pushpop_returns comp less Hff item s Hc Hi)
        as (r & s' & Hrun).
      exists s'. by rewrite (bind_step _ _ _ _ _ Hrun).
  - destruct (decide (heap s = [])) as [Hnil|Hne].
    + right; left. unfold bind. by rewrite pop_empty.
    + left. destruct (pop_returns comp less Hff s Hc Hne) as (r & s' & Hrun).
      exists s'. by rewrite (bind_step _ _ _ _ _ Hrun).
  - destruct (decide (heap s = [])) as [Hnil|Hne].
    { right; left.
      unfold replace, throw_on_empty, bind, heap_size, throw.
      by rewrite Hnil. }
    destruct (index_map s !! item) as [i|] eqn:Hi.
    + do 3 right. unfold replace, bind.
      rewrite (throw_on_empty_step _ Hne). unfold index_find, throw.
      by rewrite Hi.
    + left. destruct (replace_returns comp less Hff item s Hc Hne Hi)
        as (r & s' & Hrun).
      exists s'. by rewrite (bind_step _ _ _ _ _ Hrun).
  - destruct (index_map s !! item) as [i|] eqn:Hi.
    + left. eapply remove_returns; [done..|].
      eapply index_consistent_dom; eauto.
    + right; right; left. by apply remove_not_found.
  - left. by eapply set_size_returns.
  - destruct (decide (heap s = [])) as [Hnil|Hne].
    + right; left.
      unfold get_max, throw_on_empty, bind, heap_size, throw.
      by rewrite Hnil.
    + left. destruct (get_max_returns comp less Hff s Hne) as (m & s' & Hrun).
      exists s'. by rewrite (bind_step _ _ _ _ _ Hrun).
Qed.

Lemma calls_are_safe_witness :
  (∃ s', run_op int_less (OpReplace 5%Z) sample = Ok tt s') ∨
  run_op int_less (OpReplace 5%Z) sample = Throw EHeapQEmpty sample ∨
  run_op int_less (OpReplace 5%Z) sample = Throw EHeapQNotFound sample ∨
  run_op int_less (OpReplace 5%Z) sample = Throw EHeapQAlreadyPresent sample.
Proof.
  apply (calls_are_safe int_less Z.ltb (OpReplace 5%Z) sample).
  - apply int_less_failure_free.
  - apply sample_consistent.
Defined.

(** X7, the capacity bounds the length: in every state built from a new
    object by calls that returned, the vector holds at most [size]
    elements, whatever the comparator. *)
Theorem capacity_invariant {T : Type} `{Countable T}
    (comp : T → T → option bool) (s : EHeapQ T) :
  reachable comp s → (N.of_nat (length (heap s)) ≤ size s)%N.
Proof.
  induction 1 as [sz l0 m0|s o s' Hs IH Hrun]; [simpl; lia|].
  destruct o as [item|item| |item|item|sz|]; simpl in Hrun.
  - apply push_frame in Hrun as [Hsz Hlen]. rewrite Hsz, Hlen.
    case_decide; lia.
  - inv_bind Hrun as r s1 Hr. inv_step Hrun.
    apply pushpop_frame in Hr as [-> ->]. done.
  - inv_bind Hrun as r s1 Hr. inv_step Hrun.
    apply pop_frame in Hr as [-> ->]. lia.
  - inv_bind Hrun as r s1 Hr. inv_step Hrun.
    apply replace_frame in Hr as [-> ->]. done.
  - apply remove_frame in Hrun as [-> ->]. lia.
  - by apply set_size_frame in Hrun as (_ & ? & _).
  - inv_bind Hrun as r s1 Hr. inv_step Hrun.
    apply get_max_Ok in Hr as ((-> & _ & ->) & _). done.
Qed.

Lemma capacity_invariant_witness :
  ∃ s, after int_less 3 demo_ops = Ok tt s ∧
       (N.of_nat (length (heap s)) ≤ size s)%N.
Proof.
  eexists. split; [vm_compute; reflexivity|].
  apply (capacity_invariant int_less).
  apply (after_reachable int_less 3 demo_ops). vm_compute; reflexivity.
Defined.

(** X8, only set_size changes the capacity: after a call that returned,
    [size] is the argument of set_size, and what it was for every other
    method. *)
Theorem capacity_changed_only_by_set_size {T : Type} `{Countable T}
    (comp : T → T → option bool) (o : op) (s s' : EHeapQ T) :
  run_op comp o s = Ok tt s' →
  size s' = match o with OpSetSize sz => sz | _ => size s end.
Proof.
  intros Hrun. destruct o as [item|item| |item|item|sz|]; simpl in Hrun.
  - by apply push_frame in Hrun as [? _].
  - inv_bind Hrun as r s1 Hr. inv_step Hrun.
    by apply pushpop_frame in Hr as [? _].
  - inv_bind Hrun as r s1 Hr. inv_step Hrun.
    by apply pop_frame in Hr as [? _].
  - inv_bind Hrun as r s1 Hr. inv_step Hrun.
    by apply replace_frame in Hr as [? _].
  - by apply remove_frame in Hrun as [? _].
  - by apply set_size_frame in Hrun as [? _].
  - inv_bind Hrun as r s1 Hr. inv_step Hrun.
    by apply get_max_Ok in Hr as ((_ & _ & ?) & _).
Qed.

Lemma capacity_changed_only_by_set_size_witness :
  ∃ s', run_op int_less (OpRemove 5%Z) sample = Ok tt s' ∧
        size s' = size sample.
Proof.
  eexists. split; [vm_compute; reflexivity|].
  apply (capacity_changed_only_by_set_size int_less (OpRemove 5%Z) sample).
  vm_compute. reflexivity.
Defined.

(** X9, set_size that does not shrink: when the new capacity is at least
    the length, set_size pops nothing and calls no comparator; only the
    capacity field changes. *)
Theorem set_size_grow {T : Type} `{Countable T}
    (comp : T → T → option bool) (sz : N) (s : EHeapQ T) :
  (N.of_nat (length (heap s)) ≤ sz)%N →
  set_size comp sz s = Ok tt (with_size sz s).
Proof.
  intros Hle. unfold set_size, bind, heap_size.
  rewrite set_size_loop_unfold. simpl. rewrite decide_False by lia. done.
Qed.

Lemma set_size_grow_witness :
  set_size fragile_less 7 sample = Ok tt (with_size 7 sample).
Proof. apply (set_size_grow fragile_less 7 sample). simpl. lia. Defined.

(** X10, the index stays consistent: a call that returned on a state with a
    consistent index leaves a consistent index, for every method and
    comparator, provided a remove takes the tail element of the vector
    (the interior case is the one that leaves a stale record). *)
Theorem index_consistency_kept {T : Type} `{Countable T}
    (comp : T → T → option bool) (o : op) (s s' : EHeapQ T) :
  run_op comp o s = Ok tt s' →
  index_consistent (index_map s) (heap s) →
  (∀ item, o = OpRemove item → last (heap s) = Some item) →
  index_consistent (index_map s') (heap s').
Proof.
  intros Hrun Hc Htail. destruct o as [item|item| |item|item|sz|]; simpl in Hrun.
  - by eapply push_consistent.
  - inv_bind Hrun as r s1 Hr. inv_step Hrun. by eapply pushpop_consistent.
  - inv_bind Hrun as r s1 Hr. inv_step Hrun. by eapply pop_consistent.
  - inv_bind Hrun as r s1 Hr. inv_step Hrun. by eapply replace_consistent.
  - eapply remove_tail_consistent; eauto.
  - by eapply set_size_consistent.
  - inv_bind Hrun as r s1 Hr. inv_step Hrun.
    apply get_max_Ok in Hr as ((-> & -> & _) & _). done.
Qed.

Lemma index_consistency_kept_witness :
  ∃ s', run_op int_less (OpRemove 8%Z) sample = Ok tt s' ∧
        index_consistent (index_map s') (heap s').
Proof.
  eexists. split; [vm_compute; reflexivity|].
  apply (index_consistency_kept int_less (OpRemove 8%Z) sample).
  - vm_compute. reflexivity.
  - apply sample_consistent.
  - intros item [= <-]. reflexivity.
Defined.

(** X11, the sift passes only rearrange: when siftup or siftdown returns,
    whatever the comparator, the vector is a permutation of what it was,
    capacity and caches are untouched, the index records the same keys,
    and a consistent index is still consistent. *)
Theorem sift_passes_permute {T : Type} `{Countable T}
    (comp : T → T → option bool) (k pos : nat) (s s' : EHeapQ T) :
  siftup comp k s = Ok tt s' ∨ siftdown comp k pos s = Ok tt s' →
  heap s' ≡ₚ heap s ∧ same_caches s s' ∧
  (∀ key, is_Some (index_map s' !! key) ↔ is_Some (index_map s !! key)) ∧
  (index_consistent (index_map s) (heap s) →
   index_consistent (index_map s') (heap s')).
Proof.
  intros Hrun.
  assert (sifted s s') as Hs.
  { destruct Hrun; [by eapply siftup_sifted|by eapply siftdown_sifted]. }
  split; [by apply sifted_Permutation|].
  apply sifted_frame in Hs as (_ & _ & Hcaches & Hc).
  split; [done|]. split; [|done].
  intros key. destruct Hrun; [by eapply siftup_keys|by eapply siftdown_keys].
Qed.

Lemma sift_passes_permute_witness :
  ∃ s', siftup int_less 0 unsifted = Ok tt s' ∧ heap s' ≡ₚ heap unsifted.
Proof.
  eexists. split; [vm_compute; reflexivity|].
  apply (sift_passes_permute int_less 0 0 unsifted). left.
  vm_compute. reflexivity.
Defined.



(** X13, push at the capacity: with a comparator that never fails, on a
    state with a consistent index whose length equals the capacity, push
    of a new key returns and the length is unchanged: either the object
    is exactly as before and the item is dropped without notice (the heap
    is empty, capacity 0, or the top does not precede the item), or the
    top precedes the item and leaves while the item enters. *)
Theorem push_at_capacity {T : Type} `{Countable T}
    (comp : T → T → option bool) (less : T → T → bool)
    (item : T) (s : EHeapQ T) :
  failure_free comp less →
  index_consistent (index_map s) (heap s) →
  index_map s !! item = None → N.of_nat (length (heap s)) = size s →
  ∃ s', push comp item s = Ok tt s' ∧
    length (heap s') = length (heap s) ∧
    ((s' = s ∧
      (heap s = [] ∨ ∃ top, heap s !! 0 = Some top ∧ less top item = false)) ∨
     (∃ top, heap s !! 0 = Some top ∧ less top item = true ∧
        ∀ y, y ∈ heap s' ↔ y = item ∨ (y ∈ heap s ∧ y ≠ top))).
Proof.
  intros Hff Hc Hfree Hcap.
  destruct (push_returns comp less Hff item s Hc Hfree) as [s' Hrun].
  exists s'. split; [done|].
  pose proof (push_frame _ _ _ _ Hrun) as [Hsz Hlen].
  rewrite decide_True in Hlen by done. split; [done|].
  pose proof (push_inv _ _ _ _ Hrun) as [_ [[_ [r Hpp]]|[? _]]]; [|done].
  apply pushpop_inv in Hpp
    as [_ [(_ & -> & Hwhy)|(s1 & s2 & Hr & Hlt & Hh & _ & _ & Hup & (Hh' & _) & _)]].
  - left. split; [done|]. destruct Hwhy as [?|(top & Htop & Hlt)]; [by left|].
    right. exists top. split; [done|]. rewrite Hff in Hlt. congruence.
  - right. exists r. split; [done|]. split; [rewrite Hff in Hlt; congruence|].
    apply siftup_frame in Hup as (_ & Hel & _).
    intros y. rewrite Hh', Hel, Hh. by eapply root_swap_elem_of.
Qed.

Lemma push_at_capacity_witness :
  ∃ s', push int_less 1%Z sample = Ok tt s' ∧
    length (heap s') = length (heap sample) ∧
    ((s' = sample ∧
      (heap sample = [] ∨
       ∃ top, heap sample !! 0 = Some top ∧ (top <? 1)%Z = false)) ∨
     (∃ top, heap sample !! 0 = Some top ∧ (top <? 1)%Z = true ∧
        ∀ y, y ∈ heap s' ↔ y = 1%Z ∨ (y ∈ heap sample ∧ y ≠ top))).
Proof.
  apply (push_at_capacity int_less Z.ltb 1%Z sample).
  - apply int_less_failure_free.
  - apply sample_consistent.
  - reflexivity.
  - reflexivity.
Defined.

(** X14, pushpop eviction law: on a heap-ordered state with a consistent
    index, under a comparator that never fails and is a strict weak
    order, when the top precedes a new item, pushpop returns the top,
    which is a minimum of the heap, and puts the item in its place: the
    vector holds the item and what it held before except the returned
    element, the length is unchanged, both invariants hold and get_last
    answers the item. *)
Theorem pushpop_eviction {T : Type} `{Countable T}
    (comp : T → T → option bool) (less : T → T → bool)
    (item top : T) (s : EHeapQ T) :
  failure_free comp less → StrictWeakOrder less →
  heap_ordered less (heap s) → index_consistent (index_map s) (heap s) →
  index_map s !! item = None →
  heap s !! 0 = Some top → less top item = true →
  ∃ s', pushpop comp item s = Ok top s' ∧
    is_minimum less (heap s) top ∧
    (∀ y, y ∈ heap s' ↔ y = item ∨ (y ∈ heap s ∧ y ≠ top)) ∧
    length (heap s') = length (heap s) ∧
    heap_ordered less (heap s') ∧
    index_consistent (index_map s') (heap s') ∧
    get_last s' = Ok item s'.
Proof.
  intros Hff swo Ho Hc Hfree Htop Hlt.
  destruct (pushpop_returns comp less Hff item s Hc Hfree) as (r & s' & Hrun).
  pose proof (pushpop_frame _ _ _ _ _ Hrun) as [Hsz Hlen].
  pose proof (pushpop_inv _ _ _ _ _ Hrun)
    as [_ [(_ & _ & Hwhy)|(s1 & s2 & Hr & _ & Hh & _ & _ & Hup & (Hh' & _) & Hl & Hls & _)]].
  { destruct Hwhy as [Hnil|(top' & Htop' & Hlt')].
    - by rewrite Hnil in Htop.
    - rewrite Hff in Hlt'. congruence. }
  assert (r = top) as -> by congruence.
  exists s'. split; [done|]. split; [by eapply root_is_minimum|].
  apply siftup_frame in Hup as (_ & Hel & _).
  split. { intros y. rewrite Hh', Hel, Hh. by eapply root_swap_elem_of. }
  split; [done|]. split; [by eapply pushpop_ordered|].
  split; [by eapply pushpop_consistent|].
  apply get_last_set; [|done..]. intros Hnil.
  apply lookup_lt_Some in Htop. rewrite Hnil in Hlen. simpl in Hlen. lia.
Qed.

Lemma pushpop_eviction_witness :
  ∃ s', pushpop int_less 4%Z sample = Ok 3%Z s' ∧
    is_minimum Z.ltb (heap sample) 3%Z ∧
    (∀ y, y ∈ heap s' ↔ y = 4%Z ∨ (y ∈ heap sample ∧ y ≠ 3%Z)) ∧
    length (heap s') = length (heap sample) ∧
    heap_ordered Z.ltb (heap s') ∧
    index_consistent (index_map s') (heap s') ∧
    get_last s' = Ok 4%Z s'.
Proof.
  apply (pushpop_eviction int_less Z.ltb 4%Z 3%Z sample).
  - apply int_less_failure_free.
  - apply Zltb_strict_weak_order.
  - apply sample_ordered.
  - apply sample_consistent.
  - reflexivity.
  - reflexivity.
  - reflexivity.
Defined.











(** X20, the pushes of main: pushing distinct new keys, one after the
    other, into a heap-ordered state with a consistent index that has
    room for all of them returns; the vector then holds what it held and
    the pushed items, and both invariants hold. *)
Theorem push_all_admits {T : Type} `{Countable T}
    (comp : T → T → option bool) (less : T → T → bool)
    (items : list T) (s : EHeapQ T) :
  failure_free comp less → StrictWeakOrder less →
  heap_ordered less (heap s) → index_consistent (index_map s) (heap s) →
  NoDup items → (∀ x, x ∈ items → x ∉ heap s) →
  (N.of_nat (length (heap s) + length items) ≤ size s)%N →
  ∃ s', push_all comp items s = Ok tt s' ∧
    (∀ y, y ∈ heap s' ↔ y ∈ heap s ∨ y ∈ items) ∧
    length (heap s') = length (heap s) + length items ∧
    heap_ordered less (heap s') ∧
    index_consistent (index_map s') (heap s') ∧
    size s' = size s.
Proof. intros. by eapply push_all_spec. Qed.

Lemma push_all_admits_witness :
  ∃ s', push_all int_less main_items (EHeapQ_new 10 0%Z 0%Z) = Ok tt s' ∧
    (∀ y, y ∈ heap s' ↔ y ∈ heap (EHeapQ_new 10 0%Z 0%Z) ∨ y ∈ main_items) ∧
    length (heap s') =
      length (heap (EHeapQ_new 10 0%Z 0%Z)) + length main_items ∧
    heap_ordered Z.ltb (heap s') ∧
    index_consistent (index_map s') (heap s') ∧
    size s' = size (EHeapQ_new 10 0%Z 0%Z).
Proof.
  apply (push_all_admits int_less Z.ltb main_items (EHeapQ_new 10 0%Z 0%Z)).
  - apply int_less_failure_free.
  - apply Zltb_strict_weak_order.
  - apply new_ordered.
  - apply new_consistent.
  - apply (bool_decide_unpack (NoDup main_items)). vm_compute. exact I.
  - intros x _ Hx. by apply elem_of_nil in Hx.
  - simpl. lia.
Defined.

(** X21, draining a heap sorts it: the loop that pops while the capacity
    is not 0, run on a heap-ordered state with a consistent index and a
    capacity other than 0, writes the stored elements in non-descending
    order, each once, and then ends with EHeapQEmpty on an empty vector;
    it never ends normally, since the condition reads the capacity, not
    the length. *)
Theorem drain_sorts {T : Type} `{Countable T}
    (comp : T → T → option bool) (less : T → T → bool)
    (fuel : nat) (out : list T) (s : EHeapQ T) :
  failure_free comp less → StrictWeakOrder less →
  heap_ordered less (heap s) → index_consistent (index_map s) (heap s) →
  size s ≠ 0%N → length (heap s) < fuel →
  ∃ l s', drain comp fuel out s = (out ++ l, Throw EHeapQEmpty s') ∧
    l ≡ₚ heap s ∧ StronglySorted (fun a b => less b a = false) l ∧
    heap s' = [] ∧ size s' = size s.
Proof. intros. by eapply drain_spec. Qed.

Lemma drain_sorts_witness :
  ∃ l s', drain int_less 4 [] sample = ([] ++ l, Throw EHeapQEmpty s') ∧
    l ≡ₚ heap sample ∧ StronglySorted (fun a b => (b <? a)%Z = false) l ∧
    heap s' = [] ∧ size s' = size sample.
Proof.
  apply (drain_sorts int_less Z.ltb 4 [] sample).
  - apply int_less_failure_free.
  - apply Zltb_strict_weak_order.
  - apply sample_ordered.
  - apply sample_consistent.
  - discriminate.
  - simpl. lia.
Defined.

(** X22, main: for an initializer list of at most 10 distinct integers,
    main writes the two header lines, then the integers of the list in
    ascending order, one per line, and ends with the exception
    EHeapQEmpty leaving main (the loop asks get_size, the capacity 10,
    and so calls pop once more on the empty heap); it never reaches
    return 0. *)
Theorem main_prints_sorted (l0 m0 : Z) (fuel : nat) (items : list Z) :
  NoDup items → length items ≤ 10 → length items < fuel →
  ∃ popped s',
    main_with l0 m0 fuel items =
      ([OutDefaultSizeLabel; OutULong EHEAPQ_DEFAULT_SIZE; OutEndl;
        OutHelloLabel; OutULong 10; OutEndl]
       ++ flat_map (fun x => [OutInt x; OutEndl]) popped,
       Throw EHeapQEmpty s') ∧
    popped ≡ₚ items ∧ StronglySorted Z.le popped.
Proof.
  intros Hnd Hlen Hfuel. unfold main_with, get_size.
  destruct (push_all_spec int_less Z.ltb int_less_failure_free
              Zltb_strict_weak_order items (EHeapQ_new 10 l0 m0))
    as (a & -> & Hel & Hla & Ho & Hc & Hsz).
  { apply new_ordered. }
  { apply new_consistent. }
  { done. }
  { intros x _ Hx. by apply elem_of_nil in Hx. }
  { simpl. lia. }
  destruct (drain_spec int_less Z.ltb int_less_failure_free
              Zltb_strict_weak_order fuel [] a Ho Hc)
    as (popped & s' & -> & Hperm & Hsort & _).
  { by rewrite Hsz. }
  { rewrite Hla. simpl. lia. }
  exists popped, s'. split; [done|]. split.
  - rewrite Hperm. apply NoDup_Permutation; [by eapply index_consistent_NoDup|done|].
    intros y. rewrite Hel. simpl. rewrite elem_of_nil. tauto.
  - eapply StronglySorted_weaken; [|done]. simpl. intros x y. lia.
Qed.

Lemma main_prints_sorted_witness :
  ∃ popped s',
    main 0%Z 0%Z 6 =
      ([OutDefaultSizeLabel; OutULong EHEAPQ_DEFAULT_SIZE; OutEndl;
        OutHelloLabel; OutULong 10; OutEndl]
       ++ flat_map (fun x => [OutInt x; OutEndl]) popped,
       Throw EHeapQEmpty s') ∧
    popped ≡ₚ main_items ∧ StronglySorted Z.le popped.
Proof.
  apply (main_prints_sorted 0%Z 0%Z 6 main_items).
  - apply (bool_decide_unpack (NoDup main_items)). vm_compute. exact I.
  - simpl. lia.
  - simpl. lia.
Defined.

(** X23, shrink retains the largest when the index is consistent.  On a
    heap that satisfies both invariants (heap order and a consistent
    index) and holds more than k elements, under a comparator that
    never fails and is a strict weak order, set_size(k) returns; the heap
    then holds k of the original elements, none of them preceding an
    element that was dropped, its length is k and does not exceed the
    capacity, and both invariants still hold. *)
Theorem set_size_retains_largest {T : Type} `{Countable T}
    (comp : T → T → option bool) (less : T → T → bool)
    (s : EHeapQ T) (k : N) :
  failure_free comp less → StrictWeakOrder less →
  heap_ordered less (heap s) → index_consistent (index_map s) (heap s) →
  (k < N.of_nat (length (heap s)))%N →
  ∃ s', set_size comp k s = Ok tt s' ∧
        length (heap s') = N.to_nat k ∧ size s' = k ∧
        (N.of_nat (length (heap s')) ≤ size s')%N ∧
        NoDup (heap s') ∧
        (∀ y, y ∈ heap s' → y ∈ heap s) ∧
        (∀ x y, x ∈ heap s → x ∉ heap s' → y ∈ heap s' → less y x = false) ∧
        heap_ordered less (heap s') ∧
        index_consistent (index_map s') (heap s').
Proof.
  intros Hff swo Ho Hc Hk.
  destruct (set_size_spec comp less Hff swo k s Ho Hc)
    as (s' & Hrun & Ho' & Hc' & Hsz & Hlen & Hsub & Hdom).
  exists s'. split; [done|]. split; [lia|]. split; [done|]. split; [lia|].
  split; [by eapply index_consistent_NoDup|]. done.
Qed.

Lemma set_size_retains_largest_witness :
  ∃ s', set_size int_less 1 sample = Ok tt s' ∧
        length (heap s') = N.to_nat 1 ∧ size s' = 1%N ∧
        (N.of_nat (length (heap s')) ≤ size s')%N ∧
        NoDup (heap s') ∧
        (∀ y, y ∈ heap s' → y ∈ heap sample) ∧
        (∀ x y, x ∈ heap sample → x ∉ heap s' → y ∈ heap s' →
                (y <? x)%Z = false) ∧
        heap_ordered Z.ltb (heap s') ∧
        index_consistent (index_map s') (heap s').
Proof.
  apply (set_size_retains_largest int_less Z.ltb sample 1).
  - intros a b. reflexivity.
  - split; intros; lia.
  - intros [|[|[|i]]] x p Hi Hx Hp; simpl in Hx; try discriminate; try lia;
      vm_compute in Hp; injection Hx as <-; injection Hp as <-; reflexivity.
  - split; [|vm_compute; reflexivity].
    intros [|[|[|i]]] x Hx; simpl in Hx; try discriminate;
      injection Hx as <-; vm_compute; reflexivity.
  - simpl. lia.
Defined.
